(** * DocFS: sandboxed read-only filesystem core

    A shallow embedding of the filesystem core of DocFS
    ([src/utils/filesystem.ts], [src/utils/cache.ts]), of its tools
    ([src/tools/readFiles.ts], [src/tools/listFiles.ts],
    [src/tools/dirTree.ts]) and of the start-up and the call handler of the
    server ([src/index.ts]), and the properties of its path sandbox, metadata
    cache, ignore matcher, directory walker, text search, ranged reader and
    tool gate.

    The first part holds the embedding: JavaScript strings, arrays and
    values, Node's [path] functions, the host (filesystem, clock, and the
    libraries the code calls), and then each component as the source has
    it.  The second part holds the properties.

    Strings are strings of 8-bit characters; numbers are integers; paths are
    POSIX paths. *)

From Stdlib Require Import List String Ascii ZArith Lia Bool Arith.
From Stdlib Require Import Permutation Sorted DecimalString.
From Stdlib Require OrderedTypeEx.
Import ListNotations.

Open Scope string_scope.
Open Scope list_scope.

(** String concatenation, JavaScript's [+] on strings; [++] stays with lists. *)
Infix "+++" := String.append (right associativity, at level 60) : string_scope.

(* ===================================================================== *)
(** ** JavaScript strings *)
(* ===================================================================== *)

Module JsString.

(** [s.startsWith(pre)] *)
Definition startsWith (s pre : string) : bool := String.prefix pre s.

(** [s.split(c)] for a one-character separator: never returns an empty
    array, [''.split('/')] is [['']]. *)
Fixpoint split (c : ascii) (s : string) : list string :=
  match s with
  | EmptyString => [EmptyString]
  | String a r =>
      if Ascii.eqb a c then EmptyString :: split c r
      else match split c r with
           | [] => [String a EmptyString]
           | h :: t => String a h :: t
           end
  end.

(** [ls.join(sep)] *)
Definition join (sep : string) (ls : list string) : string :=
  String.concat sep ls.

(** The character [c] does not occur in [s]. *)
Fixpoint lacks (c : ascii) (s : string) : bool :=
  match s with
  | EmptyString => true
  | String a r => negb (Ascii.eqb a c) && lacks c r
  end.

Definition chr (c : ascii) : string := String c EmptyString.

Definition inRange (lo hi : nat) (c : ascii) : bool :=
  (lo <=? nat_of_ascii c)%nat && (nat_of_ascii c <=? hi)%nat.

(** Canonicalisation under the [i] flag, on ASCII. *)
Definition upper (c : ascii) : ascii :=
  if inRange 97 122 c then ascii_of_nat (nat_of_ascii c - 32) else c.

Definition sameChar (ignoreCase : bool) (a b : ascii) : bool :=
  if ignoreCase then Ascii.eqb (upper a) (upper b) else Ascii.eqb a b.

End JsString.

(* ===================================================================== *)
(** ** Results and errors *)
(* ===================================================================== *)

(** A JavaScript [Error] is carried by its message. *)
Definition Error := string.

(** The outcome of a call that may [throw]. *)
Inductive result (A : Type) : Type :=
| Ok (a : A)
| Throw (e : Error).
Arguments Ok {A} a.
Arguments Throw {A} e.

(** JavaScript numbers are used here for sizes, counts, depths, line numbers
    and millisecond clocks only; they are modelled by [Z]. *)
Definition number := Z.
Bind Scope Z_scope with number.

(** [`${n}`] for an integral number. *)
Definition showNumber (n : number) : string :=
  NilEmpty.string_of_int (Z.to_int n).

(* ===================================================================== *)
(** ** node:path (POSIX flavour) *)
(* ===================================================================== *)

(** Model of the functions of Node's [path] module that the sources import:
    [sep], [isAbsolute], [normalize], [resolve], [join], [relative].  A path
    is cut into segments at ['/'], the segment list is normalised the way
    Node's [normalizeString] does, and the result is glued back. *)
Module Path.
Import JsString.

Definition slash : ascii := "/"%char.
Definition sep : string := "/".

Definition isAbsolute (p : string) : bool :=
  match p with
  | String c _ => Ascii.eqb c slash
  | EmptyString => false
  end.

Fixpoint endsWithSep (p : string) : bool :=
  match p with
  | EmptyString => false
  | String c EmptyString => Ascii.eqb c slash
  | String _ r => endsWithSep r
  end.

(** One segment of [normalizeString]; the stack holds the kept segments,
    last one first. *)
Definition normStep (allowAboveRoot : bool) (st : list string) (seg : string)
  : list string :=
  if (seg =? "")%string || (seg =? ".")%string then st
  else if (seg =? "..")%string then
    match st with
    | [] => if allowAboveRoot then [".."] else []
    | top :: rest =>
        if (top =? "..")%string
        then (if allowAboveRoot then ".." :: st else st)
        else rest
    end
  else seg :: st.

Definition normalizeSegments (allowAboveRoot : bool) (segs : list string)
  : list string :=
  rev (fold_left (normStep allowAboveRoot) segs []).

Definition normalizeString (path : string) (allowAboveRoot : bool) : string :=
  join sep (normalizeSegments allowAboveRoot (split slash path)).

Definition normalize (path : string) : string :=
  if (path =? "")%string then "." else
  let isAbs := isAbsolute path in
  let trailingSeparator := endsWithSep path in
  let p := normalizeString path (negb isAbs) in
  if (p =? "")%string
  then (if isAbs then "/" else if trailingSeparator then "./" else ".")
  else
    let p := if trailingSeparator then p +++ "/" else p in
    if isAbs then "/" +++ p else p.

(** The right-to-left loop of [resolve]: [rargs] is the argument list
    reversed, followed by the working directory. *)
Fixpoint resolveLoop (rargs : list string) (resolvedPath : string)
  : string * bool :=
  match rargs with
  | [] => (resolvedPath, false)
  | path :: rest =>
      if (path =? "")%string then resolveLoop rest resolvedPath
      else
        let resolvedPath := path +++ "/" +++ resolvedPath in
        if isAbsolute path then (resolvedPath, true)
        else resolveLoop rest resolvedPath
  end.

Definition resolve (cwd : string) (args : list string) : string :=
  let '(resolvedPath, resolvedAbsolute) := resolveLoop (rev args ++ [cwd]) "" in
  let r := normalizeString resolvedPath (negb resolvedAbsolute) in
  if resolvedAbsolute then "/" +++ r
  else if (r =? "")%string then "." else r.

(** The segments of the result of [resolve] when an absolute argument (or
    the working directory) anchors it. *)
Definition resolvedSegments (cwd : string) (args : list string) : list string :=
  normalizeSegments false (split slash (fst (resolveLoop (rev args ++ [cwd]) ""))).

Definition pathJoin (args : list string) : string :=
  match filter (fun a => negb (a =? "")%string) args with
  | [] => "."
  | parts => normalize (join "/" parts)
  end.

(** The segments of an absolute normalised path. *)
Definition segmentsOf (p : string) : list string :=
  filter (fun s => negb (s =? "")%string) (split slash p).

Fixpoint dropCommon (a b : list string) : list string * list string :=
  match a, b with
  | x :: a', y :: b' => if (x =? y)%string then dropCommon a' b' else (a, b)
  | _, _ => (a, b)
  end.

Definition relative (cwd : string) (from to : string) : string :=
  if (from =? to)%string then "" else
  let from := resolve cwd [from] in
  let to := resolve cwd [to] in
  if (from =? to)%string then "" else
  let '(up, down) := dropCommon (segmentsOf from) (segmentsOf to) in
  join "/" (map (fun _ => "..") up ++ down).

(** A segment as a directory listing can name it. *)
Definition segOk (s : string) : bool :=
  lacks slash s && negb (s =? "")%string && negb (s =? ".")%string
  && negb (s =? "..")%string.

(** The canonical text of an absolute path given by its segments. *)
Definition canon (segs : list string) : string := "/" +++ join sep segs.

End Path.

(* ===================================================================== *)
(** ** PathSandbox: [validatePathAccess] (src/utils/filesystem.ts) *)
(* ===================================================================== *)

Module Sandbox.
Import JsString Path.

(** The error thrown for a path that escapes every root. *)
Definition OutsideSandbox (targetPath : string) : Error :=
  "Path '" +++ targetPath +++ "' is outside allowed directories".

(** The test of the loop body, for one root. *)
Definition rootAdmits (cwd normalized root : string) : bool :=
  let normalizedRoot := normalize (resolve cwd [root]) in
  startsWith normalized (normalizedRoot +++ sep)
  || (normalized =? normalizedRoot)%string.

(** [validatePathAccess(targetPath, allowedRoots)]; [cwd] is [process.cwd()],
    which [resolve] consults for a relative argument.  The loop returns the
    same [normalized] whichever root admits it. *)
Fixpoint validateLoop (cwd normalized targetPath : string) (roots : list string)
  : result string :=
  match roots with
  | [] => Throw (OutsideSandbox targetPath)
  | root :: rest =>
      if rootAdmits cwd normalized root then Ok normalized
      else validateLoop cwd normalized targetPath rest
  end.

Definition validatePathAccess (cwd targetPath : string) (allowedRoots : list string)
  : result string :=
  let normalized := normalize (resolve cwd [targetPath]) in
  validateLoop cwd normalized targetPath allowedRoots.

(** *** The specification's reading of "inside a root" *)

(** The normalized absolute form of a path. *)
Definition absoluteForm (cwd p : string) : string := normalize (resolve cwd [p]).

(** [r] is a proper prefix of [p], segment by segment. *)
Fixpoint properPrefix (r p : list string) : bool :=
  match r, p with
  | [], _ :: _ => true
  | x :: r', y :: p' => (x =? y)%string && properPrefix r' p'
  | _, _ => false
  end.

(** [p] lies strictly below the directory [root]: the segments of [root]
    are a proper prefix of those of [p], so ['/root2'] is not below
    ['/root']. *)
Definition descendantOf (root p : string) : bool :=
  properPrefix (segmentsOf root) (segmentsOf p).

Definition insideRoot (root p : string) : bool :=
  (p =? root)%string || descendantOf root p.

(** The normalized form of [p] equals a root or descends from one. *)
Definition insideSandbox (cwd p : string) (roots : list string) : bool :=
  existsb (fun root => insideRoot (absoluteForm cwd root) (absoluteForm cwd p)) roots.

End Sandbox.

(* ===================================================================== *)
(** ** MetadataCache: [LRUCache] (src/utils/cache.ts) *)
(* ===================================================================== *)

Module Cache.

Section WithValue.
Context {T : Type}.

Record CacheEntry : Type := mkEntry { value : T; expires : number }.

(** A JavaScript [Map] with string keys: its entries in insertion order.
    A key occurs at most once in a map built by [mapSet] and [mapDelete]. *)
Definition JsMap : Type := list (string * CacheEntry).

Definition mapGet (key : string) (m : JsMap) : option CacheEntry :=
  option_map snd (find (fun kv => (fst kv =? key)%string) m).

Definition mapHas (key : string) (m : JsMap) : bool :=
  existsb (fun kv => (fst kv =? key)%string) m.

Definition mapDelete (key : string) (m : JsMap) : JsMap :=
  filter (fun kv => negb (fst kv =? key)%string) m.

(** [Map.prototype.set]: an existing key keeps its place, a new key goes
    last. *)
Fixpoint mapSet (key : string) (e : CacheEntry) (m : JsMap) : JsMap :=
  match m with
  | [] => [(key, e)]
  | (k, v) :: rest =>
      if (k =? key)%string then (k, e) :: rest else (k, v) :: mapSet key e rest
  end.

Definition mapSize (m : JsMap) : number := Z.of_nat (List.length m).

(** [m.keys().next().value] *)
Definition firstKey (m : JsMap) : option string :=
  match m with
  | [] => None
  | (k, _) :: _ => Some k
  end.

Definition keys (m : JsMap) : list string := map fst m.

Record LRUCache : Type := mkCache {
  cache : JsMap;
  maxSize : number;
  ttl : number
}.

(** [new LRUCache(maxSize, ttl)] *)
Definition create (maxSize ttl : number) : LRUCache :=
  {| cache := []; maxSize := maxSize; ttl := ttl |}.

Definition withMap (c : LRUCache) (m : JsMap) : LRUCache :=
  {| cache := m; maxSize := maxSize c; ttl := ttl c |}.

(** [get(key)]; [now] is the value of [Date.now()] read by the call. *)
Definition get (c : LRUCache) (now : number) (key : string)
  : option T * LRUCache :=
  match mapGet key (cache c) with
  | None => (None, c)
  | Some entry =>
      if (now >? expires entry)%Z then (None, withMap c (mapDelete key (cache c)))
      else
        (* refresh LRU order *)
        let m := mapDelete key (cache c) in
        let m := mapSet key entry m in
        (Some (value entry), withMap c m)
  end.

(** The map right after [this.cache.set(key, entry)] in [set], before the
    size test. *)
Definition inserted (c : LRUCache) (now : number) (key : string) (v : T) : JsMap :=
  let entry := {| value := v; expires := (now + ttl c)%Z |} in
  let m := if mapHas key (cache c) then mapDelete key (cache c) else cache c in
  mapSet key entry m.

(** [set(key, value)] *)
Definition set (c : LRUCache) (now : number) (key : string) (v : T) : LRUCache :=
  let m := inserted c now key v in
  if (mapSize m >? maxSize c)%Z then
    match firstKey m with
    | Some k => withMap c (mapDelete k m)
    | None => withMap c m
    end
  else withMap c m.

(** [clear()] *)
Definition clear (c : LRUCache) : LRUCache := withMap c [].

(** *** Runs of the cache and the recency order *)

(** One call on the cache, with the clock value it reads. *)
Inductive op : Type :=
| OpGet (key : string) (now : number)
| OpSet (key : string) (v : T) (now : number).

Definition step (c : LRUCache) (o : op) : LRUCache :=
  match o with
  | OpGet key now => snd (get c now key)
  | OpSet key v now => set c now key v
  end.

(** The recency order of the specification: each key carries the number of
    the last call that used it, a use being any [set] of the key or a [get]
    of it that returned a value. *)
Record Recency : Type := mkRecency { calls : nat; lastUse : string -> nat }.

Definition touch (key : string) (r : Recency) : Recency :=
  {| calls := S (calls r);
     lastUse := fun k => if (k =? key)%string then calls r else lastUse r k |}.

Definition pass (r : Recency) : Recency :=
  {| calls := S (calls r); lastUse := lastUse r |}.

Definition observe (c : LRUCache) (r : Recency) (o : op) : Recency :=
  match o with
  | OpSet key _ _ => touch key r
  | OpGet key now =>
      match fst (get c now key) with
      | Some _ => touch key r
      | None => pass r
      end
  end.

Definition stepRec (s : LRUCache * Recency) (o : op) : LRUCache * Recency :=
  (step (fst s) o, observe (fst s) (snd s) o).

Definition run (maxSize ttl : number) (ops : list op) : LRUCache * Recency :=
  fold_left stepRec ops (create maxSize ttl, {| calls := 0; lastUse := fun _ => 0 |}).

(** [key] is least recently used among the keys of [m]. *)
Definition leastRecent (r : Recency) (key : string) (m : JsMap) : Prop :=
  forall k, In k (keys m) -> k <> key -> lastUse r key < lastUse r k.

(** The invariant of a run: keys are distinct and the map lists them from
    least to most recently used. *)
Definition ordered (r : Recency) (m : JsMap) : Prop :=
  NoDup (keys m)
  /\ StronglySorted (fun a b => lastUse r a < lastUse r b) (keys m)
  /\ Forall (fun k => lastUse r k < calls r) (keys m).

End WithValue.

Arguments CacheEntry T : clear implicits.
Arguments JsMap T : clear implicits.
Arguments LRUCache T : clear implicits.
Arguments op T : clear implicits.

End Cache.

(* ===================================================================== *)
(** ** The host: filesystem, clock, and the libraries the code calls *)
(* ===================================================================== *)

(** [interface FileInfo] (src/types/index.ts) *)
Record FileInfo : Type := mkFileInfo {
  path : string;
  name : string;
  size : number;
  modified : string;
  isDirectory : bool;
  extension : option string
}.

(** What [fs.stat] reports of an entry, as far as the code reads it;
    [mtimeISO] is [stats.mtime.toISOString()]. *)
Record Stats : Type := mkStats {
  statSize : number;
  mtimeISO : string;
  statIsDirectory : bool;
  statIsFile : bool
}.

(** [node:fs] promises, as functions of the path: the filesystem is taken
    to stand still during one call of the tools. *)
Record FileSystem : Type := mkFileSystem {
  fsReaddir : string -> result (list string);
  fsStat : string -> result Stats;
  fsReadFile : string -> string -> result string;
  fsAccess : string -> result unit
}.

(** The collaborators outside the repository: the filesystem, the working
    directory, the regular-expression engine of [new RegExp(source, 'i')
    .test(s)], [String.prototype.localeCompare], and the third-party
    [ignore] package ([ignoreTest rules p] is [ignore().add(rules).ignores(p)]). *)
Record Host : Type := mkHost {
  fs : FileSystem;
  cwd : string;
  regexpTest : string -> string -> result bool;
  localeCompare : string -> string -> number;
  ignoreTest : list string -> string -> bool
}.

(** What a call does to the outside, in order. *)
Inductive Event : Type :=
| EvReaddir (p : string)
| EvStat (p : string)
| EvReadFile (p : string)
| EvAccess (p : string)
| EvWarn (msg : string).

(** The process state: the module-level [metadataCache], the clock read by
    [Date.now()], and the trace of filesystem calls and warnings so far. *)
Record World : Type := mkWorld {
  metadataCache : Cache.LRUCache FileInfo;
  now : number;
  trace : list Event
}.

Definition emit (ev : Event) (w : World) : World :=
  {| metadataCache := metadataCache w; now := now w; trace := trace w ++ [ev] |}.

Definition withCache (c : Cache.LRUCache FileInfo) (w : World) : World :=
  {| metadataCache := c; now := now w; trace := trace w |}.

(** A computation that may throw and that changes the process state; what
    it did before throwing stays done. *)
Definition M (A : Type) : Type := World -> result A * World.

Definition ret {A : Type} (a : A) : M A := fun w => (Ok a, w).

Definition throw {A : Type} (e : Error) : M A := fun w => (Throw e, w).

Definition bind {A B : Type} (m : M A) (k : A -> M B) : M B :=
  fun w =>
    match m w with
    | (Ok a, w') => k a w'
    | (Throw e, w') => (Throw e, w')
    end.

(** [try { m } catch (error) { handler(error.message) }] *)
Definition tryCatch {A : Type} (m : M A) (handler : Error -> M A) : M A :=
  fun w =>
    match m w with
    | (Ok a, w') => (Ok a, w')
    | (Throw e, w') => handler e w'
    end.

Declare Scope js_scope.
Delimit Scope js_scope with js.
Notation "x <- m ;; k" := (bind m (fun x => k))
  (at level 61, m at next level, right associativity) : js_scope.
Notation "m ;;; k" := (bind m (fun _ => k))
  (at level 61, right associativity) : js_scope.
Open Scope js_scope.

Definition liftResult {A : Type} (r : result A) : M A := fun w => (r, w).

(** The filesystem calls, each leaving its event in the trace. *)
Definition readdir (h : Host) (p : string) : M (list string) :=
  fun w => (fsReaddir (fs h) p, emit (EvReaddir p) w).

Definition stat (h : Host) (p : string) : M Stats :=
  fun w => (fsStat (fs h) p, emit (EvStat p) w).

Definition readFile (h : Host) (p encoding : string) : M string :=
  fun w => (fsReadFile (fs h) p encoding, emit (EvReadFile p) w).

Definition access (h : Host) (p : string) : M unit :=
  fun w => (fsAccess (fs h) p, emit (EvAccess p) w).

(** [console.warn(msg)] *)
Definition warn (msg : string) : M unit := fun w => (Ok tt, emit (EvWarn msg) w).

(** The number of reads, in a trace, of the files that [f] selects. *)
Definition countReads (f : string -> bool) (t : list Event) : nat :=
  List.length (filter (fun ev => match ev with
                                 | EvReadFile q => f q
                                 | _ => false
                                 end) t).

(** The number of reads of the file [p] in a trace. *)
Definition readsOf (p : string) (t : list Event) : nat :=
  countReads (String.eqb p) t.

(** The number of file reads, of any file, in a trace. *)
Definition contentReads (t : list Event) : nat :=
  countReads (fun _ => true) t.

(* ===================================================================== *)
(** ** File metadata: [pathExists], [getFileInfo] (src/utils/filesystem.ts) *)
(* ===================================================================== *)

Module Metadata.
Import JsString Path.

(** [path.basename(p)]: the last segment. *)
Definition basename (p : string) : string :=
  last (segmentsOf p) "".

Fixpoint lastDot (s : string) (i : nat) (found : option nat) : option nat :=
  match s with
  | EmptyString => found
  | String c r =>
      lastDot r (S i) (if Ascii.eqb c "."%char then Some i else found)
  end.

(** [path.extname(p)]: from the last ['.'] of the basename, empty when the
    basename has none, starts with its only one, or is ['..']. *)
Definition extname (p : string) : string :=
  let b := basename p in
  if (b =? "..")%string then "" else
  match lastDot b 0 None with
  | None | Some 0 => ""
  | Some i => substring i (String.length b - i) b
  end.

Definition pathExists (h : Host) (p : string) : M bool :=
  tryCatch (access h p ;;; ret true) (fun _ => ret false).

Definition cacheGet (key : string) : M (option FileInfo) :=
  fun w =>
    let '(v, c) := Cache.get (metadataCache w) (now w) key in
    (Ok v, withCache c w).

Definition cacheSet (key : string) (info : FileInfo) : M unit :=
  fun w => (Ok tt, withCache (Cache.set (metadataCache w) (now w) key info) w).

Definition getFileInfo (h : Host) (p : string) : M FileInfo :=
  cached <- cacheGet p ;;
  match cached with
  | Some info => ret info
  | None =>
      tryCatch
        (stats <- stat h p ;;
         let fileName := basename p in
         let fileExt :=
           if statIsFile stats then Some (substring 1 (String.length (extname p)) (extname p))
           else None in
         let info := {| path := p;
                        name := fileName;
                        size := statSize stats;
                        modified := mtimeISO stats;
                        isDirectory := statIsDirectory stats;
                        extension := fileExt |} in
         cacheSet p info ;;;
         ret info)
        (fun e => throw ("Failed to get info for '" +++ p +++ "': " +++ e))
  end.

(** [clearFileInfoCache()] *)
Definition clearFileInfoCache : M unit :=
  fun w => (Ok tt, withCache (Cache.clear (metadataCache w)) w).

End Metadata.

(* ===================================================================== *)
(** ** JavaScript arrays and values *)
(* ===================================================================== *)

Module JsArray.

(** The clamping of one index of [Array.prototype.slice]: a negative index
    counts from the end. *)
Definition relativeIndex (len i : number) : number :=
  if (i <? 0)%Z then Z.max (len + i) 0 else Z.min i len.

(** [l.slice(start, end)] for integral arguments. *)
Definition slice {A : Type} (l : list A) (start stop : number) : list A :=
  let len := Z.of_nat (List.length l) in
  let k := relativeIndex len start in
  let final := relativeIndex len stop in
  firstn (Z.to_nat (final - k)) (skipn (Z.to_nat k) l).

(** [l.map((x, index) => f(x, index))], counting from [i]. *)
Fixpoint mapi {A B : Type} (f : A -> nat -> B) (i : nat) (l : list A) : list B :=
  match l with
  | [] => []
  | x :: r => f x i :: mapi f (S i) r
  end.

(** The elements whose 0-based index [i] satisfies [lo <= i < hi]. *)
Fixpoint between {A : Type} (lo hi : nat) (i : nat) (l : list A) : list A :=
  match l with
  | [] => []
  | x :: r =>
      if (lo <=? i)%nat && (i <? hi)%nat then x :: between lo hi (S i) r
      else between lo hi (S i) r
  end.

End JsArray.

(** A value of type [unknown], as a tool receives its input. *)
#[warnings="-register-all"]
Inductive JsValue : Type :=
| JsUndefined
| JsNull
| JsBool (b : bool)
| JsNumber (n : number)
| JsStr (s : string)
| JsArr (items : list JsValue)
| JsObj (fields : list (string * JsValue)).

Module Js.

(** [params.key] for [params = input as Record<string, unknown>]: reading a
    property of [undefined] or [null] throws, a missing property is
    [undefined]. *)
Definition prop (input : JsValue) (key : string) : result JsValue :=
  match input with
  | JsUndefined | JsNull =>
      Throw ("Cannot read properties of undefined (reading '" +++ key +++ "')")
  | JsObj fields =>
      match find (fun kv => (fst kv =? key)%string) fields with
      | Some kv => Ok (snd kv)
      | None => Ok JsUndefined
      end
  | _ => Ok JsUndefined
  end.

(** [x || d] on an optional number: [undefined] and [0] are falsy. *)
Definition orElse (x : option number) (d : number) : number :=
  match x with
  | Some n => if (n =? 0)%Z then d else n
  | None => d
  end.

Definition truthy (x : option number) : bool :=
  match x with
  | Some n => negb (n =? 0)%Z
  | None => false
  end.

End Js.

(* ===================================================================== *)
(** ** RangeReader: [readFileContent] (src/utils/filesystem.ts) *)
(* ===================================================================== *)

Module RangeReader.
Import JsString JsArray.

Definition LF : ascii := ascii_of_nat 10.

(** The part of [readFileContent] after the file is read. *)
Definition selectLines (content : string) (startLine endLine : option number)
  : string :=
  match startLine, endLine with
  | None, None => content
  | _, _ =>
      let lines := split LF content in
      let start := Z.max 0 (match startLine with Some s => s | None => 1 end - 1) in
      let stop := Z.min (Z.of_nat (List.length lines))
                        (match endLine with
                         | Some e => e
                         | None => Z.of_nat (List.length lines)
                         end) in
      join (chr LF) (slice lines start stop)
  end.

Definition ReadFailure (filePath cause : string) : Error :=
  "Failed to read file '" +++ filePath +++ "': " +++ cause.

Definition readFileContent (h : Host) (filePath : string)
    (startLine endLine : option number) (encoding : string) : M string :=
  tryCatch
    (content <- readFile h filePath encoding ;;
     ret (selectLines content startLine endLine))
    (fun e => throw (ReadFailure filePath e)).

(** *** The specification's reading of a line range *)

(** The lines of [content] whose 0-based index lies in [[start, stop)],
    glued by the line separator. *)
Definition linesFromTo (content : string) (start stop : nat) : string :=
  join (chr LF) (between start stop 0 (split LF content)).

End RangeReader.

(* ===================================================================== *)
(** ** DirectoryWalker: [listFiles], [walkDirectory], [matchesPattern],
       [getDirectoryTree] (src/utils/filesystem.ts) *)
(* ===================================================================== *)

Module Walker.
Import JsString Path Metadata.

(** [s.replace(/c/g, by)] for a one-character pattern. *)
Fixpoint replaceAll (c : ascii) (by_ : string) (s : string) : string :=
  match s with
  | EmptyString => EmptyString
  | String a r =>
      if Ascii.eqb a c then by_ +++ replaceAll c by_ r
      else String a (replaceAll c by_ r)
  end.

(** The source of the regular expression that [matchesPattern] builds. *)
Definition patternSource (pattern : string) : string :=
  replaceAll "?" "." (replaceAll "*" ".*" (replaceAll "." "\." pattern)).

(** [matchesPattern(fileName, pattern)]; a malformed source makes
    [new RegExp] throw. *)
Definition matchesPattern (h : Host) (fileName pattern : string) : result bool :=
  regexpTest h (patternSource pattern) fileName.

(** The compiled matcher of the [ignore] package: the rule texts added. *)
Record Ignore : Type := mkIgnore { rules : list string }.

Definition ignores (h : Host) (ig : Ignore) (relPath : string) : bool :=
  ignoreTest h (rules ig) relPath.

Definition ignoreFile (rootPath : string) : string :=
  pathJoin [rootPath; ".gitignore"].

Definition loadIgnoreMatcher (h : Host) (rootPath : string) : M Ignore :=
  tryCatch
    (content <- readFile h (ignoreFile rootPath) "utf-8" ;;
     ret {| rules := [content] |})
    (fun _ => ret {| rules := [] |}).

(** [interface ListFilesOptions] (src/types/index.ts) *)
Record ListFilesOptions : Type := mkListFilesOptions {
  pattern : option string;
  recursive : option bool;
  maxDepth : option number;
  includeHidden : option bool
}.

Definition noOptions : ListFilesOptions :=
  {| pattern := None; recursive := None; maxDepth := None; includeHidden := None |}.

(** The comparator of both sorts: directories first, then by name. *)
Definition compareEntries (h : Host) (a b : FileInfo) : number :=
  if isDirectory a && negb (isDirectory b) then (-1)%Z
  else if negb (isDirectory a) && isDirectory b then 1%Z
  else localeCompare h (name a) (name b).

(** [Array.prototype.sort(cmp)], which is stable: an element goes before
    the first later one that it does not follow. *)
Fixpoint insertBy {A : Type} (cmp : A -> A -> number) (x : A) (l : list A) : list A :=
  match l with
  | [] => [x]
  | y :: r => if (cmp x y <=? 0)%Z then x :: y :: r else y :: insertBy cmp x r
  end.

Definition sortBy {A : Type} (cmp : A -> A -> number) (l : list A) : list A :=
  fold_right (insertBy cmp) [] l.

Section Walk.
Variable h : Host.
Variables (maxDepth_ : number) (recursive_ includeHidden_ : bool).
Variable pattern_ : option string.
Variable matcher : Ignore.
Variable basePath : string.

(** What one run of the loop body of [walkDirectory] leaves: the [results]
    array as it stands and the process state, with the error if the body
    threw. *)
Definition WalkOutcome : Type := (result unit * list FileInfo * World)%type.

(** [pattern && !matchesPattern(fileInfo.name, pattern)]: the empty pattern
    is falsy. *)
Definition filteredOut (fileName : string) : result bool :=
  match pattern_ with
  | None => Ok false
  | Some p =>
      if (p =? "")%string then Ok false
      else match matchesPattern h fileName p with
           | Ok b => Ok (negb b)
           | Throw e => Throw e
           end
  end.

(** The [for] loop of [walkDirectory] over the entries of [dirPath];
    [walk] is the recursive call. *)
Fixpoint walkEntries
    (walk : string -> list FileInfo -> number -> World -> list FileInfo * World)
    (dirPath : string) (currentDepth : number)
    (entries : list string) (results : list FileInfo) (w : World) : WalkOutcome :=
  match entries with
  | [] => (Ok tt, results, w)
  | entry :: rest =>
      if negb includeHidden_ && startsWith entry "."
      then walkEntries walk dirPath currentDepth rest results w
      else
        let fullPath := pathJoin [dirPath; entry] in
        let relPath := relative (cwd h) basePath fullPath in
        if ignores h matcher relPath
        then walkEntries walk dirPath currentDepth rest results w
        else
          match getFileInfo h fullPath w with
          | (Throw e, w') => (Throw e, results, w')
          | (Ok fileInfo, w') =>
              if isDirectory fileInfo then
                (* directories are always included and traversed *)
                let results := results ++ [fileInfo] in
                if recursive_ then
                  let '(results, w'') :=
                    walk fullPath results (currentDepth + 1)%Z w' in
                  walkEntries walk dirPath currentDepth rest results w''
                else walkEntries walk dirPath currentDepth rest results w'
              else
                match filteredOut (name fileInfo) with
                | Throw e => (Throw e, results, w')
                | Ok true => walkEntries walk dirPath currentDepth rest results w'
                | Ok false =>
                    walkEntries walk dirPath currentDepth rest
                                (results ++ [fileInfo]) w'
                end
          end
  end.

Definition walkFailed (dirPath : string) (e : Error) : Event :=
  EvWarn ("Failed to read directory '" +++ dirPath +++ "': " +++ e).

(** [walkDirectory]: [fuel] bounds the nesting of calls; a call made with
    [currentDepth <= maxDepth] needs [maxDepth - currentDepth + 1] of it. *)
Fixpoint walkDirectory (fuel : nat) (dirPath : string) (results : list FileInfo)
    (currentDepth : number) (w : World) : list FileInfo * World :=
  if (currentDepth >? maxDepth_)%Z then (results, w) else
  match fuel with
  | O => (results, w)
  | S fuel' =>
      match readdir h dirPath w with
      | (Throw e, w1) => (results, emit (walkFailed dirPath e) w1)
      | (Ok entries, w1) =>
          match walkEntries (walkDirectory fuel') dirPath currentDepth
                            entries results w1 with
          | (Ok _, results, w2) => (results, w2)
          | (Throw e, results, w2) => (results, emit (walkFailed dirPath e) w2)
          end
      end
  end.

End Walk.

Definition orDefault {A : Type} (x : option A) (d : A) : A :=
  match x with Some a => a | None => d end.

(** The fuel that covers a walk from depth 0 down to [maxDepth]. *)
Definition walkFuel (maxDepth : number) : nat := Z.to_nat (maxDepth + 1).

(** [listFiles(rootPath, options)] *)
Definition listFiles (h : Host) (rootPath : string) (options : ListFilesOptions)
  : M (list FileInfo) :=
  let recursive := orDefault (recursive options) true in
  let maxDepth := orDefault (maxDepth options) 10%Z in
  let includeHidden := orDefault (includeHidden options) false in
  let pattern := pattern options in
  matcher <- loadIgnoreMatcher h rootPath ;;
  fun w =>
    let '(results, w') :=
      walkDirectory h maxDepth recursive includeHidden pattern matcher rootPath
                    (walkFuel maxDepth) rootPath [] 0%Z w in
    (Ok (sortBy (compareEntries h) results), w').

(** [interface DirTreeNode extends FileInfo { children?: DirTreeNode[] }] *)
#[warnings="-register-all"]
Inductive DirTreeNode : Type :=
| TreeNode (info : FileInfo) (children : option (list DirTreeNode)).

Definition nodeInfo (n : DirTreeNode) : FileInfo :=
  match n with TreeNode info _ => info end.

Definition nodeChildren (n : DirTreeNode) : option (list DirTreeNode) :=
  match n with TreeNode _ children => children end.

Section Tree.
Variable h : Host.
Variables (maxDepth_ : number) (includeHidden_ : bool).
Variable basePath : string.

(** The [for] loop of [getDirectoryTree] over the entries of [rootPath];
    [subtree] is the recursive call. *)
Fixpoint treeChildren (subtree : string -> M DirTreeNode) (ignoreMatcher : Ignore)
    (rootPath : string) (entries : list string) (children : list DirTreeNode)
  : M (list DirTreeNode) :=
  match entries with
  | [] => ret children
  | entry :: rest =>
      if negb includeHidden_ && startsWith entry "."
      then treeChildren subtree ignoreMatcher rootPath rest children
      else
        let fullPath := pathJoin [rootPath; entry] in
        let relPath := relative (cwd h) basePath fullPath in
        if ignores h ignoreMatcher relPath
        then treeChildren subtree ignoreMatcher rootPath rest children
        else
          child <- subtree fullPath ;;
          treeChildren subtree ignoreMatcher rootPath rest (children ++ [child])
  end.

Definition compareNodes (a b : DirTreeNode) : number :=
  compareEntries h (nodeInfo a) (nodeInfo b).

(** [getDirectoryTree]: [fuel] bounds the nesting of calls; a call made with
    [currentDepth < maxDepth] needs [maxDepth - currentDepth] of it. *)
Fixpoint getDirectoryTree (fuel : nat) (rootPath : string) (currentDepth : number)
    (matcher : option Ignore) : M DirTreeNode :=
  ignoreMatcher <- match matcher with
                   | Some ig => ret ig
                   | None => loadIgnoreMatcher h basePath
                   end ;;
  info <- getFileInfo h rootPath ;;
  if negb (isDirectory info) || (currentDepth >=? maxDepth_)%Z
  then ret (TreeNode info None)
  else
    match fuel with
    | O => ret (TreeNode info None)
    | S fuel' =>
        tryCatch
          (entries <- readdir h rootPath ;;
           children <- treeChildren
                         (fun fullPath =>
                            getDirectoryTree fuel' fullPath (currentDepth + 1)%Z
                                             (Some ignoreMatcher))
                         ignoreMatcher rootPath entries [] ;;
           ret (TreeNode info (Some (sortBy compareNodes children))))
          (fun e => throw ("Failed to read directory '" +++ rootPath +++ "': " +++ e))
    end.

End Tree.

Definition treeFuel (maxDepth : number) : nat := Z.to_nat maxDepth.

(** [getDirectoryTree(rootPath, options)] as the tools call it: depth 0, no
    matcher yet, [basePath = rootPath]. *)
Definition directoryTree (h : Host) (rootPath : string)
    (maxDepth : option number) (includeHidden : option bool) : M DirTreeNode :=
  let maxDepth := orDefault maxDepth 10%Z in
  let includeHidden := orDefault includeHidden false in
  getDirectoryTree h maxDepth includeHidden rootPath (treeFuel maxDepth)
                   rootPath 0%Z None.

(** The matcher that the ignore file of [rootPath] compiles to. *)
Definition rootMatcher (h : Host) (rootPath : string) : Ignore :=
  match fsReadFile (fs h) (ignoreFile rootPath) "utf-8" with
  | Ok content => {| rules := [content] |}
  | Throw _ => {| rules := [] |}
  end.

(** Every node of a tree, the root included. *)
Fixpoint treeNodes (n : DirTreeNode) : list FileInfo :=
  match n with
  | TreeNode info None => [info]
  | TreeNode info (Some children) =>
      info :: flat_map treeNodes children
  end.

(** *** What the walker relies on, and what it visits *)

(** A directory listing names entries: no name is empty, ['.'] or ['..'],
    or contains a separator. *)
Definition fsNamesOk (h : Host) : Prop :=
  forall p names,
    fsReaddir (fs h) p = Ok names -> Forall (fun n => segOk n = true) names.

(** Every cached [FileInfo] was stored under its own path, as
    [getFileInfo] does. *)
Definition cacheSound (w : World) : Prop :=
  forall k e, In (k, e) (Cache.cache (metadataCache w)) -> path (Cache.value e) = k.

(** No directory on the way from the root down to [rel], and not [rel]
    itself, is matched by the ignore rules: the relative paths
    [rel[0]], [rel[0]/rel[1]], ... are all clear of them. *)
Definition notIgnoredAlong (h : Host) (ig : Ignore) (rel : list string) : bool :=
  forallb (fun j => negb (ignores h ig (join "/" (firstn j rel))))
          (seq 1 (List.length rel)).

(** [info] is an entry strictly below the root of segments [rootSegs] that
    no ignore rule cuts off. *)
Definition visited (h : Host) (ig : Ignore) (rootSegs : list string)
    (info : FileInfo) : Prop :=
  exists rel,
    rel <> []
    /\ Forall (fun n => segOk n = true) rel
    /\ path info = canon (rootSegs ++ rel)
    /\ notIgnoredAlong h ig rel = true.

(** The state of a walk is good: the results gathered so far are all
    visited entries and the cache is sound. *)
Definition walkGood (h : Host) (ig : Ignore) (rootSegs : list string)
    (results : list FileInfo) (w : World) : Prop :=
  Forall (visited h ig rootSegs) results /\ cacheSound w.

(** What a call that builds a subtree owes: a sound cache, and a tree made
    of visited entries only. *)
Definition treeGood (h : Host) (ig : Ignore) (rootSegs : list string)
    (out : result DirTreeNode * World) : Prop :=
  cacheSound (snd out)
  /\ forall node, fst out = Ok node -> Forall (visited h ig rootSegs) (treeNodes node).

End Walker.

(* ===================================================================== *)
(** ** TextSearchEngine: [searchInFiles], [searchInDirectory],
       [searchInFile], [escapeRegExp] (src/utils/filesystem.ts) *)
(* ===================================================================== *)

Module Search.
Import JsString JsArray Path.

(** [interface SearchResult] (src/types/index.ts) *)
Record SearchResult : Type := mkSearchResult {
  file : string;
  line : number;
  content : string;
  contextBefore : list string;
  contextAfter : list string
}.

(** The characters of the class [[.*+?^${}()|[\]\\]]. *)
Definition isSpecial (c : ascii) : bool :=
  existsb (Ascii.eqb c)
    ["."; "*"; "+"; "?"; "^"; "$"; "{"; "}"; "("; ")"; "|"; "["; "]"; "\"]%char.

(** [escapeRegExp(string)]: a backslash before each special character. *)
Fixpoint escapeRegExp (s : string) : string :=
  match s with
  | EmptyString => EmptyString
  | String c r =>
      if isSpecial c then String "\" (String c (escapeRegExp r))
      else String c (escapeRegExp r)
  end.

(** The regular expressions that [searchInFile] can build: characters to be
    matched as they are, and the word-boundary assertion [\b]. *)
Inductive Token : Type :=
| Chr (c : ascii)
| WordBoundary.

(** Reading of a source made of plain characters, escaped characters and
    [\b]; [escapeRegExp] produces no other. *)
Fixpoint parseSource (src : string) : list Token :=
  match src with
  | EmptyString => []
  | String "\" (String c r) =>
      (if Ascii.eqb c "b" then WordBoundary else Chr c) :: parseSource r
  | String c r => Chr c :: parseSource r
  end.

(** A compiled [RegExp] with the [g] flag: its tokens, the [i] flag, and
    the [lastIndex] it keeps between calls. *)
Record RegExp : Type := mkRegExp {
  tokens : list Token;
  ignoreCase : bool;
  lastIndex : nat
}.

(** [new RegExp(pattern, flags)] with [flags] either ['g'] or ['gi']. *)
Definition newRegExp (pattern : string) (ignoreCase : bool) : RegExp :=
  {| tokens := parseSource pattern; ignoreCase := ignoreCase; lastIndex := 0 |}.

(** The class [\w]. *)
Definition isWordChar (c : option ascii) : bool :=
  match c with
  | None => false
  | Some c => inRange 48 57 c || inRange 65 90 c || inRange 97 122 c
              || Ascii.eqb c "_"
  end.

Definition headChar (s : string) : option ascii :=
  match s with
  | EmptyString => None
  | String c _ => Some c
  end.

(** A match of the tokens at the start of [rest], [prev] being the
    character before it: the number of characters consumed. *)
Fixpoint matchHere (ic : bool) (toks : list Token) (prev : option ascii)
    (rest : string) : option nat :=
  match toks with
  | [] => Some 0
  | Chr c :: toks' =>
      match rest with
      | String a r =>
          if sameChar ic a c then option_map S (matchHere ic toks' (Some a) r)
          else None
      | EmptyString => None
      end
  | WordBoundary :: toks' =>
      if xorb (isWordChar prev) (isWordChar (headChar rest))
      then matchHere ic toks' prev rest
      else None
  end.

(** The first match that starts at index [lastIndex] or later: where it
    starts and where it ends.  [i] is the index of [rest] in the string. *)
Fixpoint searchFrom (ic : bool) (toks : list Token) (lastIndex i : nat)
    (prev : option ascii) (rest : string) : option (nat * nat) :=
  match (if (lastIndex <=? i)%nat then matchHere ic toks prev rest else None) with
  | Some n => Some (i, i + n)
  | None =>
      match rest with
      | EmptyString => None
      | String a r => searchFrom ic toks lastIndex (S i) (Some a) r
      end
  end.

(** [regex.test(s)] for a global expression: the search starts at
    [lastIndex]; a match leaves [lastIndex] at its end, a failure resets it
    to 0. *)
Definition test (re : RegExp) (s : string) : bool * RegExp :=
  match searchFrom (ignoreCase re) (tokens re) (lastIndex re) 0 None s with
  | Some (_, e) =>
      (true, {| tokens := tokens re; ignoreCase := ignoreCase re; lastIndex := e |})
  | None =>
      (false, {| tokens := tokens re; ignoreCase := ignoreCase re; lastIndex := 0 |})
  end.

(** The expression as it is right after compilation. *)
Definition fresh (re : RegExp) : RegExp :=
  {| tokens := tokens re; ignoreCase := ignoreCase re; lastIndex := 0 |}.

(** The loop of [searchInFile] from line index [i] on. *)
Fixpoint scanLines (filePath : string) (lines : list string) (contextLines : number)
    (todo : list string) (i : nat) (regex : RegExp) (results : list SearchResult)
  : list SearchResult :=
  match todo with
  | [] => results
  | current :: rest =>
      let '(found, regex) := test regex current in
      let results :=
        if found then
          let before := slice lines (Z.max 0 (Z.of_nat i - contextLines)) (Z.of_nat i) in
          let after := slice lines (Z.of_nat i + 1) (Z.of_nat i + 1 + contextLines) in
          results ++ [{| file := filePath;
                         line := Z.of_nat i + 1;
                         content := current;
                         contextBefore := before;
                         contextAfter := after |}]
        else results in
      scanLines filePath lines contextLines rest (S i) regex results
  end.

(** The part of [searchInFile] after the file is read. *)
Definition searchInContent (filePath content query : string)
    (caseSensitive wholeWord : bool) (contextLines : number)
    (results : list SearchResult) : list SearchResult :=
  let lines := split RangeReader.LF content in
  let pattern := if wholeWord then "\b" +++ escapeRegExp query +++ "\b"
                 else escapeRegExp query in
  let regex := newRegExp pattern (negb caseSensitive) in
  scanLines filePath lines contextLines lines 0 regex results.

Definition searchInFile (h : Host) (filePath query : string)
    (caseSensitive wholeWord : bool) (contextLines : number)
    (results : list SearchResult) : M (list SearchResult) :=
  content <- readFile h filePath "utf-8" ;;
  ret (searchInContent filePath content query caseSensitive wholeWord
                       contextLines results).

(** The loop of [searchInDirectory] over the listed files. *)
Fixpoint searchFiles (h : Host) (files : list FileInfo) (query : string)
    (caseSensitive wholeWord : bool) (contextLines : number)
    (results : list SearchResult) : M (list SearchResult) :=
  match files with
  | [] => ret results
  | f :: rest =>
      if isDirectory f
      then searchFiles h rest query caseSensitive wholeWord contextLines results
      else
        results <- tryCatch
                     (searchInFile h (path f) query caseSensitive wholeWord
                                   contextLines results)
                     (fun e =>
                        warn ("Failed to search in file '" +++ path f +++ "': " +++ e) ;;;
                        ret results) ;;
        searchFiles h rest query caseSensitive wholeWord contextLines results
  end.

Definition searchInDirectory (h : Host) (dirPath query : string)
    (caseSensitive wholeWord : bool) (contextLines : number)
    (filePattern : option string) (maxDepth : option number)
    (results : list SearchResult) : M (list SearchResult) :=
  tryCatch
    (files <- Walker.listFiles h dirPath
                {| Walker.pattern := filePattern; Walker.recursive := None;
                   Walker.maxDepth := maxDepth; Walker.includeHidden := None |} ;;
     searchFiles h files query caseSensitive wholeWord contextLines results)
    (fun e =>
       warn ("Failed to search in directory '" +++ dirPath +++ "': " +++ e) ;;;
       ret results).

(** [interface SearchFilesOptions] (src/types/index.ts) *)
Record SearchFilesOptions : Type := mkSearchFilesOptions {
  query : string;
  filePattern : option string;
  caseSensitive : option bool;
  wholeWord : option bool;
  contextLines : option number;
  maxDepth : option number
}.

Fixpoint searchRoots (h : Host) (rootPaths : list string) (o : SearchFilesOptions)
    (results : list SearchResult) : M (list SearchResult) :=
  match rootPaths with
  | [] => ret results
  | rootPath :: rest =>
      results <- searchInDirectory h rootPath (query o)
                   (Walker.orDefault (caseSensitive o) false)
                   (Walker.orDefault (wholeWord o) false)
                   (Walker.orDefault (contextLines o) 2%Z)
                   (filePattern o) (maxDepth o) results ;;
      searchRoots h rest o results
  end.

(** [searchInFiles(rootPaths, options)] *)
Definition searchInFiles (h : Host) (rootPaths : list string)
    (options : SearchFilesOptions) : M (list SearchResult) :=
  searchRoots h rootPaths options [].

(** *** The specification's reading of a matching line *)

(** The line matches the compiled pattern: a freshly compiled expression
    finds the query somewhere in it. *)
Definition lineMatches (query : string) (caseSensitive wholeWord : bool)
    (text : string) : bool :=
  let pattern := if wholeWord then "\b" +++ escapeRegExp query +++ "\b"
                 else escapeRegExp query in
  fst (test (newRegExp pattern (negb caseSensitive)) text).

(** The 1-based numbers of the lines of [content] that match. *)
Definition matchingLines (query : string) (caseSensitive wholeWord : bool)
    (content : string) : list number :=
  map (fun p => Z.of_nat (fst p) + 1)%Z
      (filter (fun p => lineMatches query caseSensitive wholeWord (snd p))
              (combine (seq 0 (List.length (split RangeReader.LF content)))
                       (split RangeReader.LF content))).

End Search.

(* ===================================================================== *)
(** ** The read tool: [parseInput], [resolveFilePath], [readSingleFile],
       [readFiles.handler] (src/tools/readFiles.ts) *)
(* ===================================================================== *)

Module ReadFiles.
Import JsString Path Metadata.

(** [interface ReadFilesInput], after the defaults are filled in. *)
Record ReadFilesInput : Type := mkReadFilesInput {
  paths : list string;
  startLine : option number;
  endLine : option number;
  encoding : string;
  showLineNumbers : bool;
  maxFileSize : number
}.

Definition dq : string := String (ascii_of_nat 34) "".

Definition MissingPaths : Error :=
  "Either " +++ dq +++ "path" +++ dq +++ " or " +++ dq +++ "paths" +++ dq
  +++ " parameter is required".
Definition NoPaths : Error := "At least one file path is required".
Definition TooManyPaths : Error := "Maximum of 10 files can be read at once".
Definition InvalidRange : Error := "Start line cannot be greater than end line".
Definition IsADirectory (filePath : string) : Error :=
  "Cannot read directory: " +++ filePath.
Definition TooLarge (actual maximum : number) : Error :=
  "File too large: " +++ showNumber actual +++ " bytes (max: "
  +++ showNumber maximum +++ " bytes)".
Definition NotFound (filePath : string) (rootPaths : list string) : Error :=
  "Path '" +++ filePath +++ "' not found within allowed roots. "
  +++ "Provide an absolute path or a path relative to one of: "
  +++ join ", " rootPaths.

Definition validEncodings : list string :=
  ["ascii"; "utf8"; "utf-8"; "utf16le"; "ucs2"; "ucs-2"; "base64"; "latin1";
   "binary"; "hex"].

Definition isValidEncoding (v : JsValue) : bool :=
  match v with
  | JsStr s => existsb (String.eqb s) validEncodings
  | _ => false
  end.

Definition onlyStrings (items : list JsValue) : list string :=
  flat_map (fun v => match v with JsStr s => [s] | _ => [] end) items.

(** The first block of [parseInput]: the path list the input resolves to. *)
Definition resolvePaths (input : JsValue) : result (list string) :=
  match Js.prop input "path" with
  | Throw e => Throw e
  | Ok (JsStr p) => Ok [p]
  | Ok _ =>
      match Js.prop input "paths" with
      | Throw e => Throw e
      | Ok (JsArr items) => Ok (onlyStrings items)
      | Ok (JsStr p) => Ok [p]
      | Ok _ => Throw MissingPaths
      end
  end.

Definition numberProp (input : JsValue) (key : string) : option number :=
  match Js.prop input key with
  | Ok (JsNumber n) => Some n
  | _ => None
  end.

Definition parseInput (input : JsValue) : result ReadFilesInput :=
  match resolvePaths input with
  | Throw e => Throw e
  | Ok paths =>
      if (List.length paths =? 0)%nat then Throw NoPaths
      else if (10 <? List.length paths)%nat then Throw TooManyPaths
      else
        Ok {| paths := paths;
              startLine := option_map (Z.max 1) (numberProp input "startLine");
              endLine := option_map (Z.max 1) (numberProp input "endLine");
              encoding :=
                match Js.prop input "encoding" with
                | Ok (JsStr s) => if isValidEncoding (JsStr s) then s else "utf-8"
                | _ => "utf-8"
                end;
              showLineNumbers :=
                match Js.prop input "showLineNumbers" with
                | Ok (JsBool b) => b
                | _ => true
                end;
              maxFileSize :=
                match numberProp input "maxFileSize" with
                | Some n => Z.max 1024 n
                | None => (1024 * 1024)%Z
                end |}
  end.

(** [addLineNumbers(content, startLine)] *)
Definition addLineNumbers (content : string) (startLine : number) : string :=
  join (chr RangeReader.LF)
    (JsArray.mapi (fun line index => showNumber (startLine + Z.of_nat index) +++ "| " +++ line)
                  0 (split RangeReader.LF content)).

(** The loop of [resolveFilePath] over the roots, for a relative path. *)
Fixpoint resolveAgainst (h : Host) (filePath : string) (allRoots roots : list string)
  : M string :=
  match roots with
  | [] => throw (NotFound filePath allRoots)
  | root :: rest =>
      let candidate := normalize (resolve (cwd h) [root; filePath]) in
      match Sandbox.validatePathAccess (cwd h) candidate [root] with
      | Throw _ => resolveAgainst h filePath allRoots rest
      | Ok withinRoot =>
          found <- pathExists h withinRoot ;;
          if found then ret withinRoot
          else resolveAgainst h filePath allRoots rest
      end
  end.

Definition resolveFilePath (h : Host) (filePath : string) (rootPaths : list string)
  : M string :=
  if isAbsolute filePath
  then liftResult (Sandbox.validatePathAccess (cwd h) filePath rootPaths)
  else resolveAgainst h filePath rootPaths rootPaths.

(** The path shown for a file: relative to the first root whose text is a
    prefix of the validated path. *)
Fixpoint displayPath (h : Host) (filePath validatedPath : string) (roots : list string)
  : string :=
  match roots with
  | [] => filePath
  | root :: rest =>
      if startsWith validatedPath root then relative (cwd h) root validatedPath
      else displayPath h filePath validatedPath rest
  end.

(** One entry of the tool's answer: [{path, content}] or [{path, error}]. *)
Inductive ReadResult : Type :=
| FileContent (path content : string)
| FileError (path error : string).

Definition readSingleFile (h : Host) (filePath : string) (params : ReadFilesInput)
    (rootPaths : list string) : M ReadResult :=
  validatedPath <- resolveFilePath h filePath rootPaths ;;
  fileInfo <- getFileInfo h validatedPath ;;
  if isDirectory fileInfo then throw (IsADirectory filePath)
  else if (size fileInfo >? maxFileSize params)%Z
  then throw (TooLarge (size fileInfo) (maxFileSize params))
  else
    content <- RangeReader.readFileContent h validatedPath (startLine params)
                 (endLine params) (encoding params) ;;
    let formattedContent :=
      if showLineNumbers params
      then addLineNumbers content (Js.orElse (startLine params) 1)
      else content in
    ret (FileContent (displayPath h filePath validatedPath rootPaths) formattedContent).

(** One turn of the handler's loop: a failure becomes the entry's error. *)
Definition readEntry (h : Host) (params : ReadFilesInput) (rootPaths : list string)
    (filePath : string) : M ReadResult :=
  tryCatch (readSingleFile h filePath params rootPaths)
           (fun message => ret (FileError filePath message)).

Fixpoint readAll (h : Host) (params : ReadFilesInput) (rootPaths : list string)
    (todo : list string) (results : list ReadResult) : M (list ReadResult) :=
  match todo with
  | [] => ret results
  | filePath :: rest =>
      r <- readEntry h params rootPaths filePath ;;
      readAll h params rootPaths rest (results ++ [r])
  end.

(** [params.startLine && params.endLine && params.startLine > params.endLine] *)
Definition rangeInverted (params : ReadFilesInput) : bool :=
  Js.truthy (startLine params) && Js.truthy (endLine params)
  && (Walker.orDefault (startLine params) 0 >? Walker.orDefault (endLine params) 0)%Z.

(** [readFiles.handler(input, context)]; the answer's text is the JSON
    rendering of the list returned here. *)
Definition handler (h : Host) (input : JsValue) (roots : list string)
  : M (list ReadResult) :=
  params <- liftResult (parseInput input) ;;
  if rangeInverted params then throw InvalidRange
  else readAll h params roots (paths params) [].


End ReadFiles.

(* ===================================================================== *)
(** ** The specification's glob, and a regular-expression engine for the
       sources that [matchesPattern] builds *)
(* ===================================================================== *)

Module Glob.
Import JsString.

(** The simple glob of the specification, over the whole name: ['*'] is any
    run of characters, ['?'] any single character, anything else itself,
    without regard to case. *)
Fixpoint globMatch (pattern : string) (fileName : string) : bool :=
  match pattern with
  | EmptyString => (fileName =? "")%string
  | String c p =>
      if Ascii.eqb c "*" then
        (fix star (s : string) : bool :=
           globMatch p s
           || match s with
              | String _ r => star r
              | EmptyString => false
              end) fileName
      else
        match fileName with
        | String a r =>
            (Ascii.eqb c "?" || sameChar true a c) && globMatch p r
        | EmptyString => false
        end
  end.

(** The pattern has no character that means something to [RegExp] besides
    the three that [matchesPattern] rewrites. *)
Definition plainChar (c : ascii) : bool :=
  negb (existsb (Ascii.eqb c) ["+"; "^"; "$"; "{"; "}"; "("; ")"; "|"; "["; "]"; "\"]%char).

Fixpoint plainPattern (pattern : string) : bool :=
  match pattern with
  | EmptyString => true
  | String c p => plainChar c && plainPattern p
  end.

(** No line terminator occurs in the name. *)
Fixpoint oneLine (s : string) : bool :=
  match s with
  | EmptyString => true
  | String c r =>
      negb (Ascii.eqb c (ascii_of_nat 10) || Ascii.eqb c (ascii_of_nat 13))
      && oneLine r
  end.

(** The regular expressions met when the pattern has no metacharacter
    besides ['.'], ['*'] and ['?']: an escaped character, [.] and [.*]. *)
Inductive Token : Type :=
| Lit (c : ascii)
| AnyChar
| AnyRun.

Definition isMeta (c : ascii) : bool :=
  existsb (Ascii.eqb c)
    ["*"; "+"; "?"; "^"; "$"; "{"; "}"; "("; ")"; "|"; "["; "]"]%char.

Fixpoint parseSource (src : string) : option (list Token) :=
  match src with
  | EmptyString => Some []
  | String c r =>
      if Ascii.eqb c "\" then
        match r with
        | String d r' => option_map (cons (Lit d)) (parseSource r')
        | EmptyString => None
        end
      else if Ascii.eqb c "." then
        match r with
        | String d r' =>
            if Ascii.eqb d "*" then option_map (cons AnyRun) (parseSource r')
            else option_map (cons AnyChar) (parseSource r)
        | EmptyString => Some [AnyChar]
        end
      else if isMeta c then None
      else option_map (cons (Lit c)) (parseSource r)
  end.

(** The tokens that a plain pattern compiles to, character by character. *)
Definition tokenOf (c : ascii) : Token :=
  if Ascii.eqb c "*" then AnyRun
  else if Ascii.eqb c "?" then AnyChar
  else Lit c.

Fixpoint tokensOf (pattern : string) : list Token :=
  match pattern with
  | EmptyString => []
  | String c p => tokenOf c :: tokensOf p
  end.

(** [.] matches any character but a line terminator. *)
Definition dotMatches (c : ascii) : bool :=
  negb (Ascii.eqb c (ascii_of_nat 10) || Ascii.eqb c (ascii_of_nat 13)).

(** The tokens match a prefix of [s]. *)
Fixpoint matchTokens (toks : list Token) (s : string) : bool :=
  match toks with
  | [] => true
  | Lit c :: t =>
      match s with
      | String a r => sameChar true a c && matchTokens t r
      | EmptyString => false
      end
  | AnyChar :: t =>
      match s with
      | String a r => dotMatches a && matchTokens t r
      | EmptyString => false
      end
  | AnyRun :: t =>
      (fix run (s : string) : bool :=
         matchTokens t s
         || match s with
            | String a r => dotMatches a && run r
            | EmptyString => false
            end) s
  end.

(** The tokens match somewhere in [s]: the expression is not anchored. *)
Fixpoint matchAnywhere (toks : list Token) (s : string) : bool :=
  matchTokens toks s
  || match s with
     | String _ r => matchAnywhere toks r
     | EmptyString => false
     end.

(** [new RegExp(source, 'i').test(s)] on the sources above; any other
    source is left to the engine proper and refused here. *)
Definition regexpTest (source s : string) : result bool :=
  match parseSource source with
  | Some toks => Ok (matchAnywhere toks s)
  | None => Throw ("Invalid regular expression: /" +++ source +++ "/")
  end.

End Glob.

(* ===================================================================== *)
(** ** A small host for the examples *)
(* ===================================================================== *)

Module Demo.
Import JsString.

Inductive Node : Type :=
| DirNode (names : list string)
| FileNode (content : string) (size : number).

Definition lookupNode (table : list (string * Node)) (p : string) : option Node :=
  option_map snd (find (fun kv => (fst kv =? p)%string) table).

Definition ENOENT (p : string) : Error :=
  "ENOENT: no such file or directory, '" +++ p +++ "'".

(** A filesystem given by a table from absolute paths to nodes. *)
Definition tableFs (table : list (string * Node)) : FileSystem :=
  {| fsReaddir := fun p =>
       match lookupNode table p with
       | Some (DirNode names) => Ok names
       | Some (FileNode _ _) => Throw ("ENOTDIR: not a directory, '" +++ p +++ "'")
       | None => Throw (ENOENT p)
       end;
     fsStat := fun p =>
       match lookupNode table p with
       | Some (DirNode _) =>
           Ok {| statSize := 0; mtimeISO := "2024-01-01T00:00:00.000Z";
                 statIsDirectory := true; statIsFile := false |}
       | Some (FileNode _ n) =>
           Ok {| statSize := n; mtimeISO := "2024-01-01T00:00:00.000Z";
                 statIsDirectory := false; statIsFile := true |}
       | None => Throw (ENOENT p)
       end;
     fsReadFile := fun p _ =>
       match lookupNode table p with
       | Some (FileNode content _) => Ok content
       | Some (DirNode _) => Throw "EISDIR: illegal operation on a directory, read"
       | None => Throw (ENOENT p)
       end;
     fsAccess := fun p =>
       match lookupNode table p with
       | Some _ => Ok tt
       | None => Throw (ENOENT p)
       end |}.

(** Modelled from the spec: the repository calls the third-party [ignore]
    package; the examples use its least behaviour named by the
    specification, a bare name on a line of the ignore file excludes every
    path that has that name as a segment. *)
Definition bareNameIgnore (rules : list string) (relPath : string) : bool :=
  existsb (fun content =>
             existsb (fun rule =>
                        negb (rule =? "")%string
                        && existsb (String.eqb rule) (split "/" relPath))
                     (split RangeReader.LF content))
          rules.

(** A stand-in for [localeCompare] in the examples: code-unit order. *)
Definition byteCompare (a b : string) : number :=
  match String.compare a b with
  | Lt => (-1)%Z
  | Eq => 0%Z
  | Gt => 1%Z
  end.

Definition host (table : list (string * Node)) : Host :=
  {| fs := tableFs table;
     cwd := "/";
     regexpTest := Glob.regexpTest;
     localeCompare := byteCompare;
     ignoreTest := bareNameIgnore |}.

Definition nl : string := chr RangeReader.LF.

Definition file (content : string) : Node :=
  FileNode content (Z.of_nat (String.length content)).

(** The tree of the specification's end-to-end scenario, with two more
    files. *)
Definition tree : list (string * Node) :=
  [ ("/r", DirNode ["a.txt"; ".gitignore"; "skip"; "data.json"; "sub"]);
    ("/r/a.txt", file ("x" +++ nl +++ "foo" +++ nl +++ "y"));
    ("/r/.gitignore", file ("skip" +++ nl));
    ("/r/skip", DirNode ["b.txt"]);
    ("/r/skip/b.txt", file "foo");
    ("/r/data.json", file "{}");
    ("/r/sub", DirNode ["twice.txt"; "large.bin"]);
    ("/r/sub/twice.txt", file ("foo" +++ nl +++ "foo"));
    ("/r/sub/large.bin", FileNode "" 2000000) ].

(** A fresh process: empty cache of the default size and lifetime. *)
Definition start : World :=
  {| metadataCache := Cache.create 1000 30000; now := 0; trace := [] |}.

End Demo.

(* ===================================================================== *)
(** ** Directory-only ignore rules *)
(* ===================================================================== *)

Module DirectoryRules.
Import JsString.

(** Modelled from the documentation of the third-party [ignore] package,
    which follows gitignore, for rules that are one name, with or without a
    slash after it.  The rule ['skip'] excludes every path that has [skip]
    as a segment.  The rule ['skip/'] stands for directories only, and the
    package takes a path for a directory when the path says so: the name is
    followed by a slash in it.  Under ['skip/'], [ignores('skip')] is false,
    [ignores('skip/')] and [ignores('skip/b.txt')] are true. *)
Definition ruleMatches (rule relPath : string) : bool :=
  let segments := split "/" relPath in
  match split "/" rule with
  | [name] => negb (name =? "")%string && existsb (String.eqb name) segments
  | [name; ""] =>
      negb (name =? "")%string && existsb (String.eqb name) (removelast segments)
  | _ => false
  end.

Definition directoryRuleIgnore (rules : list string) (relPath : string) : bool :=
  existsb (fun content =>
             existsb (fun rule => ruleMatches rule relPath)
                     (split RangeReader.LF content))
          rules.

Definition host (table : list (string * Demo.Node)) : Host :=
  {| fs := Demo.tableFs table;
     cwd := "/";
     regexpTest := Glob.regexpTest;
     localeCompare := Demo.byteCompare;
     ignoreTest := directoryRuleIgnore |}.

(** The tree of the specification's end-to-end scenario, its ignore file
    holding the directory-only rule ['skip/']. *)
Definition tree : list (string * Demo.Node) :=
  [ ("/r", Demo.DirNode ["a.txt"; ".gitignore"; "skip"]);
    ("/r/a.txt", Demo.file ("x" +++ Demo.nl +++ "foo" +++ Demo.nl +++ "y"));
    ("/r/.gitignore", Demo.file ("skip/" +++ Demo.nl));
    ("/r/skip", Demo.DirNode ["b.txt"]);
    ("/r/skip/b.txt", Demo.file "foo") ].

End DirectoryRules.

(* ===================================================================== *)
(** ** Notions used by the further properties *)
(* ===================================================================== *)

Module CacheHistory.
Import Cache.

Section WithValue.
Context {T : Type}.

(** The value and the clock of the latest [set] of [key] in a sequence of
    calls, if there is one. *)
Definition lastSet (ops : list (op T)) (key : string) : option (T * number) :=
  fold_left (fun acc o =>
               match o with
               | OpSet k v t => if (k =? key)%string then Some (v, t) else acc
               | OpGet _ _ => acc
               end) ops None.

(** The key a call is about. *)
Definition opKey (o : op T) : string :=
  match o with
  | OpGet k _ => k
  | OpSet k _ _ => k
  end.

(** The number of entries that the map holds after the entry of [key]:
    the keys used since [key] was. *)
Fixpoint behind (key : string) (m : JsMap T) : nat :=
  match m with
  | [] => 0
  | (k, _) :: rest => if (k =? key)%string then List.length rest else behind key rest
  end.

End WithValue.

End CacheHistory.

Module MetadataHistory.

(** The process when its clock reads [t]. *)
Definition atTime (t : number) (w : World) : World :=
  {| metadataCache := metadataCache w; now := t; trace := trace w |}.

(** One more call of [getFileInfo], for the path and at the clock reading
    given; its outcome is dropped. *)
Definition visit (h : Host) (w : World) (call : string * number) : World :=
  snd (Metadata.getFileInfo h (fst call) (atTime (snd call) w)).

End MetadataHistory.

Module Listing.
Import JsString Path Metadata Walker.

(** The path [p] is the root of segments [bs] or lies below it. *)
Definition below (bs : list string) (p : string) : Prop :=
  exists rel, Forall (fun s => segOk s = true) rel /\ p = canon (bs ++ rel).

(** A filesystem call that stays at or below the root; a warning touches
    nothing. *)
Definition confined (bs : list string) (ev : Event) : Prop :=
  match ev with
  | EvReaddir p | EvStat p | EvReadFile p | EvAccess p => below bs p
  | EvWarn _ => True
  end.

(** What [walkDirectory] owes for each entry that it pushes: where the
    entry lies below the root, and which of the options let it through. *)
Definition listed (h : Host) (maxDepth : number) (recursive includeHidden : bool)
    (pattern : option string) (bs : list string) (info : FileInfo) : Prop :=
  exists rel,
    rel <> []
    /\ Forall (fun s => segOk s = true) rel
    /\ path info = canon (bs ++ rel)
    /\ (Z.of_nat (List.length rel) <= maxDepth + 1)%Z
    /\ (recursive = false -> List.length rel = 1)
    /\ (includeHidden = false -> Forall (fun s => startsWith s "." = false) rel)
    /\ (isDirectory info = false -> filteredOut h pattern (name info) = Ok false).

(** The state of a walk that started with the trace [t0]. *)
Definition listGood (h : Host) (maxDepth : number) (recursive includeHidden : bool)
    (pattern : option string) (bs : list string) (t0 : list Event)
    (results : list FileInfo) (w : World) : Prop :=
  Forall (listed h maxDepth recursive includeHidden pattern bs) results
  /\ cacheSound w
  /\ exists t, trace w = t0 ++ t /\ Forall (confined bs) t.

(** The process state in the course of a call that started with the trace
    [t0]: a sound cache, and calls at or below the root only. *)
Definition calm (bs : list string) (t0 : list Event) (w : World) : Prop :=
  cacheSound w /\ exists t, trace w = t0 ++ t /\ Forall (confined bs) t.

(** Every node of a tree, as a tree. *)
Fixpoint subtrees (n : DirTreeNode) : list DirTreeNode :=
  n :: match n with
       | TreeNode _ (Some children) => flat_map subtrees children
       | TreeNode _ None => []
       end.

(** What [getDirectoryTree] owes for each node: where it lies, and that
    only a directory above the depth limit has children. *)
Definition placed (maxDepth : number) (includeHidden : bool) (bs : list string)
    (n : DirTreeNode) : Prop :=
  exists rel,
    Forall (fun s => segOk s = true) rel
    /\ path (nodeInfo n) = canon (bs ++ rel)
    /\ (Z.of_nat (List.length rel) <= Z.max 0 maxDepth)%Z
    /\ (includeHidden = false -> Forall (fun s => startsWith s "." = false) rel)
    /\ (forall children, nodeChildren n = Some children ->
          isDirectory (nodeInfo n) = true
          /\ (Z.of_nat (List.length rel) < maxDepth)%Z).

(** The children of a node, when it has any, have the directories first. *)
Definition childrenOrdered (n : DirTreeNode) : Prop :=
  forall children,
    nodeChildren n = Some children ->
    StronglySorted (fun a b => isDirectory (nodeInfo b) = true ->
                               isDirectory (nodeInfo a) = true) children.

(** What a call that builds a subtree owes. *)
Definition treeBuilt (maxDepth : number) (includeHidden : bool) (bs : list string)
    (t0 : list Event) (out : result DirTreeNode * World) : Prop :=
  calm bs t0 (snd out)
  /\ forall node, fst out = Ok node ->
                  Forall (placed maxDepth includeHidden bs) (subtrees node).

End Listing.

Module Literal.
Import JsString Search.

(** [mid] is the query, character by character: as it is, or up to the
    case of its letters under the [i] flag. *)
Definition sameText (ic : bool) (mid q : string) : Prop :=
  Forall2 (fun a c => sameChar ic a c = true)
          (list_ascii_of_string mid) (list_ascii_of_string q).

(** The text has the query somewhere in it. *)
Definition contains (ic : bool) (q text : string) : Prop :=
  exists pre mid post, text = pre +++ mid +++ post /\ sameText ic mid q.

(** The characters that a sequence of tokens consumes. *)
Definition literalOf (toks : list Token) : list ascii :=
  flat_map (fun t => match t with Chr c => [c] | WordBoundary => [] end) toks.

(** ECMAScript's [SyntaxCharacter]: one of [^ $ \ . * + ? ( ) [ ] { } |].
    Every other character of a pattern stands for itself. *)
Definition syntaxCharacter (c : ascii) : bool :=
  existsb (Ascii.eqb c)
    ["^"; "$"; "\"; "."; "*"; "+"; "?"; "("; ")"; "["; "]"; "{"; "}"; "|"]%char.

(** The reading of a pattern by the grammar of ECMAScript, as far as the
    tokens of this file go: a character that is no syntax character stands
    for itself, a backslash before a syntax character stands for that
    character, and [\b] is the word-boundary assertion.  A pattern with
    anything else in it, an unescaped syntax character or another escape, has
    a meaning that tokens do not express: no reading. *)
Fixpoint readPattern (src : string) : option (list Token) :=
  match src with
  | EmptyString => Some []
  | String c r =>
      if Ascii.eqb c "\" then
        match r with
        | String e r' =>
            if Ascii.eqb e "b" then option_map (cons WordBoundary) (readPattern r')
            else if syntaxCharacter e then option_map (cons (Chr e)) (readPattern r')
            else None
        | EmptyString => None
        end
      else if syntaxCharacter c then None
      else option_map (cons (Chr c)) (readPattern r)
  end.

(** Every character of the text is an ASCII character: one 8-bit character
    of this file is then one code unit of the JavaScript string, and the
    [i] flag folds the case of its letters only. *)
Definition isAscii (s : string) : bool :=
  forallb (fun c => (nat_of_ascii c <? 128)%nat) (list_ascii_of_string s).

(** No two lines in a row both match. *)
Fixpoint noAdjacentMatches (m : string -> bool) (lines : list string) : bool :=
  match lines with
  | a :: rest =>
      match rest with
      | b :: _ => negb (m a && m b)
      | [] => true
      end && noAdjacentMatches m rest
  | [] => true
  end.

End Literal.

Module SearchScope.
Import JsString Path Walker.

(** A path that a search of the root of segments [bs] may report: below
    the root within the depth limit, under no hidden name, and cut off by
    no ignore rule of the root. *)
Definition searchable (h : Host) (maxDepth : option number) (bs : list string)
    (p : string) : Prop :=
  exists rel,
    rel <> []
    /\ Forall (fun s => segOk s = true) rel
    /\ p = canon (bs ++ rel)
    /\ (Z.of_nat (List.length rel) <= orDefault maxDepth 10 + 1)%Z
    /\ Forall (fun s => startsWith s "." = false) rel
    /\ notIgnoredAlong h (rootMatcher h (canon bs)) rel = true.

(** A root given by its segments. *)
Definition canonical (root : string) : Prop :=
  exists bs, Forall (fun s => segOk s = true) bs /\ root = canon bs.

(** The file of a result lies in the scope of one of the roots. *)
Definition inScope (h : Host) (maxDepth : option number) (roots : list string)
    (r : Search.SearchResult) : Prop :=
  exists bs,
    In (canon bs) roots
    /\ Forall (fun s => segOk s = true) bs
    /\ searchable h maxDepth bs (Search.file r).

End SearchScope.

Module ReadScope.

(** From the state [w] to the state [w'], the calls made are all of the
    kind [P]. *)
Definition tracedBy (P : Event -> Prop) (w w' : World) : Prop :=
  exists t, trace w' = trace w ++ t /\ Forall P t.

(** A call that [read_files] may make: an existence test, a [stat] or a
    read of a path inside the sandbox. *)
Definition sandboxed (cwd : string) (roots : list string) (ev : Event) : Prop :=
  match ev with
  | EvAccess p | EvStat p | EvReadFile p => Sandbox.insideSandbox cwd p roots = true
  | EvReaddir _ | EvWarn _ => False
  end.

End ReadScope.

(* ===================================================================== *)
(** ** The tools [list_files] and [dir_tree] (src/tools/listFiles.ts,
    src/tools/dirTree.ts) *)
(* ===================================================================== *)

Module ToolPaths.
Import JsString Path Metadata.

(** The loop of both tools over the roots, for a relative [path]: every
    root under which the path exists yields a candidate. *)
Fixpoint candidatesLoop (h : Host) (path : string) (roots : list string)
    (candidates : list string) : M (list string) :=
  match roots with
  | [] => ret candidates
  | root :: rest =>
      let candidate := normalize (resolve (cwd h) [root; path]) in
      candidates <- tryCatch
                      (withinRoot <- liftResult
                                       (Sandbox.validatePathAccess (cwd h) candidate
                                                                   [root]) ;;
                       found <- pathExists h withinRoot ;;
                       ret (if found then candidates ++ [withinRoot] else candidates))
                      (fun _ => ret candidates) ;;
      candidatesLoop h path rest candidates
  end.

(** [pathsToList], computed alike by both handlers; an empty [path] is
    falsy. *)
Definition pathsToList (h : Host) (path : option string) (roots : list string)
  : M (list string) :=
  match path with
  | None => ret roots
  | Some p =>
      if (p =? "")%string then ret roots
      else if isAbsolute p then
        validated <- liftResult (Sandbox.validatePathAccess (cwd h) p roots) ;;
        ret [validated]
      else
        candidates <- candidatesLoop h p roots [] ;;
        if (List.length candidates =? 0)%nat
        then throw (ReadFiles.NotFound p roots)
        else ret candidates
  end.

Definition stringOf (v : JsValue) : option string :=
  match v with JsStr s => Some s | _ => None end.

Definition boolOr (v : result JsValue) (d : bool) : bool :=
  match v with Ok (JsBool b) => b | _ => d end.

(** [typeof v === 'number' ? Math.max(1, v) : 10] *)
Definition depthOr10 (v : result JsValue) : number :=
  match v with Ok (JsNumber n) => Z.max 1 n | _ => 10%Z end.

End ToolPaths.

Module ListFilesTool.
Import JsString Path Metadata ToolPaths.

Record ListFilesInput : Type := mkListFilesInput {
  pattern : option string;
  recursive : bool;
  maxDepth : number;
  includeHidden : bool;
  path : option string
}.

Definition parseInput (input : JsValue) : result ListFilesInput :=
  match Js.prop input "pattern" with
  | Throw e => Throw e
  | Ok pattern =>
      Ok {| pattern := stringOf pattern;
            recursive := boolOr (Js.prop input "recursive") true;
            maxDepth := depthOr10 (Js.prop input "maxDepth");
            includeHidden := boolOr (Js.prop input "includeHidden") false;
            path := match Js.prop input "path" with
                    | Ok v => stringOf v
                    | Throw _ => None
                    end |}
  end.

(** One entry of the answer: [{root, files}] or [{root, error}]. *)
Inductive ListEntry : Type :=
| Listed (root : string) (files : list FileInfo)
| ListFailed (root error : string).

Fixpoint listAll (h : Host) (params : ListFilesInput) (todo : list string)
    (results : list ListEntry) : M (list ListEntry) :=
  match todo with
  | [] => ret results
  | rootPath :: rest =>
      entry <- tryCatch
                 (files <- Walker.listFiles h rootPath
                             {| Walker.pattern := pattern params;
                                Walker.recursive := Some (recursive params);
                                Walker.maxDepth := Some (maxDepth params);
                                Walker.includeHidden := Some (includeHidden params) |} ;;
                  ret (Listed rootPath files))
                 (fun message => ret (ListFailed rootPath message)) ;;
      listAll h params rest (results ++ [entry])
  end.

(** [listFiles.handler(input, context)]; the answer's text is the JSON
    rendering of the list returned here. *)
Definition handler (h : Host) (input : JsValue) (roots : list string)
  : M (list ListEntry) :=
  params <- liftResult (parseInput input) ;;
  pathsToList <- pathsToList h (path params) roots ;;
  listAll h params pathsToList [].

End ListFilesTool.

Module DirTreeTool.
Import JsString Path Metadata ToolPaths.

Record DirTreeInput : Type := mkDirTreeInput {
  path : option string;
  maxDepth : number;
  includeHidden : bool
}.

Definition parseInput (input : JsValue) : result DirTreeInput :=
  match Js.prop input "path" with
  | Throw e => Throw e
  | Ok path =>
      Ok {| path := stringOf path;
            maxDepth := depthOr10 (Js.prop input "maxDepth");
            includeHidden := boolOr (Js.prop input "includeHidden") false |}
  end.

(** One entry of the answer: [{root, tree}] or [{root, error}]. *)
Inductive TreeEntry : Type :=
| Tree (root : string) (tree : Walker.DirTreeNode)
| TreeFailed (root error : string).

Fixpoint treeAll (h : Host) (params : DirTreeInput) (todo : list string)
    (results : list TreeEntry) : M (list TreeEntry) :=
  match todo with
  | [] => ret results
  | rootPath :: rest =>
      entry <- tryCatch
                 (tree <- Walker.directoryTree h rootPath (Some (maxDepth params))
                            (Some (includeHidden params)) ;;
                  ret (Tree rootPath tree))
                 (fun message => ret (TreeFailed rootPath message)) ;;
      treeAll h params rest (results ++ [entry])
  end.

(** [dirTree.handler(input, context)]; the answer's text is the JSON
    rendering of the list returned here. *)
Definition handler (h : Host) (input : JsValue) (roots : list string)
  : M (list TreeEntry) :=
  params <- liftResult (parseInput input) ;;
  pathsToList <- pathsToList h (path params) roots ;;
  treeAll h params pathsToList [].

End DirTreeTool.

(* ===================================================================== *)
(** ** The server: start-up and the call handler (src/index.ts) *)
(* ===================================================================== *)

Module Cli.
Import JsString Path Metadata.

Definition MissingRoot : Error := "--root requires a directory path".
Definition NoValidRoots : Error := "No valid root directories found".

(** [rootPath.startsWith('~') ? rootPath.replace(/^~(?=\/|$)/, homedir()) :
    rootPath], for a home directory without a dollar sign, which [replace]
    would read as a pattern. *)
Definition expandHome (homedir rootPath : string) : string :=
  match rootPath with
  | EmptyString => rootPath
  | String c r =>
      if Ascii.eqb c "~" then
        match r with
        | EmptyString => homedir
        | String c' _ => if Ascii.eqb c' slash then homedir +++ r else rootPath
        end
      else rootPath
  end.

(** The loop of [parseCliArgs]: a flag takes the argument after it. *)
Fixpoint parseArgs (cwd homedir : string) (argv : list string) (roots : list string)
  : result (list string) :=
  match argv with
  | [] => Ok roots
  | arg :: rest =>
      if (arg =? "--root")%string || (arg =? "-r")%string then
        match rest with
        | [] => Throw MissingRoot
        | rootPath :: rest' =>
            if (rootPath =? "")%string || startsWith rootPath "-"
            then Throw MissingRoot
            else parseArgs cwd homedir rest'
                           (roots ++ [resolve cwd [expandHome homedir rootPath]])
        end
      else parseArgs cwd homedir rest roots
  end.

(** [parseCliArgs(argv)]; [cwd] is [process.cwd()], [homedir] is
    [os.homedir()]. *)
Definition parseCliArgs (cwd homedir : string) (argv : list string)
  : result (list string) :=
  match parseArgs cwd homedir argv [] with
  | Throw e => Throw e
  | Ok roots => if (List.length roots =? 0)%nat then Ok [cwd] else Ok roots
  end.

(** [console.error(msg)]: a line on the standard error stream, as
    [console.warn] writes one. *)
Definition consoleError (msg : string) : M unit :=
  fun w => (Ok tt, emit (EvWarn msg) w).

(** The loop of [validateRoots]. *)
Fixpoint checkRoots (h : Host) (roots : list string) (validRoots : list string)
  : M (list string) :=
  match roots with
  | [] => ret validRoots
  | root :: rest =>
      found <- pathExists h root ;;
      if found then
        consoleError ("[INFO] Added root directory: " +++ root) ;;;
        checkRoots h rest (validRoots ++ [root])
      else
        consoleError ("[WARN] Root directory does not exist: " +++ root) ;;;
        checkRoots h rest validRoots
  end.

Definition validateRoots (h : Host) (roots : list string) : M (list string) :=
  validRoots <- checkRoots h roots [] ;;
  if (List.length validRoots =? 0)%nat then throw NoValidRoots else ret validRoots.

(** The roots exist according to [fs.access]. *)
Definition accessible (h : Host) (root : string) : bool :=
  match fsAccess (fs h) root with Ok _ => true | Throw _ => false end.

End Cli.

Module Server.
Import JsString.

Section WithResult.
(** The type of the tools' answers, [ToolResult]. *)
Context {R : Type}.

(** [interface ToolSpec], as far as the call handler uses it. *)
Record ToolSpec : Type := mkToolSpec {
  name : string;
  handler : JsValue -> list string -> M R
}.

Definition GateClosed : Error :=
  "Please run 'dir_tree' on the configured root directories before using other tools.".

(** The state of one server: the flag [dirTreeRan] of the closure, and the
    process state. *)
Record ServerState : Type := mkServerState {
  dirTreeRan : bool;
  world : World
}.

(** [args ?? {}] *)
Definition orEmpty (args : JsValue) : JsValue :=
  match args with
  | JsUndefined | JsNull => JsObj []
  | v => v
  end.

(** The handler of [CallToolRequestSchema]; [toolName] and [args] are
    [request.params.name] and [request.params.arguments]. *)
Definition callTool (tools : list ToolSpec) (roots : list string)
    (toolName : string) (args : JsValue) (st : ServerState)
  : result R * ServerState :=
  if negb (toolName =? "dir_tree")%string && negb (dirTreeRan st)
  then (Throw GateClosed, st)
  else
    match find (fun t => (name t =? toolName)%string) tools with
    | None => (Throw ("Unknown tool: " +++ toolName), st)
    | Some tool =>
        match handler tool (orEmpty args) roots (world st) with
        | (Ok result, w) =>
            (Ok result,
             {| dirTreeRan := if (toolName =? "dir_tree")%string then true
                              else dirTreeRan st;
                world := w |})
        | (Throw errorMessage, w) =>
            (Throw ("Tool execution failed: " +++ errorMessage),
             {| dirTreeRan := dirTreeRan st;
                world := emit (EvWarn ("[ERROR] Tool '" +++ toolName +++ "' failed: "
                                       +++ errorMessage)) w |})
        end
    end.

(** A sequence of requests served one after the other. *)
Fixpoint serve (tools : list ToolSpec) (roots : list string)
    (requests : list (string * JsValue)) (st : ServerState)
  : list (result R) * ServerState :=
  match requests with
  | [] => ([], st)
  | (toolName, args) :: rest =>
      let '(response, st1) := callTool tools roots toolName args st in
      let '(responses, st2) := serve tools roots rest st1 in
      (response :: responses, st2)
  end.

(** The requests for [dir_tree]. *)
Definition forDirTree (request : string * JsValue) : bool :=
  (fst request =? "dir_tree")%string.

Definition succeeded (response : result R) : bool :=
  match response with Ok _ => true | Throw _ => false end.

End WithResult.

Arguments ToolSpec : clear implicits.
Arguments ServerState : clear implicits.

End Server.

Module ToolScope.
Import Path.

(** A call of the filesystem on a path inside the sandbox; a line on the
    standard error stream touches nothing. *)
Definition inside (cwd : string) (roots : list string) (ev : Event) : Prop :=
  match ev with
  | EvReaddir p | EvStat p | EvReadFile p | EvAccess p =>
      Sandbox.insideSandbox cwd p roots = true
  | EvWarn _ => True
  end.

(** A path that a tool may walk: given by its segments, and inside the
    sandbox. *)
Definition target (cwd : string) (roots : list string) (t : string) : Prop :=
  exists bs,
    Forall (fun s => segOk s = true) bs
    /\ t = canon bs
    /\ Sandbox.insideSandbox cwd t roots = true.

End ToolScope.

(** A registry for the examples: the tools whose handlers are embedded
    above, each answer tagged with its tool. *)
Module DemoServer.
Import Server.

Inductive Answer : Type :=
| ListAnswer (entries : list ListFilesTool.ListEntry)
| ReadAnswer (entries : list ReadFiles.ReadResult)
| TreeAnswer (entries : list DirTreeTool.TreeEntry).

Definition answering {A : Type} (tag : A -> Answer) (m : M A) : M Answer :=
  x <- m ;; ret (tag x).

Definition tools (h : Host) : list (ToolSpec Answer) :=
  [ {| name := "list_files";
       handler := fun input roots =>
                    answering ListAnswer (ListFilesTool.handler h input roots) |};
    {| name := "read_files";
       handler := fun input roots =>
                    answering ReadAnswer (ReadFiles.handler h input roots) |};
    {| name := "dir_tree";
       handler := fun input roots =>
                    answering TreeAnswer (DirTreeTool.handler h input roots) |} ].

End DemoServer.

(* ===================================================================== *)
(** * Properties *)
(* ===================================================================== *)

(** ** Facts about JavaScript strings *)

Section JsStringFacts.
Import JsString.

Lemma append_nil_r (s : string) : s +++ "" = s.
Proof. induction s as [|a s IH]; simpl; [reflexivity | now rewrite IH]. Qed.

Lemma append_assoc (a b c : string) : (a +++ b) +++ c = a +++ (b +++ c).
Proof. induction a as [|x a IH]; simpl; [reflexivity | now rewrite IH]. Qed.

Lemma prefix_empty (s : string) : String.prefix "" s = true.
Proof. now destruct s. Qed.

Lemma prefix_refl (s : string) : String.prefix s s = true.
Proof.
  induction s as [|a s IH]; simpl; [reflexivity|].
  destruct (ascii_dec a a); [exact IH | congruence].
Qed.

Lemma prefix_app (a b c : string) :
  String.prefix (a +++ b) (a +++ c) = String.prefix b c.
Proof.
  induction a as [|x a IH]; simpl; [reflexivity|].
  destruct (ascii_dec x x); [exact IH | congruence].
Qed.

Lemma prefix_app_r (a b : string) : String.prefix a (a +++ b) = true.
Proof.
  rewrite <- (append_nil_r a) at 1. rewrite prefix_app. now destruct b.
Qed.

Lemma prefix_cons (x y : ascii) (a b : string) :
  String.prefix (String x a) (String y b)
  = if Ascii.eqb x y then String.prefix a b else false.
Proof.
  simpl. destruct (ascii_dec x y) as [->|n].
  - now rewrite Ascii.eqb_refl.
  - apply Ascii.eqb_neq in n. now rewrite n.
Qed.

Lemma split_nonnil (c : ascii) (s : string) : split c s <> [].
Proof.
  destruct s as [|a r]; simpl; [discriminate|].
  destruct (Ascii.eqb a c); [discriminate|].
  destruct (split c r); discriminate.
Qed.

(** Splitting a string that has no separator gives the string itself. *)
Lemma split_lacks (c : ascii) (s : string) :
  lacks c s = true -> split c s = [s].
Proof.
  induction s as [|a r IH]; simpl; [reflexivity|].
  intros H. apply andb_prop in H as [Ha Hr].
  apply negb_true_iff in Ha. rewrite Ha, (IH Hr). reflexivity.
Qed.

(** [split] distributes over a separator placed between two strings. *)
Lemma split_app (c : ascii) (a b : string) :
  split c (a +++ String c b) = split c a ++ split c b.
Proof.
  induction a as [|x a IH]; simpl.
  - now rewrite Ascii.eqb_refl.
  - destruct (Ascii.eqb x c); [now rewrite IH|].
    rewrite IH. destruct (split c a) eqn:E; [|reflexivity].
    now destruct (split_nonnil c a).
Qed.

(** Every piece produced by [split] is free of the separator. *)
Lemma split_pieces_lack (c : ascii) (s : string) :
  Forall (fun p => lacks c p = true) (split c s).
Proof.
  induction s as [|a r IH]; simpl.
  - constructor; [reflexivity | constructor].
  - destruct (Ascii.eqb a c) eqn:E.
    + constructor; [reflexivity | exact IH].
    + destruct (split c r) as [|h t].
      * constructor; [simpl; now rewrite E | constructor].
      * inversion IH as [|? ? Hh Ht]; subst.
        constructor; [simpl; now rewrite E, Hh | exact Ht].
Qed.

(** Joining and splitting on the same separator are inverse. *)
Lemma join_split (c : ascii) (s : string) : join (chr c) (split c s) = s.
Proof.
  induction s as [|a r IH]; simpl; [reflexivity|].
  destruct (Ascii.eqb_spec a c) as [->|n].
  - unfold join in *. simpl.
    destruct (split c r) eqn:E; [now destruct (split_nonnil c r)|].
    now rewrite IH.
  - unfold join in *.
    destruct (split c r) as [|h t] eqn:E; [now destruct (split_nonnil c r)|].
    simpl in *. destruct t; simpl in *; now rewrite <- IH.
Qed.

Lemma split_join (c : ascii) (ls : list string) :
  ls <> [] -> Forall (fun p => lacks c p = true) ls ->
  split c (join (chr c) ls) = ls.
Proof.
  induction ls as [|x xs IH]; [congruence|].
  intros _ H. inversion H as [|? ? Hx Hxs]; subst.
  destruct xs as [|y ys].
  - simpl. now apply split_lacks.
  - change (join (chr c) (x :: y :: ys))
      with (x +++ String c (join (chr c) (y :: ys))).
    rewrite split_app, (split_lacks _ _ Hx), IH; [reflexivity|discriminate|assumption].
Qed.

End JsStringFacts.

(** ** Facts about the path model *)

Section PathFacts.
Import JsString Path.

Lemma segOk_lacks (s : string) : segOk s = true -> lacks slash s = true.
Proof.
  unfold segOk. intros H.
  repeat (apply andb_prop in H as [H ?]). exact H.
Qed.

Lemma segOk_plain (s : string) :
  segOk s = true -> s <> "" /\ s <> "." /\ s <> "..".
Proof.
  unfold segOk. intros H.
  repeat (apply andb_prop in H as [H ?]).
  repeat split; intros ->; discriminate.
Qed.

Lemma normStep_push (allow : bool) (st : list string) (seg : string) :
  segOk seg = true -> normStep allow st seg = seg :: st.
Proof.
  intros H. destruct (segOk_plain _ H) as (H1 & H2 & H3).
  unfold normStep.
  apply String.eqb_neq in H1, H2, H3. now rewrite H1, H2, H3.
Qed.

Lemma normStep_false_ok (st : list string) (seg : string) :
  Forall (fun s => segOk s = true) st -> lacks slash seg = true ->
  Forall (fun s => segOk s = true) (normStep false st seg).
Proof.
  intros Hst Hseg. unfold normStep.
  destruct (seg =? "")%string eqn:E1; simpl; [assumption|].
  destruct (seg =? ".")%string eqn:E2; simpl; [assumption|].
  destruct (seg =? "..")%string eqn:E3.
  - destruct st as [|top rest]; [constructor|].
    inversion Hst; subst. destruct (top =? "..")%string; assumption.
  - constructor; [|assumption]. unfold segOk. now rewrite Hseg, E1, E2, E3.
Qed.

Lemma fold_normStep_ok (segs st : list string) :
  Forall (fun s => segOk s = true) st ->
  Forall (fun s => lacks slash s = true) segs ->
  Forall (fun s => segOk s = true) (fold_left (normStep false) segs st).
Proof.
  revert st. induction segs as [|x xs IH]; intros st Hst Hsegs; simpl.
  - assumption.
  - inversion Hsegs; subst. apply IH; [|assumption].
    now apply normStep_false_ok.
Qed.

(** Whatever [resolve] normalises, the segments kept can all name a
    directory entry. *)
Lemma normalizeSegments_ok (path : string) :
  Forall (fun s => segOk s = true) (normalizeSegments false (split slash path)).
Proof.
  unfold normalizeSegments. apply Forall_rev.
  apply fold_normStep_ok; [constructor | apply split_pieces_lack].
Qed.

Lemma fold_normStep_id (allow : bool) (segs st : list string) :
  Forall (fun s => segOk s = true) segs ->
  fold_left (normStep allow) segs st = rev segs ++ st.
Proof.
  revert st. induction segs as [|x xs IH]; intros st H; simpl; [reflexivity|].
  inversion H; subst. rewrite normStep_push by assumption.
  rewrite IH by assumption. now rewrite <- app_assoc.
Qed.

Lemma normalizeSegments_id (allow : bool) (segs : list string) :
  Forall (fun s => segOk s = true) segs -> normalizeSegments allow segs = segs.
Proof.
  intros H. unfold normalizeSegments.
  rewrite fold_normStep_id by assumption.
  now rewrite app_nil_r, rev_involutive.
Qed.

Lemma split_canon (segs : list string) :
  Forall (fun s => segOk s = true) segs ->
  normalizeSegments false (split slash (canon segs)) = segs.
Proof.
  intros H. unfold canon.
  change ("/" +++ join sep segs) with ("" +++ String slash (join sep segs)).
  rewrite split_app. simpl.
  destruct segs as [|x xs]; [reflexivity|].
  change sep with (chr slash). rewrite split_join.
  - change (normalizeSegments false ("" :: x :: xs))
      with (normalizeSegments false (x :: xs)).
    now apply normalizeSegments_id.
  - discriminate.
  - eapply Forall_impl; [|exact H]. intros a. apply segOk_lacks.
Qed.

Lemma segmentsOf_canon (segs : list string) :
  Forall (fun s => segOk s = true) segs -> segmentsOf (canon segs) = segs.
Proof.
  intros H. unfold segmentsOf, canon.
  change ("/" +++ join sep segs) with ("" +++ String slash (join sep segs)).
  rewrite split_app. simpl.
  destruct segs as [|x xs]; [reflexivity|].
  change sep with (chr slash). rewrite split_join.
  - apply forallb_filter_id. apply forallb_forall. intros s Hs.
    rewrite Forall_forall in H. destruct (segOk_plain _ (H s Hs)) as [H1 _].
    apply String.eqb_neq in H1. now rewrite H1.
  - discriminate.
  - eapply Forall_impl; [|exact H]. intros a. apply segOk_lacks.
Qed.

Lemma resolveLoop_anchored (cwd : string) (l : list string) (acc : string) :
  isAbsolute cwd = true -> snd (resolveLoop (l ++ [cwd]) acc) = true.
Proof.
  intros Hcwd. revert acc. induction l as [|p l IH]; intros acc; simpl.
  - destruct cwd as [|c r]; [discriminate|]. simpl in *. now rewrite Hcwd.
  - destruct (p =? "")%string; [apply IH|].
    destruct (isAbsolute p); [reflexivity | apply IH].
Qed.

(** With an absolute working directory, [resolve] returns the canonical
    text of a list of proper segments. *)
Lemma resolve_canon (cwd : string) (args : list string) :
  isAbsolute cwd = true -> resolve cwd args = canon (resolvedSegments cwd args).
Proof.
  intros Hcwd. unfold resolve, resolvedSegments.
  pose proof (resolveLoop_anchored cwd (rev args) "" Hcwd) as H.
  destruct (resolveLoop (rev args ++ [cwd]) "") as [rp abs]. simpl in *.
  subst abs. reflexivity.
Qed.

Lemma resolvedSegments_ok (cwd : string) (args : list string) :
  Forall (fun s => segOk s = true) (resolvedSegments cwd args).
Proof. apply normalizeSegments_ok. Qed.

Lemma endsWithSep_app (a b : string) :
  b <> "" -> endsWithSep (a +++ b) = endsWithSep b.
Proof.
  intros Hb. induction a as [|c a IH]; [reflexivity|].
  simpl. destruct (a +++ b) eqn:E; [|exact IH].
  destruct a; simpl in E; [congruence | discriminate].
Qed.

Lemma endsWithSep_lacks (s : string) : lacks slash s = true -> endsWithSep s = false.
Proof.
  induction s as [|c s IH]; [reflexivity|]. simpl.
  intros H. apply andb_prop in H as [Hc Hs]. apply negb_true_iff in Hc.
  destruct s; [exact Hc | now apply IH].
Qed.

Lemma join_nonempty (x : string) (xs : list string) :
  x <> "" -> join sep (x :: xs) <> "".
Proof.
  intros Hx. unfold join. simpl.
  destruct xs; [assumption|]. destruct x; [congruence | discriminate].
Qed.

Lemma endsWithSep_join (x : string) (xs : list string) :
  Forall (fun s => segOk s = true) (x :: xs) -> endsWithSep (join sep (x :: xs)) = false.
Proof.
  revert x. induction xs as [|y ys IH]; intros x H; inversion H; subst.
  - simpl. apply endsWithSep_lacks. now apply segOk_lacks.
  - change (join sep (x :: y :: ys)) with (x +++ "/" +++ join sep (y :: ys)).
    assert (Hne : join sep (y :: ys) <> "").
    { apply join_nonempty. inversion H3; subst. now destruct (segOk_plain y). }
    rewrite endsWithSep_app.
    + rewrite (endsWithSep_app "/" _ Hne). now apply IH.
    + simpl. discriminate.
Qed.

(** [normalize] leaves a canonical absolute path as it is, so
    [normalize (resolve p)] is [resolve p]. *)
Lemma normalize_canon (segs : list string) :
  Forall (fun s => segOk s = true) segs -> normalize (canon segs) = canon segs.
Proof.
  intros H. unfold normalize. 
  assert (Hn : normalizeString (canon segs) (negb (isAbsolute (canon segs)))
               = join sep segs).
  { unfold normalizeString. simpl negb. now rewrite split_canon. }
  rewrite Hn. simpl (canon segs =? "")%string. simpl (isAbsolute _).
  destruct segs as [|x xs]; [reflexivity|].
  assert (Hne : join sep (x :: xs) <> "").
  { apply join_nonempty. inversion H; subst. now destruct (segOk_plain x). }
  apply String.eqb_neq in Hne as Hne'. rewrite Hne'.
  unfold canon. rewrite (endsWithSep_app "/" _ Hne).
  now rewrite endsWithSep_join.
Qed.

Lemma absolute_resolve (cwd p : string) :
  isAbsolute cwd = true ->
  normalize (resolve cwd [p]) = canon (resolvedSegments cwd [p]).
Proof.
  intros H. rewrite resolve_canon by assumption.
  apply normalize_canon, resolvedSegments_ok.
Qed.

End PathFacts.

(** ** PathSandbox *)

Section SandboxFacts.
Import JsString Path Sandbox.

Lemma prefix_into_segment (c : ascii) (x a y : string) :
  lacks c y = true -> String.prefix (x +++ String c a) y = false.
Proof.
  revert y. induction x as [|e x IH]; intros y Hy; destruct y as [|d y];
    try reflexivity.
  - simpl in Hy. apply andb_prop in Hy as [Hd _]. apply negb_true_iff in Hd.
    change (String.prefix (String c a) (String d y) = false).
    rewrite prefix_cons, Ascii.eqb_sym, Hd. reflexivity.
  - simpl in Hy. apply andb_prop in Hy as [_ Hy].
    change (String.prefix (String e (x +++ String c a)) (String d y) = false).
    rewrite prefix_cons. destruct (Ascii.eqb e d); [now apply IH | reflexivity].
Qed.

Lemma prefix_segment (c : ascii) (x y a b : string) :
  lacks c x = true -> lacks c y = true ->
  String.prefix (x +++ String c a) (y +++ String c b)
  = (x =? y)%string && String.prefix a b.
Proof.
  revert y. induction x as [|e x IH]; intros y Hx Hy; destruct y as [|d y].
  - change (String.prefix (String c a) (String c b) = String.prefix a b).
    now rewrite prefix_cons, Ascii.eqb_refl.
  - simpl in Hy. apply andb_prop in Hy as [Hd _]. apply negb_true_iff in Hd.
    change (String.prefix (String c a) (String d (y +++ String c b)) = false).
    now rewrite prefix_cons, Ascii.eqb_sym, Hd.
  - simpl in Hx. apply andb_prop in Hx as [He _]. apply negb_true_iff in He.
    change (String.prefix (String e (x +++ String c a)) (String c b) = false).
    now rewrite prefix_cons, He.
  - simpl in Hx, Hy. apply andb_prop in Hx as [_ Hx]. apply andb_prop in Hy as [_ Hy].
    change (String.prefix (String e (x +++ String c a)) (String d (y +++ String c b))
            = (String e x =? String d y)%string && String.prefix a b).
    rewrite prefix_cons. simpl String.eqb.
    destruct (Ascii.eqb e d); [now apply IH | reflexivity].
Qed.

Lemma startsWith_join_sep (c : ascii) (sr sp : list string) :
  sr <> [] ->
  Forall (fun s => lacks c s = true) sr -> Forall (fun s => lacks c s = true) sp ->
  String.prefix (join (chr c) sr +++ chr c) (join (chr c) sp) = properPrefix sr sp.
Proof.
  revert sp. induction sr as [|x xs IH]; [congruence|].
  intros sp _ Hr Hp. inversion Hr as [|? ? Lx Hxs]; subst.
  destruct xs as [|x' xs].
  - (* a single root segment *)
    change (join (chr c) [x] +++ chr c) with (x +++ String c "").
    destruct sp as [|y [|y' ys]].
    + simpl. now destruct x.
    + simpl join. inversion Hp; subst.
      rewrite prefix_into_segment by assumption.
      simpl. now rewrite andb_false_r.
    + inversion Hp; subst.
      change (join (chr c) (y :: y' :: ys))
        with (y +++ String c (join (chr c) (y' :: ys))).
      rewrite prefix_segment by assumption.
      rewrite prefix_empty. reflexivity.
  - change (join (chr c) (x :: x' :: xs) +++ chr c)
      with ((x +++ String c (join (chr c) (x' :: xs))) +++ chr c).
    rewrite append_assoc.
    change (String c (join (chr c) (x' :: xs)) +++ chr c)
      with (String c (join (chr c) (x' :: xs) +++ chr c)).
    destruct sp as [|y [|y' ys]].
    + simpl. now destruct x.
    + simpl join. inversion Hp; subst.
      rewrite prefix_into_segment by assumption.
      simpl. now rewrite andb_false_r.
    + inversion Hp; subst.
      change (join (chr c) (y :: y' :: ys))
        with (y +++ String c (join (chr c) (y' :: ys))).
      rewrite prefix_segment by assumption.
      rewrite IH by (try assumption; discriminate). reflexivity.
Qed.

Lemma prefix_chr_join (c : ascii) (sp : list string) :
  Forall (fun s => lacks c s = true /\ s <> "") sp ->
  String.prefix (chr c) (join (chr c) sp) = false.
Proof.
  intros H. destruct sp as [|y ys]; [reflexivity|].
  inversion H as [|? ? [Ly Hne] _]; subst.
  destruct y as [|d y]; [congruence|].
  simpl in Ly. apply andb_prop in Ly as [Hd _]. apply negb_true_iff in Hd.
  assert (E : forall r, String.prefix (chr c) (String d r) = false).
  { intros r. unfold chr. now rewrite prefix_cons, Ascii.eqb_sym, Hd. }
  unfold join. destruct ys; simpl String.concat; apply E.
Qed.

Lemma segs_lack (l : list string) :
  Forall (fun s => segOk s = true) l -> Forall (fun s => lacks slash s = true) l.
Proof. apply Forall_impl. intros a. apply segOk_lacks. Qed.

(** The string test of the sandbox, read on segments: for a root with at
    least one segment, [startsWith] of the root followed by the separator
    holds exactly for the paths that continue the root's segments. *)
Lemma startsWith_root_sep (sr sp : list string) :
  sr <> [] ->
  Forall (fun s => segOk s = true) sr -> Forall (fun s => segOk s = true) sp ->
  startsWith (canon sp) (canon sr +++ sep) = properPrefix sr sp.
Proof.
  intros Hne Hr Hp. unfold startsWith, canon.
  change (("/" +++ join sep sr) +++ sep) with (String slash (join sep sr +++ sep)).
  change ("/" +++ join sep sp) with (String slash (join sep sp)).
  rewrite prefix_cons, Ascii.eqb_refl.
  apply (startsWith_join_sep slash); auto using segs_lack.
Qed.

(** No canonical path starts with two separators, so the root ['/'] followed
    by the separator is a prefix of nothing. *)
Lemma startsWith_double_sep (sp : list string) :
  Forall (fun s => segOk s = true) sp ->
  startsWith (canon sp) (canon [] +++ sep) = false.
Proof.
  intros H. unfold startsWith, canon.
  change (("/" +++ join sep []) +++ sep) with (String slash (chr slash)).
  change ("/" +++ join sep sp) with (String slash (join sep sp)).
  rewrite prefix_cons, Ascii.eqb_refl.
  apply (prefix_chr_join slash).
  eapply Forall_impl; [|exact H]. intros a Ha. split.
  - now apply segOk_lacks.
  - now destruct (segOk_plain a).
Qed.

Lemma properPrefix_neq (sr sp : list string) : properPrefix sr sp = true -> sp <> sr.
Proof.
  revert sp. induction sr as [|x xs IH]; intros [|y ys] H; simpl in H;
    try discriminate.
  apply andb_prop in H as [_ H]. intros E. inversion E; subst.
  now apply (IH _ H).
Qed.

Section WithCwd.
Variable cwd : string.
Hypothesis cwd_abs : isAbsolute cwd = true.

(** For a root other than the filesystem root, the loop's test is the
    specification's: equal to the root, or below it segment by segment. *)
Lemma rootAdmits_insideRoot (root p : string) :
  absoluteForm cwd root <> "/" ->
  rootAdmits cwd (absoluteForm cwd p) root
  = insideRoot (absoluteForm cwd root) (absoluteForm cwd p).
Proof.
  unfold rootAdmits, insideRoot, descendantOf, absoluteForm.
  rewrite !absolute_resolve by assumption. intros Hroot.
  pose proof (resolvedSegments_ok cwd [root]) as Hr.
  pose proof (resolvedSegments_ok cwd [p]) as Hp.
  rewrite !segmentsOf_canon by assumption.
  rewrite startsWith_root_sep; try assumption.
  - apply orb_comm.
  - intros E. apply Hroot. now rewrite E.
Qed.

(** For every root, the filesystem root included, the loop admits only
    what the specification admits. *)
Lemma rootAdmits_sound (root p : string) :
  rootAdmits cwd (absoluteForm cwd p) root = true ->
  insideRoot (absoluteForm cwd root) (absoluteForm cwd p) = true.
Proof.
  destruct (string_dec (absoluteForm cwd root) "/") as [E|N].
  - unfold rootAdmits, insideRoot. fold (absoluteForm cwd root). rewrite E.
    unfold absoluteForm. rewrite absolute_resolve by assumption.
    change ("/" +++ sep) with (canon [] +++ sep).
    rewrite startsWith_double_sep by apply resolvedSegments_ok.
    simpl. intros ->. reflexivity.
  - now rewrite rootAdmits_insideRoot.
Qed.

(** A path outside every root is refused with [OutsideSandbox]. *)
Lemma validatePathAccess_outside (p : string) (roots : list string) :
  insideSandbox cwd p roots = false ->
  validatePathAccess cwd p roots = Throw (OutsideSandbox p).
Proof.
  unfold validatePathAccess, insideSandbox. fold (absoluteForm cwd p).
  induction roots as [|root rest IH]; simpl; [reflexivity|].
  intros H. apply orb_false_elim in H as [H1 H2].
  destruct (rootAdmits cwd (absoluteForm cwd p) root) eqn:E.
  - apply rootAdmits_sound in E. congruence.
  - now apply IH.
Qed.

(** When no root is the filesystem root, a path inside some root is
    returned in its normalized absolute form. *)
Lemma validatePathAccess_inside (p : string) (roots : list string) :
  Forall (fun root => absoluteForm cwd root <> "/") roots ->
  insideSandbox cwd p roots = true ->
  validatePathAccess cwd p roots = Ok (absoluteForm cwd p).
Proof.
  unfold validatePathAccess, insideSandbox. fold (absoluteForm cwd p).
  induction roots as [|root rest IH]; simpl; [discriminate|].
  intros Hroots H. inversion Hroots; subst.
  rewrite rootAdmits_insideRoot by assumption.
  destruct (insideRoot (absoluteForm cwd root) (absoluteForm cwd p)); [reflexivity|].
  now apply IH.
Qed.

End WithCwd.

(** The test scenario of the specification: root ['/root'] admits itself and
    ['/root/a'], and refuses ['/root2']. *)
Example validatePathAccess_root2 :
  validatePathAccess "/" "/root2" ["/root"] = Throw (OutsideSandbox "/root2")
  /\ validatePathAccess "/" "/root/a/../b" ["/root"] = Ok "/root/b"
  /\ validatePathAccess "/" "/root" ["/root"] = Ok "/root".
Proof. repeat split; vm_compute; reflexivity. Qed.

(** C1 (the code departs from the claim): with the filesystem root ['/']
    configured as a root, ['/etc/hosts'] is a descendant of that root, yet
    [validatePathAccess] throws [OutsideSandbox]: the test appends the
    separator to a root that already ends with it and looks for ['//']. *)
Theorem validatePathAccess_filesystem_root :
  insideSandbox "/" "/etc/hosts" ["/"] = true
  /\ validatePathAccess "/" "/etc/hosts" ["/"] = Throw (OutsideSandbox "/etc/hosts")
  /\ validatePathAccess "/" "/" ["/"] = Ok "/".
Proof. repeat split; vm_compute; reflexivity. Qed.

End SandboxFacts.

(** ** MetadataCache *)

Section CacheFacts.
Import Cache.
Context {T : Type}.
Implicit Types (m : JsMap T) (c : LRUCache T) (r : Recency) (e : CacheEntry T).

Lemma keys_mapDelete (key : string) m :
  keys (mapDelete key m) = filter (fun k => negb (k =? key)%string) (keys m).
Proof.
  induction m as [|[k v] m IH]; simpl; [reflexivity|].
  destruct (k =? key)%string; simpl; now rewrite <- IH.
Qed.

Lemma mapDelete_absent (key : string) m : ~ In key (keys (mapDelete key m)).
Proof.
  rewrite keys_mapDelete. intros H. apply filter_In in H as [_ H].
  now rewrite String.eqb_refl in H.
Qed.

Lemma mapDelete_length (key : string) m :
  List.length (mapDelete key m) <= List.length m.
Proof. apply filter_length_le. Qed.

Lemma mapDelete_shrinks (key : string) m :
  In key (keys m) -> List.length (mapDelete key m) < List.length m.
Proof.
  induction m as [|[k v] m IH]; simpl; [intros []|].
  pose proof (mapDelete_length key m) as Hle.
  destruct (String.eqb_spec k key) as [->|N]; simpl; [lia|].
  intros [E|H]; [congruence|]. specialize (IH H). lia.
Qed.

Lemma mapHas_In (key : string) m : mapHas key m = true <-> In key (keys m).
Proof.
  unfold mapHas, keys. rewrite existsb_exists, in_map_iff. split.
  - intros [kv [H E]]. apply String.eqb_eq in E. now exists kv.
  - intros [kv [E H]]. exists kv. split; [assumption|]. now apply String.eqb_eq.
Qed.

Lemma mapDelete_id (key : string) m : ~ In key (keys m) -> mapDelete key m = m.
Proof.
  induction m as [|[k v] m IH]; simpl; [reflexivity|].
  intros H. destruct (String.eqb_spec k key) as [->|N]; simpl.
  - exfalso. apply H. now left.
  - rewrite IH; [reflexivity|]. intros F. apply H. now right.
Qed.

Lemma mapSet_absent (key : string) e m :
  ~ In key (keys m) -> mapSet key e m = m ++ [(key, e)].
Proof.
  induction m as [|[k v] m IH]; simpl; [reflexivity|].
  intros H. destruct (String.eqb_spec k key) as [->|N].
  - exfalso. apply H. now left.
  - rewrite IH; [reflexivity|]. intros F. apply H. now right.
Qed.

(** Deleting a key and setting it again puts it last. *)
Lemma mapSet_mapDelete (key : string) e m :
  mapSet key e (mapDelete key m) = mapDelete key m ++ [(key, e)].
Proof. apply mapSet_absent, mapDelete_absent. Qed.

Lemma inserted_eq c (now : number) (key : string) (v : T) :
  inserted c now key v
  = mapDelete key (cache c) ++ [(key, {| value := v; expires := (now + ttl c)%Z |})].
Proof.
  unfold inserted. destruct (mapHas key (cache c)) eqn:E.
  - apply mapSet_mapDelete.
  - assert (N : ~ In key (keys (cache c))).
    { intros H. apply mapHas_In in H. congruence. }
    rewrite mapSet_absent by assumption. now rewrite mapDelete_id.
Qed.

Lemma mapDelete_head (key : string) e m :
  ~ In key (keys m) -> mapDelete key ((key, e) :: m) = m.
Proof.
  intros H. simpl. rewrite String.eqb_refl. simpl. now apply mapDelete_id.
Qed.

Lemma mapGet_In (key : string) e m : mapGet key m = Some e -> In key (keys m).
Proof.
  unfold mapGet. destruct (find _ m) as [[k v]|] eqn:E; [|discriminate].
  intros _. apply find_some in E as [H E]. simpl in E. apply String.eqb_eq in E.
  subst. apply in_map_iff. now exists (key, v).
Qed.

Lemma mapGet_mapDelete_same (key : string) m : mapGet key (mapDelete key m) = None.
Proof.
  unfold mapGet. destruct (find _ (mapDelete key m)) as [[k v]|] eqn:E; [|reflexivity].
  apply find_some in E as [H E]. simpl in E. apply String.eqb_eq in E. subst.
  exfalso. apply (mapDelete_absent key m). apply in_map_iff. now exists (key, v).
Qed.

Lemma mapGet_mapDelete_other (key k : string) m :
  k <> key -> mapGet k (mapDelete key m) = mapGet k m.
Proof.
  intros N. unfold mapGet, mapDelete.
  induction m as [|[k0 v] m IH]; simpl; [reflexivity|].
  destruct (String.eqb_spec k0 key) as [->|N0]; simpl.
  - apply String.eqb_neq in N. rewrite String.eqb_sym in N. now rewrite N.
  - destruct (k0 =? k)%string; [reflexivity | exact IH].
Qed.

(** *** The recency order is the order of the map *)

Lemma ordered_nil r : ordered r (@nil (string * CacheEntry T)).
Proof. repeat split; constructor. Qed.

Lemma ordered_pass r m : ordered r m -> ordered (pass r) m.
Proof.
  intros (H1 & H2 & H3). repeat split; try assumption.
  eapply Forall_impl; [|exact H3]. simpl. intros; lia.
Qed.

Lemma ordered_mapDelete (key : string) r m : ordered r m -> ordered r (mapDelete key m).
Proof.
  intros (H1 & H2 & H3). unfold ordered. rewrite keys_mapDelete.
  repeat split.
  - now apply NoDup_filter.
  - clear H1 H3. induction H2 as [|a l Hl IH Ha]; simpl; [constructor|].
    destruct (negb (a =? key)%string); [|exact IH].
    constructor; [exact IH|].
    apply Forall_forall. intros x Hx. apply filter_In in Hx as [Hx _].
    rewrite Forall_forall in Ha. now apply Ha.
  - apply Forall_forall. intros x Hx. apply filter_In in Hx as [Hx _].
    rewrite Forall_forall in H3. now apply H3.
Qed.

Lemma sorted_snoc (lt : string -> string -> Prop) (l : list string) (k : string) :
  StronglySorted lt l -> Forall (fun a => lt a k) l -> StronglySorted lt (l ++ [k]).
Proof.
  intros Hs Hk. induction Hs as [|a l Hl IH Ha]; simpl.
  - constructor; constructor.
  - inversion Hk; subst. constructor; [now apply IH|].
    apply Forall_app. split; [assumption | now constructor].
Qed.

(** Using a key moves it behind every other key, and the map still lists
    the keys from least to most recently used. *)
Lemma ordered_touch (key : string) e r m :
  ordered r m -> ordered (touch key r) (mapDelete key m ++ [(key, e)]).
Proof.
  intros H. pose proof (mapDelete_absent key m) as Habs.
  apply (ordered_mapDelete key) in H as (H1 & H2 & H3).
  unfold ordered, keys in *. rewrite map_app. simpl map.
  assert (Hother : forall k, In k (map fst (mapDelete key m)) ->
                     lastUse (touch key r) k = lastUse r k).
  { intros k Hk. simpl. destruct (String.eqb_spec k key) as [->|]; [contradiction|reflexivity]. }
  assert (Hkey : lastUse (touch key r) key = calls r).
  { simpl. now rewrite String.eqb_refl. }
  repeat split.
  - apply NoDup_app; [assumption | repeat constructor; intros [] | ].
    intros x Hx [<-|[]]. contradiction.
  - apply sorted_snoc.
    + clear H1 H3 Habs Hkey. induction H2 as [|a l Hl IH Ha]; [constructor|].
      constructor.
      * apply IH. intros k Hk. apply Hother. now right.
      * apply Forall_forall. intros x Hx. rewrite Forall_forall in Ha.
        rewrite (Hother a), (Hother x) by (simpl; auto). now apply Ha.
    + apply Forall_forall. intros x Hx. rewrite Hkey, (Hother x Hx).
      rewrite Forall_forall in H3. now apply H3.
  - apply Forall_app. split.
    + apply Forall_forall. intros x Hx. rewrite (Hother x Hx).
      rewrite Forall_forall in H3. specialize (H3 x Hx). simpl. lia.
    + constructor; [|constructor]. rewrite Hkey. simpl. lia.
Qed.

Lemma ordered_tail r (kv : string * CacheEntry T) m : ordered r (kv :: m) -> ordered r m.
Proof.
  intros (H1 & H2 & H3). unfold ordered, keys in *. simpl in *.
  inversion H1; inversion H2; inversion H3; subst. now repeat split.
Qed.

(** The first key of an ordered map is its least recently used key. *)
Lemma ordered_head_leastRecent r (kv : string * CacheEntry T) m :
  ordered r (kv :: m) -> leastRecent r (fst kv) (kv :: m).
Proof.
  intros (H1 & H2 & _) k Hk Hne. unfold keys in *. simpl in *.
  destruct Hk as [E|Hk]; [congruence|].
  inversion H2 as [|? ? _ Hall]; subst. rewrite Forall_forall in Hall. now apply Hall.
Qed.

(** The outcome of [set]: the new entry goes last, and when the map has
    outgrown [maxSize] its first entry, and only that one, is dropped. *)
Lemma set_cache c (now : number) (key : string) (v : T) :
  NoDup (keys (inserted c now key v)) ->
  cache (set c now key v)
  = if (mapSize (inserted c now key v) >? maxSize c)%Z
    then tl (inserted c now key v) else inserted c now key v.
Proof.
  intros Hnd. unfold set.
  destruct (mapSize (inserted c now key v) >? maxSize c)%Z; [|reflexivity].
  destruct (inserted c now key v) as [|[k e] rest]; [reflexivity|].
  simpl firstKey. cbv iota. unfold withMap. simpl cache.
  unfold keys in Hnd. simpl in Hnd. inversion Hnd; subst.
  now apply mapDelete_head.
Qed.

Lemma step_maxSize c (o : op T) : maxSize (step c o) = maxSize c.
Proof.
  destruct o as [key now|key v now]; simpl.
  - unfold get. destruct (mapGet key (cache c)); [|reflexivity].
    now destruct (now >? expires c0)%Z.
  - unfold set. destruct (_ >? _)%Z; [|reflexivity].
    now destruct (firstKey _).
Qed.

(** Every call keeps the map ordered by recency. *)
Lemma stepRec_ordered c r (o : op T) :
  ordered r (cache c) -> ordered (observe c r o) (cache (step c o)).
Proof.
  intros H. destruct o as [key now|key v now]; simpl.
  - unfold get. destruct (mapGet key (cache c)) as [entry|]; simpl.
    + destruct (now >? expires entry)%Z; simpl.
      * now apply ordered_pass, ordered_mapDelete.
      * rewrite mapSet_mapDelete. now apply ordered_touch.
    + now apply ordered_pass.
  - assert (Hins : ordered (touch key r) (inserted c now key v)).
    { rewrite inserted_eq. now apply ordered_touch. }
    rewrite set_cache by apply Hins.
    destruct (_ >? _)%Z; [|assumption].
    destruct (inserted c now key v) as [|kv rest]; [assumption|].
    simpl. now apply ordered_tail in Hins.
Qed.

(** Every call keeps the map within a non-negative capacity. *)
Lemma step_size c (o : op T) :
  NoDup (keys (cache c)) ->
  (mapSize (cache c) <= maxSize c)%Z ->
  (mapSize (cache (step c o)) <= maxSize c)%Z.
Proof.
  intros Hnd Hsz. unfold mapSize in *.
  pose proof (mapDelete_length) as Hdel.
  destruct o as [key now|key v now]; simpl.
  - unfold get. destruct (mapGet key (cache c)) as [entry|] eqn:G; simpl; [|assumption].
    destruct (now >? expires entry)%Z; simpl.
    + specialize (Hdel key (cache c)). lia.
    + rewrite mapSet_mapDelete, length_app. simpl.
      apply mapGet_In in G.
      pose proof (mapDelete_shrinks key (cache c) G). lia.
  - assert (Hnd' : NoDup (keys (inserted c now key v))).
    { rewrite inserted_eq. unfold keys. rewrite map_app. simpl.
      apply NoDup_app.
      - fold (keys (mapDelete key (cache c))). rewrite keys_mapDelete.
        now apply NoDup_filter.
      - repeat constructor. intros [].
      - intros x Hx [<-|[]]. now apply (mapDelete_absent key (cache c)). }
    rewrite set_cache by assumption. unfold mapSize.
    destruct (Z.of_nat (List.length (inserted c now key v)) >? maxSize c)%Z eqn:E.
    + rewrite inserted_eq in *. specialize (Hdel key (cache c)).
      destruct (mapDelete key (cache c) ++ _) as [|kv rest] eqn:E'.
      * simpl. lia.
      * apply (f_equal (@List.length _)) in E'. rewrite length_app in E'.
        simpl in *. lia.
    + lia.
Qed.

Lemma run_snoc (C ttl : number) (ops : list (op T)) (o : op T) :
  run C ttl (ops ++ [o]) = stepRec (run C ttl ops) o.
Proof. unfold run. now rewrite fold_left_app. Qed.

Lemma run_maxSize (C ttl : number) (ops : list (op T)) :
  maxSize (fst (run C ttl ops)) = C.
Proof.
  induction ops as [|o ops IH] using rev_ind; [reflexivity|].
  rewrite run_snoc. simpl. now rewrite step_maxSize.
Qed.

Lemma run_ordered (C ttl : number) (ops : list (op T)) :
  ordered (snd (run C ttl ops)) (cache (fst (run C ttl ops))).
Proof.
  induction ops as [|o ops IH] using rev_ind; [apply ordered_nil|].
  rewrite run_snoc. simpl. now apply stepRec_ordered.
Qed.

Lemma run_size (C ttl : number) (ops : list (op T)) :
  (0 <= C)%Z -> (mapSize (cache (fst (run C ttl ops))) <= C)%Z.
Proof.
  intros HC. induction ops as [|o ops IH] using rev_ind; [exact HC|].
  rewrite run_snoc. simpl.
  rewrite <- (run_maxSize C ttl ops) at 2. apply step_size.
  - apply run_ordered.
  - now rewrite run_maxSize.
Qed.

(** C3: along every sequence of [get] and [set] calls on a cache created
    with capacity [C], the cache holds at most [C] entries and lists its
    keys from least to most recently used (a [set], and a [get] that returns
    a value, make their key the most recent); a [set] whose insertion
    outgrows [C] drops exactly the first entry, whose key is the least
    recently used one, and any other [set] drops nothing. *)
Theorem lru_capacity_and_eviction (C ttl : number) (ops : list (op T)) :
  (0 <= C)%Z ->
  let c := fst (run C ttl ops) in
  let r := snd (run C ttl ops) in
  (mapSize (cache c) <= C)%Z
  /\ ordered r (cache c)
  /\ forall (key : string) (v : T) (now : number),
       let m := inserted c now key v in
       if (mapSize m >? C)%Z
       then exists victim,
              m = victim :: cache (set c now key v)
              /\ leastRecent (observe c r (OpSet key v now)) (fst victim) m
       else cache (set c now key v) = m.
Proof.
  intros HC c r. pose proof (run_ordered C ttl ops) as Hord. fold c r in Hord.
  split; [now apply run_size|]. split; [exact Hord|].
  intros key v now m.
  assert (Hins : ordered (touch key r) m).
  { unfold m. rewrite inserted_eq. now apply ordered_touch. }
  pose proof (set_cache c now key v (proj1 Hins)) as Hset.
  fold m in Hset. unfold c at 2 in Hset. rewrite run_maxSize in Hset. fold c in Hset.
  destruct (mapSize m >? C)%Z eqn:E; [|exact Hset].
  destruct m as [|victim rest] eqn:Em.
  - unfold mapSize in E. simpl in E. lia.
  - exists victim. simpl in Hset. rewrite Hset. split; [reflexivity|].
    simpl observe. now apply ordered_head_leastRecent.
Qed.

(** C4: a [get] made after the entry's expiry time returns nothing and
    removes the entry, whatever the capacity and wherever the entry stands
    in the map; the other entries stay as they are. *)
Theorem get_expired_evicts c (now : number) (key : string) e :
  mapGet key (cache c) = Some e ->
  (now > expires e)%Z ->
  fst (get c now key) = None
  /\ cache (snd (get c now key)) = mapDelete key (cache c)
  /\ mapGet key (cache (snd (get c now key))) = None
  /\ ~ In key (keys (cache (snd (get c now key))))
  /\ forall k, k <> key ->
       mapGet k (cache (snd (get c now key))) = mapGet k (cache c).
Proof.
  intros G Hexp. unfold get. rewrite G.
  apply Z.gtb_gt in Hexp. rewrite Hexp. simpl.
  split; [reflexivity|]. split; [reflexivity|].
  split; [apply mapGet_mapDelete_same|].
  split; [apply mapDelete_absent|].
  intros k Hk. now apply mapGet_mapDelete_other.
Qed.

End CacheFacts.

(** A run with capacity 2: [a], [b] are set, [a] is read, then [c] is set;
    [b], the least recently used key, is the one dropped. *)
Example lru_run_example :
  Cache.keys (Cache.cache (fst (Cache.run 2 1000
    [Cache.OpSet "a" 1 0%Z; Cache.OpSet "b" 2 1%Z; Cache.OpGet "a" 2%Z;
     Cache.OpSet "c" 3 3%Z]))) = ["a"; "c"].
Proof. vm_compute. reflexivity. Qed.

(** C3 on a cache of capacity 2 and the run above. *)
Lemma lru_capacity_and_eviction_witness :
  (0 <= 2)%Z
  /\ (Cache.mapSize (Cache.cache (fst (Cache.run 2 1000
        [Cache.OpSet "a" 1 0%Z; Cache.OpSet "b" 2 1%Z; Cache.OpGet "a" 2%Z;
         Cache.OpSet "c" 3 3%Z]))) <= 2)%Z.
Proof.
  split; [lia|].
  apply (lru_capacity_and_eviction (T := nat) 2 1000
           [Cache.OpSet "a" 1 0%Z; Cache.OpSet "b" 2 1%Z; Cache.OpGet "a" 2%Z;
            Cache.OpSet "c" 3 3%Z]).
  lia.
Defined.

(** C4 on a cache holding [a] and [b]: [a], stored at time 0 with a
    lifetime of 1000, is read at time 1001. *)
Lemma get_expired_evicts_witness :
  let c := Cache.set (Cache.set (Cache.create 5 1000) 0 "a" 1) 10 "b" 2 in
  Cache.mapGet "a" (Cache.cache c) = Some (Cache.mkEntry 1 1000)
  /\ (1001 > 1000)%Z
  /\ fst (Cache.get c 1001 "a") = None
  /\ Cache.keys (Cache.cache (snd (Cache.get c 1001 "a"))) = ["b"].
Proof.
  intros c.
  assert (G : Cache.mapGet "a" (Cache.cache c) = Some (Cache.mkEntry 1 1000))
    by reflexivity.
  assert (L : (1001 > Cache.expires (Cache.mkEntry 1 1000))%Z) by (simpl; lia).
  pose proof (get_expired_evicts c 1001 "a" _ G L) as (H1 & H2 & _).
  split; [exact G|]. split; [lia|]. split; [exact H1|].
  rewrite H2. reflexivity.
Defined.

(** ** RangeReader *)

Section RangeReaderFacts.
Import JsString JsArray RangeReader.

Lemma between_firstn_skipn {A : Type} (lo hi i : nat) (l : list A) :
  between lo hi i l = firstn (hi - Nat.max lo i) (skipn (lo - i) l).
Proof.
  revert i. induction l as [|x r IH]; intros i; simpl.
  - now rewrite skipn_nil, firstn_nil.
  - rewrite IH. destruct (Nat.leb_spec lo i) as [Hlo|Hlo]; simpl.
    + replace (lo - i) with 0 by lia. replace (lo - S i) with 0 by lia. simpl.
      destruct (Nat.ltb_spec i hi) as [Hhi|Hhi].
      * replace (hi - Nat.max lo i) with (S (hi - Nat.max lo (S i))) by lia.
        reflexivity.
      * replace (hi - Nat.max lo i) with 0 by lia.
        replace (hi - Nat.max lo (S i)) with 0 by lia. reflexivity.
    + replace (lo - i) with (S (lo - S i)) by lia. simpl.
      replace (Nat.max lo (S i)) with (Nat.max lo i) by lia. reflexivity.
Qed.

(** For indices that are not negative, [slice] keeps the elements whose
    index lies in [[start, stop)]. *)
Lemma slice_between {A : Type} (l : list A) (start stop : number) :
  (0 <= start)%Z -> (0 <= stop)%Z ->
  slice l start stop = between (Z.to_nat start) (Z.to_nat stop) 0 l.
Proof.
  intros Hs He. rewrite between_firstn_skipn. unfold slice, relativeIndex.
  destruct (Z.ltb_spec start 0); [lia|]. destruct (Z.ltb_spec stop 0); [lia|].
  rewrite Nat.max_0_r, Nat.sub_0_r.
  set (len := List.length l).
  destruct (Z.le_gt_cases (Z.of_nat len) start) as [Hbig|Hsmall].
  - rewrite !skipn_all2 by (fold len; lia). now rewrite !firstn_nil.
  - rewrite (Z.min_l start) by lia.
    destruct (Z.le_gt_cases stop (Z.of_nat len)) as [Hin|Hout].
    + rewrite (Z.min_l stop) by lia. f_equal. lia.
    + rewrite (Z.min_r stop) by lia.
      rewrite !firstn_all2; [reflexivity | |]; rewrite length_skipn; fold len; lia.
Qed.


(** C6: a ranged read returns the lines whose 0-based index lies in
    [[start, stop)], with [start = max(0, startLine - 1)] and
    [stop = min(totalLines, endLine ?? totalLines)], glued by the line
    separator; with no range it returns the whole content; and for a content
    of three lines or more, [startLine = 2] and [endLine = 3] return lines 2
    and 3 whatever follows them.  Line numbers are 1-based, so an [endLine]
    is not negative. *)
Theorem readFileContent_range (h : Host) (filePath encoding content : string)
    (startLine endLine : option number) (w : World) :
  fsReadFile (fs h) filePath encoding = Ok content ->
  (forall e, endLine = Some e -> (0 <= e)%Z) ->
  let totalLines := Z.of_nat (List.length (split LF content)) in
  let start := Z.max 0 (match startLine with Some s => s | None => 1 end - 1) in
  let stop := Z.min totalLines (match endLine with Some e => e | None => totalLines end) in
  fst (readFileContent h filePath startLine endLine encoding w)
  = Ok (match startLine, endLine with
        | None, None => content
        | _, _ => linesFromTo content (Z.to_nat start) (Z.to_nat stop)
        end)
  /\ (forall l1 l2 l3 rest,
        split LF content = l1 :: l2 :: l3 :: rest ->
        fst (readFileContent h filePath (Some 2%Z) (Some 3%Z) encoding w)
        = Ok (l2 +++ chr LF +++ l3)).
Proof.
  intros Hread Hend totalLines start stop.
  assert (Hrun : forall s e,
             fst (readFileContent h filePath s e encoding w)
             = Ok (selectLines content s e)).
  { intros s e. unfold readFileContent, tryCatch, bind, readFile, ret.
    now rewrite Hread. }
  split.
  - rewrite Hrun. f_equal. unfold selectLines, linesFromTo.
    assert (Hstop : (0 <= stop)%Z).
    { unfold stop, totalLines. destruct endLine as [e|]; [|lia].
      specialize (Hend e eq_refl). lia. }
    destruct startLine as [s|], endLine as [e|]; try reflexivity;
      fold totalLines; fold start; fold stop;
      rewrite slice_between by (unfold start; lia); reflexivity.
  - intros l1 l2 l3 rest Hlines. rewrite Hrun. f_equal.
    unfold selectLines. rewrite Hlines. 
    rewrite slice_between by (simpl List.length; lia).
    rewrite between_firstn_skipn.
    replace (Z.to_nat (Z.max 0 (2 - 1))) with 1 by lia.
    replace (Z.to_nat (Z.min (Z.of_nat (List.length (l1 :: l2 :: l3 :: rest))) 3))
      with 3 by (simpl List.length; lia).
    reflexivity.
Qed.

End RangeReaderFacts.

(** C6 on the three-line file of the example tree. *)
Lemma readFileContent_range_witness :
  fsReadFile (fs (Demo.host Demo.tree)) "/r/a.txt" "utf-8"
  = Ok ("x" +++ Demo.nl +++ "foo" +++ Demo.nl +++ "y")
  /\ (forall e, Some 3%Z = Some e -> (0 <= e)%Z)
  /\ fst (RangeReader.readFileContent (Demo.host Demo.tree) "/r/a.txt"
            (Some 2%Z) (Some 3%Z) "utf-8" Demo.start)
     = Ok ("foo" +++ Demo.nl +++ "y").
Proof.
  assert (Hread : fsReadFile (fs (Demo.host Demo.tree)) "/r/a.txt" "utf-8"
                  = Ok ("x" +++ Demo.nl +++ "foo" +++ Demo.nl +++ "y"))
    by reflexivity.
  assert (Hend : forall e, Some 3%Z = Some e -> (0 <= e)%Z).
  { intros e E. injection E as <-. lia. }
  split; [exact Hread|]. split; [exact Hend|].
  exact (proj1 (readFileContent_range (Demo.host Demo.tree) "/r/a.txt" "utf-8" _
                  (Some 2%Z) (Some 3%Z) Demo.start Hread Hend)).
Defined.

(** ** The read tool *)

Section ReadFilesFacts.
Import ReadFiles.

(** C10: the read tool takes between 1 and 10 paths.  An input whose path
    list has 1 to 10 entries is parsed with that list; for an input whose
    path list is empty or has more than 10 entries the handler throws and
    leaves the process state as it was: no filesystem call is made, nothing
    is cached, and no per-file result exists. *)
Theorem handler_path_count (h : Host) (input : JsValue) (roots : list string)
    (w : World) (ps : list string) :
  resolvePaths input = Ok ps ->
  if ((1 <=? List.length ps) && (List.length ps <=? 10))%nat
  then exists params, parseInput input = Ok params /\ paths params = ps
  else handler h input roots w
       = (Throw (if (List.length ps =? 0)%nat then NoPaths else TooManyPaths), w).
Proof.
  intros Hps. unfold handler, parseInput, bind, liftResult. rewrite Hps.
  destruct (Nat.eqb_spec (List.length ps) 0) as [E0|N0].
  - rewrite E0. reflexivity.
  - destruct (Nat.ltb_spec 10 (List.length ps)) as [Hbig|Hsmall].
    + destruct (Nat.leb_spec (List.length ps) 10); [lia|].
      now rewrite andb_false_r.
    + destruct (Nat.leb_spec 1 (List.length ps)); [|lia].
      destruct (Nat.leb_spec (List.length ps) 10); [|lia].
      simpl. eexists. split; reflexivity.
Qed.

(** *** What the steps before the read leave in the trace *)

Lemma countReads_snoc (f : string -> bool) (t : list Event) (ev : Event) :
  countReads f (t ++ [ev])
  = countReads f t + match ev with
                     | EvReadFile q => if f q then 1 else 0
                     | _ => 0
                     end.
Proof.
  unfold countReads. rewrite filter_app, length_app.
  destruct ev; simpl; try lia. destruct (f p); simpl; lia.
Qed.

Lemma getFileInfo_reads (f : string -> bool) (h : Host) (p : string) (w : World) :
  countReads f (trace (snd (Metadata.getFileInfo h p w))) = countReads f (trace w).
Proof.
  unfold Metadata.getFileInfo, bind, Metadata.cacheGet.
  destruct (Cache.get (metadataCache w) (now w) p) as [[info|] c]; simpl.
  - reflexivity.
  - unfold tryCatch, bind, stat. simpl.
    destruct (fsStat (fs h) p) as [stats|e]; simpl;
      rewrite countReads_snoc; simpl; lia.
Qed.




(** *** The loop of the handler *)

(** One turn never throws: it yields the file's entry or its error. *)
Lemma readEntry_outcome (h : Host) (params : ReadFilesInput) (roots : list string)
    (filePath : string) (w : World) :
  readEntry h params roots filePath w
  = match readSingleFile h filePath params roots w with
    | (Ok r, w') => (Ok r, w')
    | (Throw e, w') => (Ok (FileError filePath e), w')
    end.
Proof.
  unfold readEntry, tryCatch.
  now destruct (readSingleFile h filePath params roots w) as [[r|e] w'].
Qed.






End ReadFilesFacts.

(** The specification's scenario: a file of 2,000,000 bytes asked for with
    [maxFileSize = 1024] fails with both sizes in the message, its sibling
    is read, and the only content read is the sibling's. *)
Example batch_scenario :
  let input := JsObj [("paths", JsArr [JsStr "sub/large.bin"; JsStr "a.txt"]);
                      ("maxFileSize", JsNumber 1024); ("showLineNumbers", JsBool false)] in
  let out := ReadFiles.handler (Demo.host Demo.tree) input ["/r"] Demo.start in
  fst out
  = Ok [ReadFiles.FileError "sub/large.bin"
          "File too large: 2000000 bytes (max: 1024 bytes)";
        ReadFiles.FileContent "a.txt" ("x" +++ Demo.nl +++ "foo" +++ Demo.nl +++ "y")]
  /\ filter (fun ev => match ev with EvReadFile _ => true | _ => false end)
            (trace (snd out)) = [EvReadFile "/r/a.txt"].
Proof. vm_compute. split; reflexivity. Qed.


(** C10 on an input whose [paths] array holds no string. *)
Lemma handler_path_count_witness :
  ReadFiles.resolvePaths (JsObj [("paths", JsArr [JsNumber 1; JsNull])]) = Ok []
  /\ ReadFiles.handler (Demo.host Demo.tree)
       (JsObj [("paths", JsArr [JsNumber 1; JsNull])]) ["/r"] Demo.start
     = (Throw ReadFiles.NoPaths, Demo.start).
Proof.
  assert (H : ReadFiles.resolvePaths (JsObj [("paths", JsArr [JsNumber 1; JsNull])])
              = Ok []) by reflexivity.
  split; [exact H|].
  exact (handler_path_count (Demo.host Demo.tree) _ ["/r"] Demo.start [] H).
Defined.

(** Eleven paths are one too many. *)
Example handler_eleven_paths :
  ReadFiles.handler (Demo.host Demo.tree)
    (JsObj [("paths", JsArr (repeat (JsStr "a.txt") 11))]) ["/r"] Demo.start
  = (Throw ReadFiles.TooManyPaths, Demo.start).
Proof. reflexivity. Qed.

(** ** TextSearchEngine *)

Section SearchFacts.
Import Search.

Lemma searchFrom_fresh (ic : bool) (toks : list Token) (li i : nat)
    (prev : option ascii) (rest : string) (x : nat * nat) :
  searchFrom ic toks li i prev rest = Some x ->
  exists y, searchFrom ic toks 0 i prev rest = Some y.
Proof.
  revert i prev. induction rest as [|a r IH]; intros i prev; simpl.
  - destruct (li <=? i)%nat; [|discriminate].
    destruct (matchHere ic toks prev ""); [eauto | discriminate].
  - destruct (matchHere ic toks prev (String a r)) as [n|] eqn:E.
    + eauto.
    + destruct (li <=? i)%nat; apply IH.
Qed.

(** A [test] that succeeds from some [lastIndex] succeeds from 0 as well:
    the state can hide a match, never invent one. *)
Lemma test_true_fresh (re : RegExp) (s : string) :
  fst (test re s) = true -> fst (test (fresh re) s) = true.
Proof.
  unfold test, fresh. simpl.
  destruct (searchFrom (ignoreCase re) (tokens re) (lastIndex re) 0 None s)
    as [[b e]|] eqn:E; [|discriminate].
  destruct (searchFrom_fresh _ _ _ _ _ _ _ E) as [[b' e'] ->]. reflexivity.
Qed.

Lemma test_fresh (re : RegExp) (s : string) : fresh (snd (test re s)) = fresh re.
Proof.
  unfold test, fresh.
  now destruct (searchFrom (ignoreCase re) (tokens re) (lastIndex re) 0 None s)
    as [[b e]|].
Qed.

(** A failed [test] leaves [lastIndex] at 0, so the next line is searched
    from its start. *)
Lemma test_false_resets (re : RegExp) (s : string) :
  fst (test re s) = false -> snd (test re s) = fresh re.
Proof.
  unfold test, fresh.
  now destruct (searchFrom (ignoreCase re) (tokens re) (lastIndex re) 0 None s)
    as [[b e]|].
Qed.

(** What [searchInFile] reports is right: every result carries a line of
    the file that matches the pattern, with its 1-based number. *)
Lemma scanLines_sound (filePath : string) (lines : list string) (ctx : number)
    (re0 : RegExp) (P : SearchResult -> Prop) :
  (forall i text before after,
      nth_error lines i = Some text -> fst (test (fresh re0) text) = true ->
      P {| file := filePath; line := Z.of_nat i + 1; content := text;
           contextBefore := before; contextAfter := after |}) ->
  forall todo i regex results,
    fresh regex = fresh re0 ->
    todo = skipn i lines ->
    Forall P results ->
    Forall P (scanLines filePath lines ctx todo i regex results).
Proof.
  intros HP. induction todo as [|text rest IH]; intros i regex results Hre Htodo Hres;
    simpl; [exact Hres|].
  assert (Hnth : nth_error lines i = Some text).
  { rewrite <- (firstn_skipn i lines), <- Htodo.
    assert (Hlen : i <= List.length lines).
    { destruct (Nat.le_gt_cases i (List.length lines)); [assumption|].
      rewrite skipn_all2 in Htodo by lia. discriminate. }
    rewrite nth_error_app2; rewrite firstn_length_le by assumption; [|lia].
    now rewrite Nat.sub_diag. }
  assert (Hrest : rest = skipn (S i) lines).
  { clear - Htodo. revert i Htodo. induction lines as [|x xs IHl]; intros [|i] H;
      simpl in *; try discriminate.
    - now injection H.
    - now apply IHl. }
  pose proof (test_true_fresh regex text) as Hfresh.
  pose proof (test_fresh regex text) as Hnext.
  destruct (test regex text) as [found regex']. simpl in *.
  apply IH; [congruence | assumption |].
  destruct found; [|assumption].
  apply Forall_app. split; [assumption|]. constructor; [|constructor].
  apply HP; [assumption|]. rewrite <- Hre. now apply Hfresh.
Qed.

Lemma searchInContent_sound (filePath content query : string)
    (caseSensitive wholeWord : bool) (ctx : number) :
  Forall (fun r =>
            file r = filePath
            /\ (1 <= line r)%Z
            /\ nth_error (JsString.split RangeReader.LF content) (Z.to_nat (line r - 1))
               = Some (Search.content r)
            /\ lineMatches query caseSensitive wholeWord (Search.content r) = true)
         (searchInContent filePath content query caseSensitive wholeWord ctx []).
Proof.
  unfold searchInContent.
  set (re0 := newRegExp _ _).
  apply (scanLines_sound filePath _ ctx re0); try reflexivity; [|constructor].
  intros i text before after Hnth Htest. simpl.
  split; [reflexivity|]. split; [lia|]. split.
  - replace (Z.to_nat (Z.of_nat i + 1 - 1)) with i by lia. exact Hnth.
  - exact Htest.
Qed.

Lemma scanLines_keeps (filePath : string) (lines : list string) (ctx : number)
    (r : SearchResult) :
  forall todo i regex results,
    In r results -> In r (scanLines filePath lines ctx todo i regex results).
Proof.
  induction todo as [|text rest IH]; intros i regex results Hin; simpl;
    [exact Hin|].
  destruct (test regex text) as [found regex']. apply IH.
  destruct found; [|exact Hin]. apply in_or_app. now left.
Qed.

(** A matching line is reported whenever the expression reaches it with
    [lastIndex] at 0. *)
Lemma scanLines_reports_head (filePath : string) (lines : list string) (ctx : number)
    (text : string) (rest : list string) (i : nat) (regex : RegExp)
    (results : list SearchResult) :
  lastIndex regex = 0 ->
  fst (test (fresh regex) text) = true ->
  exists r,
    In r (scanLines filePath lines ctx (text :: rest) i regex results)
    /\ line r = (Z.of_nat i + 1)%Z /\ Search.content r = text.
Proof.
  intros Hzero Htest. simpl.
  assert (E : fresh regex = regex) by (destruct regex; simpl in *; now subst).
  rewrite E in Htest.
  destruct (test regex text) as [found regex']. simpl in Htest. subst found.
  eexists. split.
  - apply scanLines_keeps, in_or_app. right. left. reflexivity.
  - split; reflexivity.
Qed.

(** So a matching line that follows a line without a match is always
    reported: only a line that follows a match can be skipped. *)
Lemma scanLines_after_non_match (filePath : string) (lines : list string)
    (ctx : number) (re0 : RegExp) (a b : string) (post : list string) :
  fst (test (fresh re0) a) = false ->
  fst (test (fresh re0) b) = true ->
  forall pre i regex results,
    fresh regex = fresh re0 ->
    exists r,
      In r (scanLines filePath lines ctx (pre ++ a :: b :: post) i regex results)
      /\ line r = (Z.of_nat (i + List.length pre + 1) + 1)%Z
      /\ Search.content r = b.
Proof.
  intros Ha Hb. induction pre as [|x pre IH]; intros i regex results Hre.
  - simpl app. cbn [scanLines].
    assert (Hfail : fst (test regex a) = false).
    { destruct (fst (test regex a)) eqn:E; [|reflexivity].
      apply test_true_fresh in E. congruence. }
    pose proof (test_false_resets regex a Hfail) as Hreset.
    destruct (test regex a) as [found regex']. simpl in Hfail, Hreset. subst found regex'.
    destruct (scanLines_reports_head filePath lines ctx b post (S i) (fresh regex)
                results eq_refl) as (r & Hin & Hline & Hcontent).
    + now rewrite Hre in *.
    + exists r. split; [exact Hin|]. split; [|exact Hcontent].
      rewrite Hline. simpl List.length. lia.
  - simpl app. cbn [scanLines].
    pose proof (test_fresh regex x) as Hnext.
    destruct (test regex x) as [found regex']. simpl in Hnext.
    destruct (IH (S i) regex'
                 (if found
                  then results ++
                       [{| file := filePath; line := Z.of_nat i + 1; content := x;
                           contextBefore :=
                             JsArray.slice lines (Z.max 0 (Z.of_nat i - ctx)) (Z.of_nat i);
                           contextAfter :=
                             JsArray.slice lines (Z.of_nat i + 1) (Z.of_nat i + 1 + ctx) |}]
                  else results))
      as (r & Hin & Hline & Hcontent); [congruence|].
    exists r. split; [exact Hin|]. split; [|exact Hcontent].
    rewrite Hline. simpl List.length. lia.
Qed.

(** The expression is compiled with the [g] flag, so [test] resumes at
    [lastIndex]: after a match in one line, the next line is searched from
    the index where that match ended. *)
Example test_is_stateful :
  let re := newRegExp (escapeRegExp "foo") true in
  fst (test re "foo") = true
  /\ lastIndex (snd (test re "foo")) = 3
  /\ fst (test (snd (test re "foo")) "foo") = false
  /\ fst (test (snd (test re "foo")) "a foo") = false
  /\ fst (test (snd (test re "foo")) "see foo") = true.
Proof. vm_compute. repeat split; reflexivity. Qed.

(** C2 (the code departs from the claim): in a file whose two lines are
    both ['foo'], both lines match the query ['foo'], yet [searchInFile]
    reports line 1 only; the same holds through [searchInFiles] over a
    root that contains the file. *)
Theorem searchInFile_skips_consecutive_match :
  let content := "foo" +++ Demo.nl +++ "foo" in
  matchingLines "foo" false false content = [1%Z; 2%Z]
  /\ searchInContent "/r/sub/twice.txt" content "foo" false false 2 []
     = [ {| file := "/r/sub/twice.txt"; line := 1; content := "foo";
            contextBefore := []; contextAfter := ["foo"] |} ]
  /\ fst (searchInFiles (Demo.host Demo.tree) ["/r/sub"]
            {| query := "foo"; filePattern := None; caseSensitive := None;
               wholeWord := None; contextLines := Some 0%Z; maxDepth := None |}
            Demo.start)
     = Ok [ {| file := "/r/sub/twice.txt"; line := 1; content := "foo";
               contextBefore := []; contextAfter := [] |} ].
Proof. vm_compute. repeat split; reflexivity. Qed.

(** The specification's end-to-end scenario holds: one match in [a.txt],
    with one line of context on each side, and nothing from the ignored
    directory. *)
Example search_scenario :
  fst (searchInFiles
         (Demo.host [ ("/r", Demo.DirNode ["a.txt"; ".gitignore"; "skip"]);
                      ("/r/a.txt", Demo.file ("x" +++ Demo.nl +++ "foo" +++ Demo.nl +++ "y"));
                      ("/r/.gitignore", Demo.file ("skip" +++ Demo.nl));
                      ("/r/skip", Demo.DirNode ["b.txt"]);
                      ("/r/skip/b.txt", Demo.file "foo") ])
         ["/r"]
         {| query := "foo"; filePattern := None; caseSensitive := None;
            wholeWord := None; contextLines := Some 1%Z; maxDepth := None |}
         Demo.start)
  = Ok [ {| file := "/r/a.txt"; line := 2; content := "foo";
            contextBefore := ["x"]; contextAfter := ["y"] |} ].
Proof. vm_compute. reflexivity. Qed.

End SearchFacts.

(** ** Name patterns *)

Section PatternFacts.
Import Walker.

Lemma replaceAll_app (c : ascii) (by_ a b : string) :
  replaceAll c by_ (a +++ b) = replaceAll c by_ a +++ replaceAll c by_ b.
Proof.
  induction a as [|x a IH]; simpl; [reflexivity|].
  destruct (Ascii.eqb x c); rewrite IH; [now rewrite append_assoc | reflexivity].
Qed.

Lemma patternSource_cons (c : ascii) (p : string) :
  patternSource (String c p) = patternSource (String c "") +++ patternSource p.
Proof.
  unfold patternSource.
  change (String c p) with (String c "" +++ p).
  now rewrite !replaceAll_app.
Qed.

(** What one character of the pattern becomes in the source. *)
Lemma patternSource_char (c : ascii) :
  patternSource (String c "")
  = if Ascii.eqb c "." then "\."
    else if Ascii.eqb c "*" then ".*"
    else if Ascii.eqb c "?" then "."
    else String c "".
Proof.
  unfold patternSource.
  destruct (Ascii.eqb_spec c ".") as [->|N1]; [reflexivity|].
  destruct (Ascii.eqb_spec c "*") as [->|N2]; [reflexivity|].
  destruct (Ascii.eqb_spec c "?") as [->|N3]; [reflexivity|].
  apply Ascii.eqb_neq in N1, N2, N3. simpl. rewrite N1. simpl. rewrite N2. simpl.
  now rewrite N3.
Qed.

(** The source never starts with a bare ['*']. *)
Lemma patternSource_head (p : string) :
  match patternSource p with
  | String d _ => Ascii.eqb d "*" = false
  | EmptyString => True
  end.
Proof.
  destruct p as [|c p]; [exact I|].
  rewrite patternSource_cons, patternSource_char.
  destruct (Ascii.eqb c "."); [reflexivity|].
  destruct (Ascii.eqb c "*") eqn:E; [reflexivity|].
  destruct (Ascii.eqb c "?"); [reflexivity|]. exact E.
Qed.

(** A plain pattern compiles to one token per character. *)
Lemma parse_patternSource (p : string) :
  Glob.plainPattern p = true ->
  Glob.parseSource (patternSource p) = Some (Glob.tokensOf p).
Proof.
  induction p as [|c p IH]; [reflexivity|].
  simpl Glob.plainPattern. intros H. apply andb_prop in H as [Hc Hp].
  specialize (IH Hp). rewrite patternSource_cons, patternSource_char.
  pose proof (patternSource_head p) as Hhead.
  unfold Glob.tokensOf; fold Glob.tokensOf. unfold Glob.tokenOf.
  destruct (Ascii.eqb_spec c ".") as [->|N1].
  { simpl. now rewrite IH. }
  destruct (Ascii.eqb_spec c "*") as [->|N2].
  { simpl. now rewrite IH. }
  destruct (Ascii.eqb_spec c "?") as [->|N3].
  { change ("." +++ patternSource p) with (String "." (patternSource p)).
    cbn [Glob.parseSource]. simpl (Ascii.eqb "." _).
    destruct (patternSource p) as [|d r] eqn:E.
    - simpl in IH. injection IH as <-. reflexivity.
    - rewrite Hhead. now rewrite IH. }
  apply Ascii.eqb_neq in N1, N2, N3.
  unfold Glob.plainChar in Hc. apply negb_true_iff in Hc. simpl in Hc.
  repeat (apply orb_false_elim in Hc as [? Hc]).
  change (String c "" +++ patternSource p) with (String c (patternSource p)).
  cbn [Glob.parseSource]. unfold Glob.isMeta. simpl existsb.
  repeat match goal with
         | E : Ascii.eqb c _ = false |- _ => rewrite E; clear E
         end.
  simpl. now rewrite IH.
Qed.

(** A name that the glob matches as a whole is matched by the tokens at its
    start. *)
Lemma globMatch_matchTokens (p : string) :
  forall n, Glob.oneLine n = true -> Glob.globMatch p n = true ->
            Glob.matchTokens (Glob.tokensOf p) n = true.
Proof.
  induction p as [|c p IH]; intros n Hn Hm; [reflexivity|].
  cbn [Glob.tokensOf]. unfold Glob.tokenOf. cbn [Glob.globMatch] in Hm.
  destruct (Ascii.eqb c "*").
  - cbn [Glob.matchTokens].
    induction n as [|a r IHn].
    + rewrite orb_false_r in Hm. now rewrite (IH "" Hn Hm).
    + simpl in Hn. apply andb_prop in Hn as [Ha Hr].
      apply orb_prop in Hm as [Hm|Hm].
      * rewrite (IH (String a r)); [reflexivity | simpl; now rewrite Ha, Hr | exact Hm].
      * apply orb_true_intro. right. unfold Glob.dotMatches. rewrite Ha.
        now apply IHn.
  - destruct n as [|a r]; [discriminate|].
    simpl in Hn. apply andb_prop in Hn as [Ha Hr].
    apply andb_prop in Hm as [Hc Hm].
    destruct (Ascii.eqb c "?"); cbn [Glob.matchTokens].
    + unfold Glob.dotMatches. rewrite Ha. now apply IH.
    + cbn [orb] in Hc. rewrite Hc. now apply IH.
Qed.

(** Half of the glob reading does hold: for a plain pattern, a name that
    the glob matches as a whole passes [matchesPattern]; the expression
    accepts more names than those. *)
Lemma globMatch_accepted (h : Host) (p n : string) :
  regexpTest h = Glob.regexpTest ->
  Glob.plainPattern p = true -> Glob.oneLine n = true ->
  Glob.globMatch p n = true ->
  matchesPattern h n p = Ok true.
Proof.
  intros Hengine Hp Hn Hm. unfold matchesPattern. rewrite Hengine.
  unfold Glob.regexpTest. rewrite parse_patternSource by assumption.
  f_equal. destruct n; simpl; now rewrite globMatch_matchTokens.
Qed.

(** C8 (the code departs from the claim): the expression built from the
    pattern is not anchored, so [matchesPattern] accepts a name that merely
    contains a match.  With the pattern ['*.js'] the file ['data.json'],
    which the glob does not match as a whole, is listed. *)
Theorem matchesPattern_is_unanchored :
  Glob.globMatch "*.js" "data.json" = false
  /\ patternSource "*.js" = ".*\.js"
  /\ matchesPattern (Demo.host Demo.tree) "data.json" "*.js" = Ok true
  /\ exists info,
       In info (match fst (listFiles (Demo.host Demo.tree) "/r"
                             {| pattern := Some "*.js"; recursive := None;
                                maxDepth := None; includeHidden := None |}
                             Demo.start) with
                | Ok l => l
                | Throw _ => []
                end)
       /\ name info = "data.json" /\ isDirectory info = false.
Proof.
  split; [reflexivity|]. split; [reflexivity|]. split; [reflexivity|].
  eexists. split.
  - vm_compute. right. left. reflexivity.
  - split; reflexivity.
Qed.

End PatternFacts.

(** ** IgnoreMatcher: how often the ignore file is read *)

Section IgnoreLoadFacts.
Import Walker.
Variable f : string -> bool.
Variable h : Host.

Lemma walkEntries_reads (maxDepth : number) (recursive includeHidden : bool)
    (pattern : option string) (matcher : Ignore) (basePath : string)
    (walk : string -> list FileInfo -> number -> World -> list FileInfo * World)
    (dirPath : string) (currentDepth : number) :
  (forall p rs d w, countReads f (trace (snd (walk p rs d w))) = countReads f (trace w)) ->
  forall entries results w,
    countReads f (trace (snd (walkEntries h recursive includeHidden pattern matcher
                                basePath walk dirPath currentDepth entries results w)))
    = countReads f (trace w).
Proof.
  intros Hwalk. induction entries as [|entry rest IH]; intros results w; simpl;
    [reflexivity|].
  destruct (negb includeHidden && JsString.startsWith entry "."); [apply IH|].
  destruct (ignores h matcher _); [apply IH|].
  pose proof (getFileInfo_reads f h (Path.pathJoin [dirPath; entry]) w) as Hinfo.
  destruct (Metadata.getFileInfo h _ w) as [[info|e] w']; simpl in Hinfo;
    [|exact Hinfo].
  destruct (isDirectory info).
  - destruct recursive.
    + specialize (Hwalk (Path.pathJoin [dirPath; entry]) (results ++ [info])
                        (currentDepth + 1)%Z w').
      destruct (walk _ _ _ w') as [rs w'']. simpl in Hwalk.
      rewrite IH. congruence.
    + rewrite IH. exact Hinfo.
  - destruct (filteredOut h pattern (name info)) as [[|]|e]; simpl;
      try rewrite IH; exact Hinfo.
Qed.

(** A walk reads no file content: it lists directories and stats entries. *)
Lemma walkDirectory_reads (maxDepth : number) (recursive includeHidden : bool)
    (pattern : option string) (matcher : Ignore) (basePath : string) (fuel : nat) :
  forall dirPath results currentDepth w,
    countReads f (trace (snd (walkDirectory h maxDepth recursive includeHidden pattern
                                matcher basePath fuel dirPath results currentDepth w)))
    = countReads f (trace w).
Proof.
  induction fuel as [|fuel IH]; intros dirPath results currentDepth w; simpl.
  - now destruct (currentDepth >? maxDepth)%Z.
  - destruct (currentDepth >? maxDepth)%Z; [reflexivity|].
    unfold readdir.
    destruct (fsReaddir (fs h) dirPath) as [entries|e]; simpl.
    + pose proof (walkEntries_reads maxDepth recursive includeHidden pattern matcher
                    basePath _ dirPath currentDepth IH entries results
                    (emit (EvReaddir dirPath) w)) as Hloop.
      destruct (walkEntries _ _ _ _ _ _ _ _ _ _ _ _) as [[[u|e] rs] w2];
        simpl in *; rewrite ?countReads_snoc, Hloop, countReads_snoc; simpl; lia.
    + rewrite !countReads_snoc. simpl. lia.
Qed.

(** Loading the matcher reads the ignore file once, found or not. *)
Lemma loadIgnoreMatcher_reads (rootPath : string) (w : World) :
  countReads f (trace (snd (loadIgnoreMatcher h rootPath w)))
  = countReads f (trace w) + (if f (ignoreFile rootPath) then 1 else 0).
Proof.
  unfold loadIgnoreMatcher, tryCatch, bind, readFile.
  destruct (fsReadFile (fs h) (ignoreFile rootPath) "utf-8"); simpl;
    now rewrite countReads_snoc.
Qed.

Lemma loadIgnoreMatcher_result (rootPath : string) (w : World) :
  fst (loadIgnoreMatcher h rootPath w) = Ok (rootMatcher h rootPath).
Proof.
  unfold loadIgnoreMatcher, rootMatcher, tryCatch, bind, readFile.
  now destruct (fsReadFile (fs h) (ignoreFile rootPath) "utf-8").
Qed.

Lemma listFiles_reads (rootPath : string) (options : ListFilesOptions) (w : World) :
  countReads f (trace (snd (listFiles h rootPath options w)))
  = countReads f (trace w) + (if f (ignoreFile rootPath) then 1 else 0).
Proof.
  unfold listFiles, bind.
  pose proof (loadIgnoreMatcher_reads rootPath w) as Hload.
  pose proof (loadIgnoreMatcher_result rootPath w) as Hres.
  destruct (loadIgnoreMatcher h rootPath w) as [[ig|e] w1]; simpl in *;
    [|discriminate].
  pose proof (walkDirectory_reads (orDefault (maxDepth options) 10%Z)
                (orDefault (recursive options) true)
                (orDefault (includeHidden options) false) (pattern options) ig
                rootPath (walkFuel (orDefault (maxDepth options) 10%Z))
                rootPath [] 0%Z w1) as Hwalk.
  destruct (walkDirectory _ _ _ _ _ _ _ _ _ _ _ w1) as [rs w2]. simpl in *.
  congruence.
Qed.

Lemma treeChildren_reads (includeHidden : bool) (basePath : string)
    (subtree : string -> M Walker.DirTreeNode) (ig : Ignore) (rootPath : string) :
  (forall p w, countReads f (trace (snd (subtree p w))) = countReads f (trace w)) ->
  forall entries children w,
    countReads f (trace (snd (treeChildren h includeHidden basePath subtree ig rootPath
                                entries children w)))
    = countReads f (trace w).
Proof.
  intros Hsub. induction entries as [|entry rest IH]; intros children w; simpl;
    [reflexivity|].
  destruct (negb includeHidden && JsString.startsWith entry "."); [apply IH|].
  destruct (ignores h ig _); [apply IH|].
  unfold bind. specialize (Hsub (Path.pathJoin [rootPath; entry]) w).
  destruct (subtree _ w) as [[child|e] w']; simpl in Hsub; [|exact Hsub].
  rewrite IH. exact Hsub.
Qed.

(** Below the first call, which hands its matcher down, building the tree
    reads no file. *)
Lemma getDirectoryTree_reads (maxDepth : number) (includeHidden : bool)
    (basePath : string) (fuel : nat) :
  forall rootPath currentDepth ig w,
    countReads f (trace (snd (getDirectoryTree h maxDepth includeHidden basePath fuel
                                rootPath currentDepth (Some ig) w)))
    = countReads f (trace w).
Proof.
  induction fuel as [|fuel IH]; intros rootPath currentDepth ig w.
  - simpl. unfold bind, ret. 
    pose proof (getFileInfo_reads f h rootPath w) as Hinfo.
    destruct (Metadata.getFileInfo h rootPath w) as [[info|e] w1]; simpl in *;
      [|exact Hinfo].
    now destruct (negb (isDirectory info) || (currentDepth >=? maxDepth)%Z).
  - simpl. unfold bind at 1 2. unfold ret at 1.
    pose proof (getFileInfo_reads f h rootPath w) as Hinfo.
    destruct (Metadata.getFileInfo h rootPath w) as [[info|e] w1]; simpl in Hinfo;
      [|exact Hinfo].
    destruct (negb (isDirectory info) || (currentDepth >=? maxDepth)%Z);
      [exact Hinfo|].
    unfold tryCatch, bind, readdir.
    destruct (fsReaddir (fs h) rootPath) as [entries|e]; simpl.
    + pose proof (treeChildren_reads includeHidden basePath
                    (fun fullPath => getDirectoryTree h maxDepth includeHidden basePath
                                       fuel fullPath (currentDepth + 1)%Z (Some ig))
                    ig rootPath (fun p w0 => IH p _ ig w0) entries []
                    (emit (EvReaddir rootPath) w1)) as Hloop.
      destruct (treeChildren _ _ _ _ _ _ _ _ _) as [[children|e] w2];
        simpl in *; rewrite Hloop, countReads_snoc; simpl; lia.
    + rewrite countReads_snoc. simpl. lia.
Qed.

Lemma directoryTree_reads (rootPath : string) (maxDepth : option number)
    (includeHidden : option bool) (w : World) :
  countReads f (trace (snd (directoryTree h rootPath maxDepth includeHidden w)))
  = countReads f (trace w) + (if f (ignoreFile rootPath) then 1 else 0).
Proof.
  unfold directoryTree.
  set (d := orDefault maxDepth 10%Z). set (hid := orDefault includeHidden false).
  pose proof (loadIgnoreMatcher_reads rootPath w) as Hload.
  pose proof (loadIgnoreMatcher_result rootPath w) as Hres.
  pose proof (fun fuel => getDirectoryTree_reads d hid rootPath fuel rootPath 0%Z
                            (rootMatcher h rootPath)
                            (snd (loadIgnoreMatcher h rootPath w))) as Hsub.
  destruct (treeFuel d) as [|fuel].
  - specialize (Hsub 0). simpl in *. unfold bind at 1 in Hsub. unfold bind at 1.
    unfold ret at 1 in Hsub.
    destruct (loadIgnoreMatcher h rootPath w) as [[ig|e] w1]; simpl in *;
      [|discriminate].
    congruence.
  - specialize (Hsub (S fuel)). simpl in *. unfold bind at 1 in Hsub. unfold bind at 1.
    unfold ret at 1 in Hsub.
    destruct (loadIgnoreMatcher h rootPath w) as [[ig|e] w1]; simpl in *;
      [|discriminate].
    injection Hres as ->. congruence.
Qed.

End IgnoreLoadFacts.

Section IgnoreLoadClaims.
Import Walker.

(** C7, as amended: nothing is memoized.  Every call of [listFiles] and
    every call of [getDirectoryTree] made by a tool reads the ignore file of
    its root exactly once, found or not, and reads no other file: the
    matcher loaded at the start serves the whole traversal, however many
    directories it visits, and is dropped when the call returns. *)
Theorem ignore_file_read_once_per_call (h : Host) (rootPath : string)
    (options : ListFilesOptions) (maxDepth : option number)
    (includeHidden : option bool) (w : World) :
  (readsOf (ignoreFile rootPath) (trace (snd (listFiles h rootPath options w)))
   = readsOf (ignoreFile rootPath) (trace w) + 1
   /\ contentReads (trace (snd (listFiles h rootPath options w)))
      = contentReads (trace w) + 1)
  /\ (readsOf (ignoreFile rootPath)
        (trace (snd (directoryTree h rootPath maxDepth includeHidden w)))
      = readsOf (ignoreFile rootPath) (trace w) + 1
      /\ contentReads (trace (snd (directoryTree h rootPath maxDepth includeHidden w)))
         = contentReads (trace w) + 1).
Proof.
  unfold readsOf, contentReads.
  rewrite !listFiles_reads, !directoryTree_reads.
  now rewrite String.eqb_refl.
Qed.

End IgnoreLoadClaims.

(** C7, as stated, fails: two listings of the same root in one process read
    its ignore file twice. *)
Lemma ignore_file_read_again :
  let h := Demo.host Demo.tree in
  let w1 := snd (Walker.listFiles h "/r" Walker.noOptions Demo.start) in
  let w2 := snd (Walker.listFiles h "/r" Walker.noOptions w1) in
  readsOf "/r/.gitignore" (trace w1) = 1
  /\ readsOf "/r/.gitignore" (trace w2) = 2.
Proof. vm_compute. split; reflexivity. Qed.

(** ** DirectoryWalker: ignored directories are pruned *)

Section WalkerPaths.
Import JsString Path.

Lemma fold_normalized (segs : list string) :
  Forall (fun s => segOk s = true) segs ->
  fold_left (normStep false) (split slash (canon segs)) [] = rev segs.
Proof.
  intros H. pose proof (split_canon segs H) as E. unfold normalizeSegments in E.
  rewrite <- E at 2. now rewrite rev_involutive.
Qed.

Lemma join_canon_nonempty (x : string) (xs : list string) :
  segOk x = true -> join sep (x :: xs) <> "".
Proof. intros H. apply join_nonempty. now destruct (segOk_plain x). Qed.

(** [join(dirPath, entry)] appends the entry to a canonical directory. *)
Lemma pathJoin_canon (segs : list string) (entry : string) :
  Forall (fun s => segOk s = true) segs -> segOk entry = true ->
  pathJoin [canon segs; entry] = canon (segs ++ [entry]).
Proof.
  intros Hsegs He. destruct (segOk_plain entry He) as (Hne & _).
  unfold pathJoin. simpl filter.
  apply String.eqb_neq in Hne as Hne'. rewrite Hne'. simpl negb. cbv iota.
  change (join "/" [canon segs; entry]) with (canon segs +++ String slash entry).
  unfold normalize.
  assert (Hsplit : normalizeSegments false (split slash (canon segs +++ String slash entry))
                   = segs ++ [entry]).
  { rewrite split_app, (split_lacks _ _ (segOk_lacks _ He)).
    unfold normalizeSegments. rewrite fold_left_app, fold_normalized by assumption.
    simpl fold_left. rewrite normStep_push by assumption.
    simpl. now rewrite rev_involutive. }
  assert (Habs : isAbsolute (canon segs +++ String slash entry) = true) by reflexivity.
  rewrite Habs. simpl negb. unfold normalizeString. rewrite Hsplit.
  assert (Hnonempty : join sep (segs ++ [entry]) <> "").
  { destruct segs as [|x xs]; simpl app.
    - now apply join_canon_nonempty.
    - inversion Hsegs; subst. now apply join_canon_nonempty. }
  apply String.eqb_neq in Hnonempty as Hn'. rewrite Hn'.
  assert (Hend : endsWithSep (canon segs +++ String slash entry) = false).
  { rewrite endsWithSep_app by discriminate.
    change (String slash entry) with ("/" +++ entry).
    rewrite endsWithSep_app by assumption.
    now apply endsWithSep_lacks, segOk_lacks. }
  rewrite Hend.
  destruct (canon segs +++ String slash entry =? "")%string eqn:E; [|reflexivity].
  apply String.eqb_eq in E. discriminate.
Qed.

(** [resolve] leaves a canonical path as it is, whatever the working
    directory. *)
Lemma resolve_canon_id (cwd : string) (segs : list string) :
  Forall (fun s => segOk s = true) segs -> resolve cwd [canon segs] = canon segs.
Proof.
  intros H. unfold resolve. simpl rev. simpl app.
  change (resolveLoop [canon segs; cwd] "")
    with (canon segs +++ "/" +++ "", true).
  unfold normalizeString, canon at 2. f_equal. f_equal.
  change (canon segs +++ "/" +++ "") with (canon segs +++ String slash "").
  rewrite split_app. unfold normalizeSegments.
  rewrite fold_left_app, fold_normalized by assumption.
  simpl. unfold normStep. simpl. now rewrite rev_involutive.
Qed.

Lemma canon_inj (a b : list string) :
  Forall (fun s => segOk s = true) a -> Forall (fun s => segOk s = true) b ->
  canon a = canon b -> a = b.
Proof.
  intros Ha Hb E. apply (f_equal segmentsOf) in E.
  now rewrite !segmentsOf_canon in E.
Qed.

Lemma dropCommon_prefix (bs rest : list string) :
  dropCommon bs (bs ++ rest) = ([], rest).
Proof.
  induction bs as [|x xs IH]; simpl.
  - now destruct rest.
  - now rewrite String.eqb_refl.
Qed.

(** [relative(basePath, fullPath)] is the path of the entry below the
    root. *)
Lemma relative_canon (cwd : string) (bs rest : list string) :
  Forall (fun s => segOk s = true) bs -> Forall (fun s => segOk s = true) rest ->
  rest <> [] ->
  relative cwd (canon bs) (canon (bs ++ rest)) = join "/" rest.
Proof.
  intros Hbs Hrest Hne.
  assert (Hall : Forall (fun s => segOk s = true) (bs ++ rest))
    by (apply Forall_app; now split).
  assert (Hdiff : (canon bs =? canon (bs ++ rest))%string = false).
  { apply String.eqb_neq. intros E. apply canon_inj in E; try assumption.
    apply Hne. apply (app_inv_head bs). now rewrite app_nil_r. }
  unfold relative. rewrite Hdiff, !resolve_canon_id, Hdiff by assumption.
  rewrite !segmentsOf_canon by assumption.
  now rewrite dropCommon_prefix.
Qed.

End WalkerPaths.

Section CacheEntries.
Import Cache.
Context {T : Type}.
Implicit Types (m : JsMap T) (c : LRUCache T).

Lemma In_mapDelete (key : string) (kv : string * CacheEntry T) m :
  In kv (mapDelete key m) -> In kv m.
Proof. unfold mapDelete. intros H. now apply filter_In in H. Qed.

Lemma In_mapSet (key : string) (e : CacheEntry T) (kv : string * CacheEntry T) m :
  In kv (mapSet key e m) -> kv = (key, e) \/ In kv m.
Proof.
  induction m as [|[k v] m IH]; simpl.
  - intros [<-|[]]. now left.
  - destruct (String.eqb_spec k key) as [->|N]; simpl.
    + intros [<-|H]; [now left | right; now right].
    + intros [<-|H]; [right; now left|].
      destruct (IH H) as [->|H']; [now left | right; now right].
Qed.

Lemma mapGet_entry (key : string) (e : CacheEntry T) m :
  mapGet key m = Some e -> In (key, e) m.
Proof.
  unfold mapGet. destruct (find _ m) as [[k v]|] eqn:E; [|discriminate].
  simpl. intros [= ->]. apply find_some in E as [H E]. simpl in E.
  apply String.eqb_eq in E. now subst.
Qed.

(** A [get] adds no entry, and what it returns is the value stored under
    the key. *)
Lemma get_entries c (now : number) (key : string) :
  (forall kv, In kv (cache (snd (get c now key))) -> In kv (cache c))
  /\ (forall v, fst (get c now key) = Some v ->
                exists e, In (key, e) (cache c) /\ value e = v).
Proof.
  unfold get. destruct (mapGet key (cache c)) as [entry|] eqn:G.
  - apply mapGet_entry in G.
    destruct (now >? expires entry)%Z; simpl; split.
    + intros kv. apply In_mapDelete.
    + discriminate.
    + intros kv H. apply In_mapSet in H as [->|H]; [assumption|].
      now apply In_mapDelete in H.
    + intros v [= <-]. now exists entry.
  - simpl. split; [auto | discriminate].
Qed.

(** After a [set], an entry is an old one or the one just stored. *)
Lemma set_entries c (now : number) (key : string) (v : T) (k : string)
    (e : CacheEntry T) :
  In (k, e) (cache (set c now key v)) ->
  In (k, e) (cache c) \/ (k = key /\ value e = v).
Proof.
  assert (Hins : In (k, e) (inserted c now key v) ->
                 In (k, e) (cache c) \/ (k = key /\ value e = v)).
  { unfold inserted. intros H. apply In_mapSet in H as [[= -> ->]|H].
    - right. now split.
    - left. destruct (mapHas key (cache c)); [now apply In_mapDelete in H | exact H]. }
  unfold set. destruct (mapSize _ >? maxSize c)%Z; [|exact Hins].
  destruct (firstKey _); simpl; [|exact Hins].
  intros H. apply In_mapDelete in H. now apply Hins.
Qed.

End CacheEntries.

Section WalkerCache.
Import Walker.

Lemma cacheSound_emit (ev : Event) (w : World) : cacheSound w -> cacheSound (emit ev w).
Proof. exact (fun H => H). Qed.

(** [getFileInfo] returns the metadata of the path it was asked, fresh or
    cached, and keeps the cache sound. *)
Lemma getFileInfo_sound (h : Host) (p : string) (w : World) :
  cacheSound w ->
  cacheSound (snd (Metadata.getFileInfo h p w))
  /\ forall info, fst (Metadata.getFileInfo h p w) = Ok info -> path info = p.
Proof.
  intros Hw. unfold Metadata.getFileInfo, bind, Metadata.cacheGet.
  destruct (get_entries (metadataCache w) (now w) p) as [Hsub Hval].
  destruct (Cache.get (metadataCache w) (now w) p) as [cached c]. simpl in *.
  assert (Hc : cacheSound (withCache c w)).
  { intros k e H. apply Hw. now apply Hsub. }
  destruct cached as [info|].
  - split; [exact Hc|]. simpl. intros info' [= <-].
    destruct (Hval info eq_refl) as (e & Hin & <-). now apply Hw.
  - unfold tryCatch, bind, stat, Metadata.cacheSet, ret, throw. simpl.
    destruct (fsStat (fs h) p) as [stats|e]; simpl.
    + split; [|now intros info [= <-]].
      intros k e H. simpl in H. apply set_entries in H as [H|[-> ->]].
      * now apply Hc.
      * reflexivity.
    + split; [exact Hc | discriminate].
Qed.

Lemma loadIgnoreMatcher_cache (h : Host) (rootPath : string) (w : World) :
  cacheSound w -> cacheSound (snd (loadIgnoreMatcher h rootPath w)).
Proof.
  unfold loadIgnoreMatcher, tryCatch, bind, readFile.
  now destruct (fsReadFile (fs h) (ignoreFile rootPath) "utf-8").
Qed.

End WalkerCache.

Section IgnoredPrefixes.
Import Walker JsString.
Variables (h : Host) (ig : Ignore).

Lemma notIgnoredAlong_snoc (ds : list string) (entry : string) :
  notIgnoredAlong h ig ds = true ->
  ignores h ig (join "/" (ds ++ [entry])) = false ->
  notIgnoredAlong h ig (ds ++ [entry]) = true.
Proof.
  unfold notIgnoredAlong. intros Hds He.
  rewrite length_app. simpl List.length. rewrite seq_app, forallb_app.
  replace (seq (1 + List.length ds) 1) with [S (List.length ds)] by reflexivity.
  cbn [forallb]. rewrite andb_true_r. apply andb_true_intro. split.
  - rewrite forallb_forall in *. intros j Hj. specialize (Hds j Hj).
    apply in_seq in Hj. rewrite firstn_app.
    replace (j - List.length ds) with 0 by lia. simpl. now rewrite app_nil_r.
  - rewrite firstn_all2 by (rewrite length_app; simpl; lia). now rewrite He.
Qed.

Lemma notIgnoredAlong_prefix (d rest : list string) :
  d <> [] -> notIgnoredAlong h ig (d ++ rest) = true ->
  ignores h ig (join "/" d) = false.
Proof.
  unfold notIgnoredAlong. intros Hd H. rewrite forallb_forall in H.
  specialize (H (List.length d)). rewrite firstn_app, Nat.sub_diag in H.
  rewrite firstn_all in H. simpl in H. rewrite app_nil_r in H.
  apply negb_true_iff, H, in_seq. rewrite length_app.
  destruct d; [congruence | simpl; lia].
Qed.

End IgnoredPrefixes.

Section WalkerVisits.
Import Walker JsString Path.
Variable h : Host.
Variable ig : Ignore.
Variable bs : list string.
Hypothesis fs_ok : fsNamesOk h.
Hypothesis bs_ok : Forall (fun s => segOk s = true) bs.

#[local] Abbreviation walkGood := (Walker.walkGood h ig bs).
#[local] Abbreviation treeGood := (Walker.treeGood h ig bs).

(** The entry [entry] of the directory of relative segments [ds]: its full
    and relative paths as the loops compute them. *)
Lemma entry_paths (ds : list string) (entry : string) :
  Forall (fun s => segOk s = true) ds -> segOk entry = true ->
  pathJoin [canon (bs ++ ds); entry] = canon (bs ++ (ds ++ [entry]))
  /\ relative (cwd h) (canon bs) (canon (bs ++ (ds ++ [entry])))
     = join "/" (ds ++ [entry]).
Proof.
  intros Hds He. split.
  - rewrite pathJoin_canon; [now rewrite <- app_assoc | | assumption].
    apply Forall_app. now split.
  - apply relative_canon; [assumption | | now destruct ds].
    apply Forall_app. split; [assumption | now constructor].
Qed.

Lemma visited_entry (ds : list string) (entry : string) (info : FileInfo) :
  Forall (fun s => segOk s = true) ds -> segOk entry = true ->
  notIgnoredAlong h ig ds = true ->
  ignores h ig (join "/" (ds ++ [entry])) = false ->
  path info = canon (bs ++ (ds ++ [entry])) ->
  visited h ig bs info.
Proof.
  intros Hds He Hclear Hig Hpath. exists (ds ++ [entry]).
  split; [now destruct ds|]. split; [|split].
  - apply Forall_app. split; [assumption | now constructor].
  - exact Hpath.
  - now apply notIgnoredAlong_snoc.
Qed.

Section Flat.
Variables (maxDepth : number) (recursive includeHidden : bool).
Variable pattern : option string.

Lemma walkEntries_visited
    (walk : string -> list FileInfo -> number -> World -> list FileInfo * World)
    (ds : list string) (currentDepth : number) :
  Forall (fun s => segOk s = true) ds ->
  notIgnoredAlong h ig ds = true ->
  (forall ds' rs d w,
      Forall (fun s => segOk s = true) ds' -> notIgnoredAlong h ig ds' = true ->
      walkGood rs w ->
      walkGood (fst (walk (canon (bs ++ ds')) rs d w))
               (snd (walk (canon (bs ++ ds')) rs d w))) ->
  forall entries, Forall (fun n => segOk n = true) entries ->
  forall results w, walkGood results w ->
    let out := walkEntries h recursive includeHidden pattern ig (canon bs) walk
                           (canon (bs ++ ds)) currentDepth entries results w in
    walkGood (snd (fst out)) (snd out).
Proof.
  intros Hds Hclear Hwalk.
  induction entries as [|entry rest IH]; intros Hentries results w Hgood; simpl.
  - exact Hgood.
  - inversion Hentries as [|? ? He Hrest]; subst. specialize (IH Hrest).
    destruct (negb includeHidden && startsWith entry "."); [now apply IH|].
    destruct (entry_paths ds entry Hds He) as [Efull Erel].
    rewrite Efull, Erel.
    destruct (ignores h ig (join "/" (ds ++ [entry]))) eqn:Hig; [now apply IH|].
    destruct Hgood as [Hrs Hw].
    destruct (getFileInfo_sound h (canon (bs ++ (ds ++ [entry]))) w Hw)
      as [Hw' Hpath].
    destruct (Metadata.getFileInfo h _ w) as [[info|e] w']; simpl in *;
      [|now split].
    assert (Hinfo : visited h ig bs info).
    { apply (visited_entry ds entry); auto. }
    assert (Hpush : Forall (visited h ig bs) (results ++ [info])).
    { apply Forall_app. split; [assumption | now constructor]. }
    destruct (isDirectory info).
    + destruct recursive.
      * assert (Hds' : Forall (fun s => segOk s = true) (ds ++ [entry])).
        { apply Forall_app. split; [assumption | now constructor]. }
        specialize (Hwalk (ds ++ [entry]) (results ++ [info]) (currentDepth + 1)%Z w'
                          Hds' (notIgnoredAlong_snoc h ig ds entry Hclear Hig)
                          (conj Hpush Hw')).
        destruct (walk _ _ _ w') as [rs w'']. simpl in Hwalk. now apply IH.
      * apply IH. now split.
    + destruct (filteredOut h pattern (name info)) as [[|]|e]; simpl.
      * apply IH. now split.
      * apply IH. now split.
      * now split.
Qed.

(** Whatever a walk adds to the results is a visited entry: every
    directory between it and the root, and the entry itself, is clear of the
    ignore rules. *)
Lemma walkDirectory_visited (fuel : nat) :
  forall ds results currentDepth w,
    Forall (fun s => segOk s = true) ds -> notIgnoredAlong h ig ds = true ->
    walkGood results w ->
    let out := walkDirectory h maxDepth recursive includeHidden pattern ig (canon bs)
                             fuel (canon (bs ++ ds)) results currentDepth w in
    walkGood (fst out) (snd out).
Proof.
  induction fuel as [|fuel IH]; intros ds results currentDepth w Hds Hclear Hgood;
    simpl.
  - now destruct (currentDepth >? maxDepth)%Z.
  - destruct (currentDepth >? maxDepth)%Z; [exact Hgood|].
    unfold readdir. destruct (fsReaddir (fs h) (canon (bs ++ ds))) as [entries|e] eqn:E.
    + pose proof (walkEntries_visited
                    (walkDirectory h maxDepth recursive includeHidden pattern ig
                                   (canon bs) fuel)
                    ds currentDepth Hds Hclear
                    (fun ds' rs d w0 H1 H2 H3 => IH ds' rs d w0 H1 H2 H3)
                    entries (fs_ok _ _ E) results (emit (EvReaddir (canon (bs ++ ds))) w))
        as Hloop.
      destruct Hgood as [Hrs Hw]. specialize (Hloop (conj Hrs Hw)).
      destruct (walkEntries _ _ _ _ _ _ _ _ _ _ _ _) as [[[u|e] rs] w2];
        simpl in *; exact Hloop.
    + exact Hgood.
Qed.

End Flat.

(** *** The nested tree *)

Lemma In_insertBy {A : Type} (cmp : A -> A -> number) (x y : A) (l : list A) :
  In x (insertBy cmp y l) <-> x = y \/ In x l.
Proof.
  induction l as [|z r IH]; simpl.
  - split; intros [H|H]; auto.
  - destruct (cmp y z <=? 0)%Z; simpl; [intuition auto|].
    rewrite IH. intuition auto.
Qed.

(** Sorting moves entries, it neither adds nor drops any. *)
Lemma In_sortBy {A : Type} (cmp : A -> A -> number) (x : A) (l : list A) :
  In x (sortBy cmp l) <-> In x l.
Proof.
  induction l as [|y r IH]; simpl; [reflexivity|].
  rewrite In_insertBy, IH. intuition auto.
Qed.

Section Nested.
Variables (maxDepth : number) (includeHidden : bool).

Lemma treeChildren_visited (subtree : string -> M DirTreeNode) (ds : list string) :
  Forall (fun s => segOk s = true) ds ->
  notIgnoredAlong h ig ds = true ->
  (forall ds' w,
      ds' <> [] -> Forall (fun s => segOk s = true) ds' ->
      notIgnoredAlong h ig ds' = true -> cacheSound w ->
      treeGood (subtree (canon (bs ++ ds')) w)) ->
  forall entries, Forall (fun n => segOk n = true) entries ->
  forall children w,
    cacheSound w ->
    Forall (fun c => Forall (visited h ig bs) (treeNodes c)) children ->
    let out := treeChildren h includeHidden (canon bs) subtree ig (canon (bs ++ ds))
                            entries children w in
    cacheSound (snd out)
    /\ forall cs, fst out = Ok cs ->
                  Forall (fun c => Forall (visited h ig bs) (treeNodes c)) cs.
Proof.
  intros Hds Hclear Hsub.
  induction entries as [|entry rest IH]; intros Hentries children w Hw Hchildren;
    simpl.
  - split; [exact Hw | now intros cs [= <-]].
  - inversion Hentries as [|? ? He Hrest]; subst. specialize (IH Hrest).
    destruct (negb includeHidden && startsWith entry "."); [now apply IH|].
    destruct (entry_paths ds entry Hds He) as [Efull Erel].
    rewrite Efull, Erel.
    destruct (ignores h ig (join "/" (ds ++ [entry]))) eqn:Hig; [now apply IH|].
    assert (Hds' : Forall (fun s => segOk s = true) (ds ++ [entry])).
    { apply Forall_app. split; [assumption | now constructor]. }
    assert (Hne : ds ++ [entry] <> []) by now destruct ds.
    destruct (Hsub (ds ++ [entry]) w Hne Hds'
                   (notIgnoredAlong_snoc h ig ds entry Hclear Hig) Hw)
      as [Hw' Hchild].
    unfold bind.
    destruct (subtree (canon (bs ++ (ds ++ [entry]))) w) as [[child|e] w'];
      simpl in *.
    + apply IH; [exact Hw'|].
      apply Forall_app. split; [assumption|]. constructor; [|constructor].
      now apply Hchild.
    + split; [exact Hw' | discriminate].
Qed.

(** Every node of a subtree built below the root is a visited entry. *)
Lemma getDirectoryTree_visited (fuel : nat) :
  forall ds currentDepth w,
    ds <> [] -> Forall (fun s => segOk s = true) ds ->
    notIgnoredAlong h ig ds = true -> cacheSound w ->
    treeGood (getDirectoryTree h maxDepth includeHidden (canon bs) fuel
                               (canon (bs ++ ds)) currentDepth (Some ig) w).
Proof.
  induction fuel as [|fuel IH]; intros ds currentDepth w Hne Hds Hclear Hw.
  - simpl. unfold bind at 1 2. unfold ret at 1.
    destruct (getFileInfo_sound h (canon (bs ++ ds)) w Hw) as [Hw' Hpath].
    destruct (Metadata.getFileInfo h _ w) as [[info|e] w']; simpl in *.
    + assert (Hleaf : treeGood (Ok (TreeNode info None), w')).
      { split; [exact Hw'|]. intros node [= <-]. simpl.
        constructor; [|constructor]. exists ds. auto. }
      now destruct (negb (isDirectory info) || (currentDepth >=? maxDepth)%Z).
    + split; [exact Hw' | discriminate].
  - simpl. unfold bind at 1 2. unfold ret at 1.
    destruct (getFileInfo_sound h (canon (bs ++ ds)) w Hw) as [Hw' Hpath].
    destruct (Metadata.getFileInfo h _ w) as [[info|e] w']; simpl in Hw', Hpath;
      [|split; [exact Hw' | discriminate]].
    assert (Hinfo : visited h ig bs info) by (exists ds; auto).
    destruct (negb (isDirectory info) || (currentDepth >=? maxDepth)%Z).
    + split; [exact Hw'|]. intros node [= <-]. simpl. now constructor.
    + unfold tryCatch, bind at 1, readdir.
      destruct (fsReaddir (fs h) (canon (bs ++ ds))) as [entries|e] eqn:E;
        [|split; [exact Hw' | discriminate]].
      pose proof (treeChildren_visited
                    (fun fullPath =>
                       getDirectoryTree h maxDepth includeHidden (canon bs) fuel
                                        fullPath (currentDepth + 1)%Z (Some ig))
                    ds Hds Hclear
                    (fun ds' w0 H1 H2 H3 H4 => IH ds' _ w0 H1 H2 H3 H4)
                    entries (fs_ok _ _ E) []
                    (emit (EvReaddir (canon (bs ++ ds))) w') Hw' (Forall_nil _))
        as [Hw2 Hcs].
      unfold bind.
      destruct (treeChildren _ _ _ _ _ _ _ _ _) as [[children|e] w2];
        simpl in *; (split; [exact Hw2|]); [|discriminate].
      intros node [= <-]. simpl. constructor; [exact Hinfo|].
      apply Forall_flat_map. apply Forall_forall. intros c Hc.
      apply In_sortBy in Hc. specialize (Hcs children eq_refl).
      rewrite Forall_forall in Hcs. now apply Hcs.
Qed.

End Nested.

End WalkerVisits.

Section PrunedSubtrees.
Import Walker JsString Path.

Lemma properPrefix_app_same (bs d es : list string) :
  Sandbox.properPrefix (bs ++ d) (bs ++ es) = Sandbox.properPrefix d es.
Proof.
  induction bs as [|x xs IH]; simpl; [reflexivity|].
  now rewrite String.eqb_refl.
Qed.

Lemma properPrefix_decompose (d es : list string) :
  Sandbox.properPrefix d es = true -> exists rest, es = d ++ rest.
Proof.
  revert es. induction d as [|x xs IH]; intros [|y ys] H; simpl in H;
    try discriminate.
  - now exists (y :: ys).
  - apply andb_prop in H as [E H]. apply String.eqb_eq in E. subst.
    destruct (IH ys H) as [rest ->]. now exists rest.
Qed.

Lemma properPrefix_longer (bs d : list string) :
  d <> [] -> Sandbox.properPrefix (bs ++ d) bs = false.
Proof.
  intros Hd. rewrite <- (app_nil_r bs) at 2. rewrite properPrefix_app_same.
  now destruct d.
Qed.

Variable h : Host.
Variable ig : Ignore.
Variables bs d : list string.
Hypothesis bs_ok : Forall (fun s => segOk s = true) bs.
Hypothesis d_ok : Forall (fun s => segOk s = true) d.
Hypothesis d_nonempty : d <> [].
Hypothesis d_ignored : ignores h ig (join "/" d) = true.

(** A visited entry is neither the ignored directory nor below it. *)
Lemma visited_outside (info : FileInfo) :
  visited h ig bs info -> Sandbox.insideRoot (canon (bs ++ d)) (path info) = false.
Proof.
  intros (rel & Hne & Hrel & Hpath & Hclear).
  assert (Hbd : Forall (fun s => segOk s = true) (bs ++ d)) by (apply Forall_app; now split).
  assert (Hbr : Forall (fun s => segOk s = true) (bs ++ rel)) by (apply Forall_app; now split).
  unfold Sandbox.insideRoot, Sandbox.descendantOf. rewrite Hpath.
  rewrite !segmentsOf_canon, properPrefix_app_same by assumption.
  apply orb_false_intro.
  - apply String.eqb_neq. intros E. apply canon_inj in E; try assumption.
    apply app_inv_head in E. subst rel.
    rewrite <- (app_nil_r d) in Hclear.
    rewrite (notIgnoredAlong_prefix h ig d [] d_nonempty Hclear) in d_ignored.
    discriminate.
  - destruct (Sandbox.properPrefix d rel) eqn:E; [|reflexivity].
    apply properPrefix_decompose in E as [rest ->].
    rewrite (notIgnoredAlong_prefix h ig d rest d_nonempty Hclear) in d_ignored.
    discriminate.
Qed.

(** The root of the listing is not inside the ignored directory either. *)
Lemma root_outside : Sandbox.insideRoot (canon (bs ++ d)) (canon bs) = false.
Proof.
  assert (Hbd : Forall (fun s => segOk s = true) (bs ++ d)) by (apply Forall_app; now split).
  unfold Sandbox.insideRoot, Sandbox.descendantOf.
  rewrite !segmentsOf_canon, properPrefix_longer by assumption.
  rewrite orb_false_r. apply String.eqb_neq. intros E.
  apply canon_inj in E; try assumption.
  apply d_nonempty, (app_inv_head bs). now rewrite app_nil_r.
Qed.

End PrunedSubtrees.

Section PrunedListings.
Import Walker JsString Path.
Variable h : Host.
Variable bs : list string.
Hypothesis fs_ok : fsNamesOk h.
Hypothesis bs_ok : Forall (fun s => segOk s = true) bs.

(** Every entry of a flat listing is a visited entry. *)
Lemma listFiles_visited (options : ListFilesOptions) (w : World) (listing : list FileInfo) :
  cacheSound w ->
  fst (listFiles h (canon bs) options w) = Ok listing ->
  Forall (visited h (rootMatcher h (canon bs)) bs) listing.
Proof.
  intros Hw. unfold listFiles, bind.
  pose proof (loadIgnoreMatcher_result h (canon bs) w) as Hig.
  pose proof (loadIgnoreMatcher_cache h (canon bs) w Hw) as Hw1.
  destruct (loadIgnoreMatcher h (canon bs) w) as [[ig|e] w1]; simpl in Hig, Hw1;
    [|discriminate].
  injection Hig as ->.
  pose proof (walkDirectory_visited h (rootMatcher h (canon bs)) bs fs_ok bs_ok
                (orDefault (maxDepth options) 10%Z)
                (orDefault (recursive options) true)
                (orDefault (includeHidden options) false) (pattern options)
                (walkFuel (orDefault (maxDepth options) 10%Z))
                [] [] 0%Z w1 (Forall_nil _) eq_refl (conj (Forall_nil _) Hw1))
    as Hwalk.
  rewrite app_nil_r in Hwalk.
  destruct (walkDirectory _ _ _ _ _ _ _ _ _ _ _ w1) as [rs w2]. simpl in *.
  intros [= <-]. destruct Hwalk as [Hrs _].
  apply Forall_forall. intros x Hx. apply In_sortBy in Hx.
  rewrite Forall_forall in Hrs. now apply Hrs.
Qed.

(** The root node of a tree is the root itself, and every node below it is
    a visited entry. *)
Lemma directoryTree_visited (maxDepth : option number) (includeHidden : option bool)
    (w : World) (tree : DirTreeNode) :
  cacheSound w ->
  fst (directoryTree h (canon bs) maxDepth includeHidden w) = Ok tree ->
  path (nodeInfo tree) = canon bs
  /\ forall cs, nodeChildren tree = Some cs ->
                Forall (fun c => Forall (visited h (rootMatcher h (canon bs)) bs)
                                        (treeNodes c)) cs.
Proof.
  intros Hw. unfold directoryTree.
  set (depth := orDefault maxDepth 10%Z). set (hid := orDefault includeHidden false).
  set (ig := rootMatcher h (canon bs)).
  pose proof (loadIgnoreMatcher_result h (canon bs) w) as Hig.
  pose proof (loadIgnoreMatcher_cache h (canon bs) w Hw) as Hw1.
  assert (Hleaf : forall info w', path info = canon bs ->
            fst (@ret DirTreeNode (TreeNode info None) w') = Ok tree ->
            path (nodeInfo tree) = canon bs
            /\ forall cs, nodeChildren tree = Some cs ->
                 Forall (fun c => Forall (visited h ig bs) (treeNodes c)) cs).
  { intros info w' Hp [= <-]. split; [exact Hp | discriminate]. }
  destruct (treeFuel depth) as [|fuel]; simpl; unfold bind at 1 2; unfold ret at 1.
  - destruct (loadIgnoreMatcher h (canon bs) w) as [[ig'|e] w1]; simpl in Hig, Hw1;
      [|discriminate].
    destruct (getFileInfo_sound h (canon bs) w1 Hw1) as [Hw2 Hpath].
    destruct (Metadata.getFileInfo h (canon bs) w1) as [[info|e] w2]; simpl in *;
      [|discriminate].
    specialize (Hpath info eq_refl).
    destruct (negb (isDirectory info) || (0 >=? depth)%Z); now apply Hleaf.
  - destruct (loadIgnoreMatcher h (canon bs) w) as [[ig'|e] w1]; simpl in Hig, Hw1;
      [|discriminate].
    injection Hig as ->. fold ig.
    destruct (getFileInfo_sound h (canon bs) w1 Hw1) as [Hw2 Hpath].
    destruct (Metadata.getFileInfo h (canon bs) w1) as [[info|e] w2];
      simpl in Hw2, Hpath; [|discriminate].
    specialize (Hpath info eq_refl).
    destruct (negb (isDirectory info) || (0 >=? depth)%Z); [now apply Hleaf|].
    unfold tryCatch, bind at 1, readdir.
    destruct (fsReaddir (fs h) (canon bs)) as [entries|e] eqn:E; [|discriminate].
    pose proof (treeChildren_visited h ig bs bs_ok hid
                  (fun fullPath =>
                     getDirectoryTree h depth hid (canon bs) fuel fullPath
                                      (0 + 1)%Z (Some ig))
                  [] (Forall_nil _) eq_refl
                  (fun ds' w0 H1 H2 H3 H4 =>
                     getDirectoryTree_visited h ig bs fs_ok bs_ok depth hid fuel
                                              ds' _ w0 H1 H2 H3 H4)
                  entries (fs_ok _ _ E) []
                  (emit (EvReaddir (canon bs)) w2) Hw2 (Forall_nil _))
      as [_ Hcs].
    rewrite app_nil_r in Hcs. unfold bind.
    destruct (treeChildren _ _ _ _ _ _ _ _ _) as [[children|e] w3];
      simpl in *; [|discriminate].
    intros [= <-]. split; [exact Hpath|]. simpl. intros cs [= <-].
    apply Forall_forall. intros c Hc. apply In_sortBy in Hc.
    specialize (Hcs children eq_refl). rewrite Forall_forall in Hcs. now apply Hcs.
Qed.

(** When the matcher excludes the root-relative path of a directory as
    the walkers hand it over, without a slash after it, no entry of the flat
    listing of that root and no node of its nested tree is that directory or
    lies below it, whatever the name pattern, the depth limit and the other
    options.  The root is given by its segments, the filesystem lists only
    proper entry names, and the cache holds each entry under its own
    path. *)
Lemma ignored_directory_is_pruned (d : list string) (options : ListFilesOptions)
    (maxDepth : option number) (includeHidden : option bool) (w : World) :
  cacheSound w ->
  d <> [] ->
  Forall (fun s => segOk s = true) d ->
  ignores h (rootMatcher h (canon bs)) (join "/" d) = true ->
  (forall listing info,
      fst (listFiles h (canon bs) options w) = Ok listing ->
      In info listing ->
      Sandbox.insideRoot (canon (bs ++ d)) (path info) = false)
  /\ (forall tree info,
        fst (directoryTree h (canon bs) maxDepth includeHidden w) = Ok tree ->
        In info (treeNodes tree) ->
        Sandbox.insideRoot (canon (bs ++ d)) (path info) = false).
Proof.
  intros Hw Hne Hd Hig. split.
  - intros listing info Hlist Hin.
    pose proof (listFiles_visited options w listing Hw Hlist) as Hall.
    rewrite Forall_forall in Hall.
    apply (visited_outside h _ bs d bs_ok Hd Hne Hig). now apply Hall.
  - intros tree info Htree Hin.
    destruct (directoryTree_visited maxDepth includeHidden w tree Hw Htree)
      as [Hroot Hkids].
    destruct tree as [rootInfo [cs|]]; simpl in *.
    + destruct Hin as [<-|Hin].
      * rewrite Hroot. now apply root_outside.
      * apply in_flat_map in Hin as (c & Hc & Hin).
        specialize (Hkids cs eq_refl). rewrite Forall_forall in Hkids.
        specialize (Hkids c Hc). rewrite Forall_forall in Hkids.
        apply (visited_outside h _ bs d bs_ok Hd Hne Hig). now apply Hkids.
    + destruct Hin as [<-|[]]. rewrite Hroot. now apply root_outside.
Qed.

End PrunedListings.

(** A filesystem given by a table lists proper names when its table does. *)
Lemma tableFs_namesOk (table : list (string * Demo.Node)) :
  forallb (fun kv => match snd kv with
                     | Demo.DirNode names => forallb Path.segOk names
                     | Demo.FileNode _ _ => true
                     end) table = true ->
  Walker.fsNamesOk (Demo.host table).
Proof.
  intros Htable p names. simpl. unfold Demo.lookupNode.
  destruct (find _ table) as [[k node]|] eqn:E; simpl; [|discriminate].
  apply find_some in E as [Hin _].
  rewrite forallb_forall in Htable. specialize (Htable _ Hin). simpl in Htable.
  destruct node as [ns|c n]; [|discriminate].
  intros [= <-]. apply Forall_forall. intros x Hx.
  rewrite forallb_forall in Htable. now apply Htable.
Qed.

(** The example tree, whose ignore file names [skip]. *)
Lemma ignored_directory_is_pruned_witness :
  let h := Demo.host Demo.tree in
  Walker.fsNamesOk h
  /\ Forall (fun s => Path.segOk s = true) ["r"]
  /\ Walker.cacheSound Demo.start
  /\ ["skip"] <> []
  /\ Forall (fun s => Path.segOk s = true) ["skip"]
  /\ Walker.ignores h (Walker.rootMatcher h "/r") "skip" = true
  /\ forall listing info,
       fst (Walker.listFiles h "/r" Walker.noOptions Demo.start) = Ok listing ->
       In info listing ->
       Sandbox.insideRoot "/r/skip" (path info) = false.
Proof.
  intros h.
  assert (H1 : Walker.fsNamesOk h) by (apply tableFs_namesOk; reflexivity).
  assert (H2 : Forall (fun s => Path.segOk s = true) ["r"])
    by (repeat constructor).
  assert (H3 : Walker.cacheSound Demo.start) by (intros k e []).
  assert (H4 : ["skip"] <> []) by discriminate.
  assert (H5 : Forall (fun s => Path.segOk s = true) ["skip"])
    by (repeat constructor).
  assert (H6 : Walker.ignores h (Walker.rootMatcher h (Path.canon ["r"]))
                 (JsString.join "/" ["skip"]) = true) by reflexivity.
  repeat (split; [assumption|]).
  exact (proj1 (ignored_directory_is_pruned h ["r"] H1 H2 ["skip"] Walker.noOptions
                  None None Demo.start H3 H4 H5 H6)).
Defined.

(** The ignored directory of the example tree, with a file that the name
    pattern would match, is in neither the listing nor the tree. *)
Example pruned_example :
  let h := Demo.host Demo.tree in
  match fst (Walker.listFiles h "/r"
               {| Walker.pattern := Some "b.*"; Walker.recursive := None;
                  Walker.maxDepth := None; Walker.includeHidden := None |}
               Demo.start) with
  | Ok listing => map path listing
  | Throw _ => []
  end = ["/r/sub"]
  /\ match fst (Walker.directoryTree h "/r" None None Demo.start) with
     | Ok tree => map path (Walker.treeNodes tree)
     | Throw _ => []
     end = ["/r"; "/r/sub"; "/r/sub/large.bin"; "/r/sub/twice.txt"; "/r/a.txt";
            "/r/data.json"].
Proof. vm_compute. split; reflexivity. Qed.

(** C5 (the code departs from the claim): the ignore file of the root holds
    the directory-only rule ['skip/'], which matches the directory [skip]:
    the matcher excludes ['skip/'].  Both walkers ask the matcher about
    ['skip'], the relative path without the slash that tells a directory
    from a file, and are told that it is not excluded; so the directory is an
    entry of the flat listing and a node of the nested tree, and only what
    lies below it is left out. *)
Theorem directory_rule_keeps_directory :
  let h := DirectoryRules.host DirectoryRules.tree in
  let ig := Walker.rootMatcher h "/r" in
  Walker.rules ig = ["skip/" +++ Demo.nl]
  /\ Walker.ignores h ig "skip/" = true
  /\ Walker.ignores h ig "skip" = false
  /\ (exists listing w',
        Walker.listFiles h "/r" Walker.noOptions Demo.start = (Ok listing, w')
        /\ map path listing = ["/r/skip"; "/r/a.txt"]
        /\ map isDirectory listing = [true; false])
  /\ (exists tree w',
        Walker.directoryTree h "/r" None None Demo.start = (Ok tree, w')
        /\ map path (Walker.treeNodes tree) = ["/r"; "/r/skip"; "/r/a.txt"]
        /\ map isDirectory (Walker.treeNodes tree) = [true; true; false]).
Proof.
  intros h ig. split; [reflexivity|]. split; [reflexivity|]. split; [reflexivity|].
  split.
  - destruct (Walker.listFiles h "/r" Walker.noOptions Demo.start)
      as [[listing|e] w'] eqn:E; [|vm_compute in E; discriminate].
    exists listing, w'. split; [reflexivity|].
    assert (Hl : fst (Walker.listFiles h "/r" Walker.noOptions Demo.start) = Ok listing)
      by now rewrite E.
    vm_compute in Hl. injection Hl as <-. split; reflexivity.
  - destruct (Walker.directoryTree h "/r" None None Demo.start)
      as [[tree|e] w'] eqn:E; [|vm_compute in E; discriminate].
    exists tree, w'. split; [reflexivity|].
    assert (Hl : fst (Walker.directoryTree h "/r" None None Demo.start) = Ok tree)
      by now rewrite E.
    vm_compute in Hl. injection Hl as <-. split; reflexivity.
Qed.

(* ===================================================================== *)
(** * Further properties *)
(* ===================================================================== *)

(** ** PathSandbox, further *)

Section SandboxFurther.
Import JsString Path Sandbox.
Variable cwd : string.
Hypothesis cwd_abs : isAbsolute cwd = true.

(** The normalized absolute form is a fixed point of normalisation. *)
Lemma absoluteForm_idem (p : string) :
  absoluteForm cwd (absoluteForm cwd p) = absoluteForm cwd p.
Proof.
  unfold absoluteForm. rewrite (absolute_resolve cwd p cwd_abs).
  rewrite resolve_canon_id by apply resolvedSegments_ok.
  apply normalize_canon, resolvedSegments_ok.
Qed.

Lemma validateLoop_sound (normalized target : string) (roots : list string) (v : string) :
  validateLoop cwd normalized target roots = Ok v ->
  v = normalized /\ existsb (rootAdmits cwd normalized) roots = true.
Proof.
  induction roots as [|root rest IH]; simpl; [discriminate|].
  destruct (rootAdmits cwd normalized root); [now intros [= <-] | exact IH].
Qed.

Lemma validateLoop_complete (normalized target : string) (roots : list string) :
  existsb (rootAdmits cwd normalized) roots = true ->
  validateLoop cwd normalized target roots = Ok normalized.
Proof.
  induction roots as [|root rest IH]; simpl; [discriminate|].
  destruct (rootAdmits cwd normalized root); [reflexivity | exact IH].
Qed.

(** X1: what [validatePathAccess] returns is the normalized absolute form
    of its argument, lies inside a configured root, and is accepted again
    unchanged: validation is idempotent. *)
Theorem validatePathAccess_idempotent (p v : string) (roots : list string) :
  validatePathAccess cwd p roots = Ok v ->
  v = absoluteForm cwd p
  /\ insideSandbox cwd p roots = true
  /\ validatePathAccess cwd v roots = Ok v.
Proof.
  unfold validatePathAccess. fold (absoluteForm cwd p). intros H.
  apply validateLoop_sound in H as [-> Hex]. split; [reflexivity|]. split.
  - unfold insideSandbox. apply existsb_exists in Hex as (root & Hin & Hadm).
    apply existsb_exists. exists root. split; [assumption|].
    now apply rootAdmits_sound.
  - fold (absoluteForm cwd (absoluteForm cwd p)). rewrite absoluteForm_idem.
    now apply validateLoop_complete.
Qed.

(** X2: when no configured root is the filesystem root, [validatePathAccess]
    decides the sandbox exactly: it returns the normalized form of a path
    that equals a root or lies below one, segment by segment, and throws
    [OutsideSandbox] for every other path. *)
Theorem validatePathAccess_decides (p : string) (roots : list string) :
  Forall (fun root => absoluteForm cwd root <> "/") roots ->
  validatePathAccess cwd p roots
  = if insideSandbox cwd p roots then Ok (absoluteForm cwd p)
    else Throw (OutsideSandbox p).
Proof.
  intros Hroots. destruct (insideSandbox cwd p roots) eqn:E.
  - now apply validatePathAccess_inside.
  - now apply validatePathAccess_outside.
Qed.

End SandboxFurther.

(** X1 on a path that climbs out of a subdirectory and back. *)
Lemma validatePathAccess_idempotent_witness :
  Path.isAbsolute "/home" = true
  /\ Sandbox.validatePathAccess "/home" "/srv/docs/a/../b" ["/srv/docs"] = Ok "/srv/docs/b"
  /\ Sandbox.validatePathAccess "/home" "/srv/docs/b" ["/srv/docs"] = Ok "/srv/docs/b".
Proof.
  assert (H0 : Path.isAbsolute "/home" = true) by reflexivity.
  assert (H1 : Sandbox.validatePathAccess "/home" "/srv/docs/a/../b" ["/srv/docs"]
               = Ok "/srv/docs/b") by reflexivity.
  split; [exact H0|]. split; [exact H1|].
  exact (proj2 (proj2 (validatePathAccess_idempotent "/home" H0 _ _ _ H1))).
Defined.

(** X2 on a relative root and a path that escapes it through [..]. *)
Lemma validatePathAccess_decides_witness :
  Path.isAbsolute "/home/u" = true
  /\ Forall (fun root => Sandbox.absoluteForm "/home/u" root <> "/") ["docs"]
  /\ Sandbox.validatePathAccess "/home/u" "docs/../../x" ["docs"]
     = Throw (Sandbox.OutsideSandbox "docs/../../x").
Proof.
  assert (H0 : Path.isAbsolute "/home/u" = true) by reflexivity.
  assert (H1 : Forall (fun root => Sandbox.absoluteForm "/home/u" root <> "/") ["docs"]).
  { constructor; [|constructor]. vm_compute. discriminate. }
  split; [exact H0|]. split; [exact H1|].
  exact (validatePathAccess_decides "/home/u" H0 "docs/../../x" ["docs"] H1).
Defined.

(** ** MetadataCache, further *)

Section CacheFurther.
Import Cache CacheHistory.
Context {T : Type}.
Implicit Types (m : JsMap T) (c : LRUCache T) (e : CacheEntry T).

Lemma mapGet_app_absent (key : string) m1 m2 :
  mapGet key m1 = None -> mapGet key (m1 ++ m2) = mapGet key m2.
Proof.
  unfold mapGet. induction m1 as [|[k v] m1 IH]; simpl; [reflexivity|].
  destruct (k =? key)%string; [discriminate | exact IH].
Qed.

Lemma mapGet_inserted c (now : number) (key : string) (v : T) :
  mapGet key (inserted c now key v)
  = Some {| value := v; expires := (now + ttl c)%Z |}.
Proof.
  rewrite inserted_eq, mapGet_app_absent by apply mapGet_mapDelete_same.
  unfold mapGet. simpl. now rewrite String.eqb_refl.
Qed.

(** With room for one entry at least, the entry just stored survives the
    eviction that its own insertion may cause. *)
Lemma mapGet_after_set c (now : number) (key : string) (v : T) :
  (1 <= maxSize c)%Z ->
  mapGet key (cache (set c now key v))
  = Some {| value := v; expires := (now + ttl c)%Z |}.
Proof.
  intros Hmax. unfold set.
  pose proof (mapGet_inserted c now key v) as Hins.
  destruct (mapSize (inserted c now key v) >? maxSize c)%Z eqn:E; [|exact Hins].
  destruct (firstKey (inserted c now key v)) as [k|] eqn:F; [|exact Hins].
  unfold withMap. cbn [cache].
  rewrite mapGet_mapDelete_other; [exact Hins|].
  rewrite inserted_eq in F, E.
  destruct (mapDelete key (cache c)) as [|[k0 e0] rest] eqn:Ed.
  - unfold mapSize in E. simpl in E. lia.
  - simpl in F. injection F as <-.
    intros <-. apply (mapDelete_absent key (cache c)). rewrite Ed. now left.
Qed.

Lemma behind_mapDelete (key k : string) m :
  k <> key -> behind key (mapDelete k m) <= behind key m.
Proof.
  intros Hk. induction m as [|[k0 e0] m IH]; simpl; [lia|].
  destruct (String.eqb_spec k0 k) as [->|N]; simpl.
  - destruct (String.eqb_spec k key) as [E|_]; [contradiction | exact IH].
  - destruct (k0 =? key)%string; [apply mapDelete_length | exact IH].
Qed.

Lemma behind_app (key : string) m1 m2 e :
  mapGet key m1 = Some e ->
  behind key (m1 ++ m2) = behind key m1 + List.length m2
  /\ mapGet key (m1 ++ m2) = Some e.
Proof.
  unfold mapGet. induction m1 as [|[k0 e0] m1 IH]; simpl; [discriminate|].
  destruct (k0 =? key)%string; simpl.
  - intros H. split; [apply length_app | exact H].
  - exact IH.
Qed.

Lemma behind_first (key : string) m :
  firstKey m = Some key -> S (behind key m) = List.length m.
Proof.
  destruct m as [|[k e] m]; simpl; [discriminate|].
  intros [= ->]. now rewrite String.eqb_refl.
Qed.

Lemma behind_last (key : string) e m :
  ~ In key (keys m) -> behind key (m ++ [(key, e)]) = 0.
Proof.
  induction m as [|[k0 e0] m IH]; simpl; intros H.
  - now rewrite String.eqb_refl.
  - destruct (String.eqb_spec k0 key) as [->|N]; [exfalso; apply H; now left|].
    apply IH. intros F. apply H. now right.
Qed.

(** The entry just stored is the last one of the map. *)
Lemma behind_after_set c (now : number) (key : string) (v : T) :
  behind key (cache (set c now key v)) = 0.
Proof.
  assert (Hins : behind key (inserted c now key v) = 0)
    by (rewrite inserted_eq; apply behind_last, mapDelete_absent).
  unfold set. destruct (mapSize (inserted c now key v) >? maxSize c)%Z; [|exact Hins].
  destruct (firstKey (inserted c now key v)) as [k|] eqn:F; [|exact Hins].
  unfold withMap. cbn [cache]. destruct (String.eqb_spec k key) as [->|N].
  - apply behind_first in F. rewrite Hins in F.
    destruct (inserted c now key v) as [|kv [|kv' rest]]; try discriminate.
    simpl. now destruct (negb _).
  - pose proof (behind_mapDelete key k (inserted c now key v) N). lia.
Qed.

(** A [get] of another key keeps the entry of [key], and puts at most one
    more entry after it; none when it returns nothing. *)
Lemma get_other_keeps c (t : number) (key k : string) e :
  k <> key ->
  mapGet key (cache c) = Some e ->
  mapGet key (cache (snd (get c t k))) = Some e
  /\ behind key (cache (snd (get c t k))) <= S (behind key (cache c))
  /\ (fst (get c t k) = None ->
      behind key (cache (snd (get c t k))) <= behind key (cache c)).
Proof.
  intros Hk Hg.
  assert (Hk' : key <> k) by congruence.
  pose proof (behind_mapDelete key k (cache c) Hk) as Hle.
  assert (Hd : mapGet key (mapDelete k (cache c)) = Some e)
    by now rewrite mapGet_mapDelete_other.
  unfold get. destruct (mapGet k (cache c)) as [entry|] eqn:G; simpl.
  - destruct (t >? expires entry)%Z; simpl.
    + split; [exact Hd|]. split; [lia | intros _; exact Hle].
    + rewrite mapSet_mapDelete.
      destruct (behind_app key _ [(k, entry)] e Hd) as [Hb Hm].
      rewrite Hb, Hm. simpl. split; [reflexivity|]. split; [lia | discriminate].
  - split; [exact Hg|]. split; [lia | intros _; lia].
Qed.

(** A [set] of another key keeps the entry of [key] when fewer than
    [maxSize - 1] entries follow it, and puts at most one more after it. *)
Lemma set_other_keeps c (t : number) (key k : string) (v : T) e :
  k <> key ->
  mapGet key (cache c) = Some e ->
  (Z.of_nat (behind key (cache c)) + 1 < maxSize c)%Z ->
  mapGet key (cache (set c t k v)) = Some e
  /\ behind key (cache (set c t k v)) <= S (behind key (cache c)).
Proof.
  intros Hk Hg Hroom.
  assert (Hk' : key <> k) by congruence.
  pose proof (behind_mapDelete key k (cache c) Hk) as Hle.
  assert (Hd : mapGet key (mapDelete k (cache c)) = Some e)
    by now rewrite mapGet_mapDelete_other.
  destruct (behind_app key _ [(k, {| value := v; expires := (t + ttl c)%Z |})] e Hd)
    as [Hb Hm].
  rewrite <- inserted_eq in Hb, Hm. simpl in Hb.
  unfold set.
  destruct (mapSize (inserted c t k v) >? maxSize c)%Z eqn:E;
    [|simpl; split; [exact Hm | lia]].
  destruct (firstKey (inserted c t k v)) as [k0|] eqn:F;
    [|simpl; split; [exact Hm | lia]].
  unfold withMap. cbn [cache]. destruct (String.eqb_spec k0 key) as [->|N].
  - exfalso. apply behind_first in F. unfold mapSize in E.
    apply Z.gtb_gt in E. lia.
  - assert (N' : key <> k0) by congruence.
    rewrite mapGet_mapDelete_other by exact N'. split; [exact Hm|].
    pose proof (behind_mapDelete key k0 (inserted c t k v) N). lia.
Qed.

(** Calls on other keys, fewer than the room left after the entry of
    [key], keep that entry. *)
Lemma steps_keep (key : string) e (between : list (op T)) c :
  Forall (fun o => opKey o <> key) between ->
  mapGet key (cache c) = Some e ->
  (Z.of_nat (behind key (cache c) + List.length between) < maxSize c)%Z ->
  mapGet key (cache (fold_left step between c)) = Some e.
Proof.
  revert c. induction between as [|o rest IH]; intros c Hall Hg Hroom; simpl;
    [exact Hg|].
  inversion Hall as [|? ? Ho Hrest]; subst. simpl List.length in Hroom.
  assert (Hstep : mapGet key (cache (step c o)) = Some e
                  /\ behind key (cache (step c o)) <= S (behind key (cache c))).
  { destruct o as [k t|k v t]; simpl in Ho |- *.
    - destruct (get_other_keeps c t key k e Ho Hg) as (A & B & _). now split.
    - apply set_other_keeps; [exact Ho | exact Hg | lia]. }
  destruct Hstep as [Hg' Hb'].
  apply IH; [exact Hrest | exact Hg' |]. rewrite step_maxSize. lia.
Qed.

(** X3: a value stored by [set] is returned by a later [get] of the same
    key made within the time-to-live, whatever calls were made on other keys
    in between, as long as they are fewer than [maxSize] and none of them is
    on that key. *)
Theorem set_then_get c (now now' : number) (key : string) (v : T)
    (between : list (op T)) :
  Forall (fun o => opKey o <> key) between ->
  (Z.of_nat (List.length between) < maxSize c)%Z ->
  (now' <= now + ttl c)%Z ->
  fst (get (fold_left step between (set c now key v)) now' key) = Some v.
Proof.
  intros Hall Hroom Hlive.
  assert (Hmax : (1 <= maxSize c)%Z) by lia.
  pose proof (mapGet_after_set c now key v Hmax) as Hg.
  pose proof (step_maxSize c (OpSet key v now)) as Hm. simpl in Hm.
  assert (Hkeep := steps_keep key _ between (set c now key v) Hall Hg).
  rewrite behind_after_set, Hm in Hkeep. specialize (Hkeep Hroom).
  unfold get. rewrite Hkeep. simpl expires.
  destruct (Z.gtb_spec now' (now + ttl c)); [lia | reflexivity].
Qed.

Lemma set_entries_exact c (now : number) (key : string) (v : T) (k : string) e :
  In (k, e) (cache (set c now key v)) ->
  (In (k, e) (cache c) /\ k <> key)
  \/ (k = key /\ e = {| value := v; expires := (now + ttl c)%Z |}).
Proof.
  assert (Hins : In (k, e) (inserted c now key v) ->
                 (In (k, e) (cache c) /\ k <> key)
                 \/ (k = key /\ e = {| value := v; expires := (now + ttl c)%Z |})).
  { rewrite inserted_eq. intros H. apply in_app_or in H as [H|[[= <- <-]|[]]].
    - left. split; [now apply In_mapDelete in H|].
      intros ->. apply (mapDelete_absent key (cache c)).
      apply in_map_iff. now exists (key, e).
    - now right. }
  unfold set. destruct (mapSize _ >? maxSize c)%Z; [|exact Hins].
  destruct (firstKey _); simpl; [|exact Hins].
  intros H. apply In_mapDelete in H. now apply Hins.
Qed.

Lemma step_ttl c (o : op T) : ttl (step c o) = ttl c.
Proof.
  destruct o as [key now|key v now]; simpl.
  - unfold get. destruct (mapGet key (cache c)) as [entry|]; [|reflexivity].
    now destruct (now >? expires entry)%Z.
  - unfold set. destruct (_ >? _)%Z; [|reflexivity].
    now destruct (firstKey _).
Qed.

Lemma run_ttl (C life : number) (ops : list (op T)) : ttl (fst (run C life ops)) = life.
Proof.
  induction ops as [|o ops IH] using rev_ind; [reflexivity|].
  rewrite run_snoc. simpl. now rewrite step_ttl.
Qed.

Lemma lastSet_snoc (ops : list (op T)) (o : op T) (key : string) :
  lastSet (ops ++ [o]) key
  = match o with
    | OpSet k v t => if (k =? key)%string then Some (v, t) else lastSet ops key
    | OpGet _ _ => lastSet ops key
    end.
Proof. unfold lastSet. now rewrite fold_left_app. Qed.

(** Every entry of the cache is the latest [set] of its key, stamped with
    that call's clock plus the time-to-live. *)
Lemma run_entries (C life : number) (ops : list (op T)) (k : string) e :
  In (k, e) (cache (fst (run C life ops))) ->
  lastSet ops k = Some (value e, (expires e - life)%Z).
Proof.
  revert k e. induction ops as [|o ops IH] using rev_ind; intros k e; [intros []|].
  rewrite run_snoc, lastSet_snoc. simpl fst.
  destruct o as [key now|key v now]; simpl step.
  - intros H. apply IH. now apply (proj1 (get_entries _ now key)).
  - intros H. apply set_entries_exact in H as [[H Hk]|[-> ->]].
    + apply String.eqb_neq in Hk. rewrite String.eqb_sym, Hk. now apply IH.
    + rewrite String.eqb_refl, run_ttl. simpl. do 2 f_equal. lia.
Qed.

(** X4: along every sequence of calls on a cache, a [get] that returns a
    value returns the value of the latest [set] of that key, and that [set]
    was made no longer ago than the time-to-live: no older value and no
    expired value is ever returned. *)
Theorem get_returns_latest_set (C life : number) (ops : list (op T))
    (key : string) (now : number) (v : T) :
  fst (get (fst (run C life ops)) now key) = Some v ->
  exists t, lastSet ops key = Some (v, t) /\ (now <= t + life)%Z.
Proof.
  intros H. unfold get in H.
  destruct (mapGet key (cache (fst (run C life ops)))) as [entry|] eqn:G;
    [|discriminate].
  destruct (Z.gtb_spec now (expires entry)); [discriminate|].
  simpl in H. injection H as <-.
  apply mapGet_entry, run_entries in G.
  exists (expires entry - life)%Z. split; [exact G | lia].
Qed.

End CacheFurther.

(** X3 on a cache of two entries: one call on another key leaves the
    entry in place. *)
Lemma set_then_get_witness :
  let c := Cache.create (T := nat) 2 30000 in
  let between := [Cache.OpSet "/r/b.txt" 8 10%Z] in
  Forall (fun o => CacheHistory.opKey o <> "/r/a.txt") between
  /\ (Z.of_nat (List.length between) < Cache.maxSize c)%Z
  /\ (29999 <= 0 + Cache.ttl c)%Z
  /\ fst (Cache.get (fold_left Cache.step between (Cache.set c 0 "/r/a.txt" 7))
                    29999 "/r/a.txt")
     = Some 7.
Proof.
  intros c between.
  assert (H0 : Forall (fun o => CacheHistory.opKey o <> "/r/a.txt") between)
    by (repeat constructor; discriminate).
  assert (H1 : (Z.of_nat (List.length between) < Cache.maxSize c)%Z) by (simpl; lia).
  assert (H2 : (29999 <= 0 + Cache.ttl c)%Z) by (simpl; lia).
  split; [exact H0|]. split; [exact H1|]. split; [exact H2|].
  exact (set_then_get c 0 29999 "/r/a.txt" 7 between H0 H1 H2).
Defined.

(** With room for one entry only, a [set] of another key evicts the
    entry. *)
Example set_then_get_needs_room :
  fst (Cache.get (fold_left Cache.step [Cache.OpSet "/r/b.txt" 8 10%Z]
                    (Cache.set (Cache.create 1 30000) 0 "/r/a.txt" 7))
                 20 "/r/a.txt")
  = None.
Proof. reflexivity. Qed.

(** X4 on a run that sets a key twice and reads it. *)
Lemma get_returns_latest_set_witness :
  let ops := [Cache.OpSet "a" 1 0%Z; Cache.OpSet "b" 2 5%Z; Cache.OpSet "a" 3 10%Z] in
  fst (Cache.get (fst (Cache.run 2 100 ops)) 50 "a") = Some 3
  /\ exists t, CacheHistory.lastSet ops "a" = Some (3, t) /\ (50 <= t + 100)%Z.
Proof.
  intros ops.
  assert (H : fst (Cache.get (fst (Cache.run 2 100 ops)) 50 "a") = Some 3)
    by reflexivity.
  split; [exact H|].
  exact (get_returns_latest_set 2 100 ops "a" 50 3 H).
Defined.

(** ** [getFileInfo] and its cache, further *)

Section MetadataFurther.
Import Cache CacheHistory MetadataHistory.
Variable h : Host.

Lemma get_params {T : Type} (c : LRUCache T) (now : number) (key : string) :
  maxSize (snd (get c now key)) = maxSize c /\ ttl (snd (get c now key)) = ttl c.
Proof.
  unfold get. destruct (mapGet key (cache c)) as [entry|]; [|now split].
  now destruct (now >? expires entry)%Z.
Qed.

(** A [get] that returns nothing leaves no entry under the key. *)
Lemma get_none_absent {T : Type} (c : LRUCache T) (now : number) (key : string) :
  fst (get c now key) = None -> mapGet key (cache (snd (get c now key))) = None.
Proof.
  unfold get. destruct (mapGet key (cache c)) as [entry|] eqn:G; [|intros _; exact G].
  destruct (now >? expires entry)%Z; [|discriminate].
  intros _. apply mapGet_mapDelete_same.
Qed.

(** [getFileInfo] when the cache has nothing to give: one [stat], whose
    result is stored, or whose failure is wrapped. *)
Lemma getFileInfo_miss (p : string) (w : World) :
  fst (get (metadataCache w) (now w) p) = None ->
  Metadata.getFileInfo h p w
  = let w' := emit (EvStat p) (withCache (snd (get (metadataCache w) (now w) p)) w) in
    match fsStat (fs h) p with
    | Ok stats =>
        let info := {| path := p;
                       name := Metadata.basename p;
                       size := statSize stats;
                       modified := mtimeISO stats;
                       isDirectory := statIsDirectory stats;
                       extension :=
                         if statIsFile stats
                         then Some (substring 1 (String.length (Metadata.extname p))
                                              (Metadata.extname p))
                         else None |} in
        (Ok info, withCache (set (metadataCache w') (now w') p info) w')
    | Throw e => (Throw ("Failed to get info for '" +++ p +++ "': " +++ e), w')
    end.
Proof.
  intros Hmiss. unfold Metadata.getFileInfo, bind, Metadata.cacheGet.
  destruct (get (metadataCache w) (now w) p) as [cached c]. simpl in Hmiss. subst cached.
  unfold tryCatch, bind, stat, Metadata.cacheSet, ret, throw. simpl.
  now destruct (fsStat (fs h) p).
Qed.

Lemma getFileInfo_hit (p : string) (w : World) (info : FileInfo) :
  fst (get (metadataCache w) (now w) p) = Some info ->
  Metadata.getFileInfo h p w
  = (Ok info, withCache (snd (get (metadataCache w) (now w) p)) w).
Proof.
  intros Hhit. unfold Metadata.getFileInfo, bind, Metadata.cacheGet.
  destruct (get (metadataCache w) (now w) p) as [cached c]. simpl in Hhit.
  now subst cached.
Qed.

(** A call of [getFileInfo] for another path keeps the entry of [p] when
    fewer than [maxSize - 1] entries follow it, and puts at most one more
    after it. *)
Lemma visit_keeps (p : string) (e : CacheEntry FileInfo) (call : string * number)
    (w : World) :
  fst call <> p ->
  mapGet p (cache (metadataCache w)) = Some e ->
  (Z.of_nat (behind p (cache (metadataCache w))) + 1 < maxSize (metadataCache w))%Z ->
  mapGet p (cache (metadataCache (visit h w call))) = Some e
  /\ behind p (cache (metadataCache (visit h w call)))
     <= S (behind p (cache (metadataCache w)))
  /\ maxSize (metadataCache (visit h w call)) = maxSize (metadataCache w).
Proof.
  destruct call as [q t]. simpl fst. intros Hq Hg Hroom. unfold visit. simpl fst. simpl snd.
  set (wt := atTime t w).
  assert (Hc : metadataCache wt = metadataCache w) by reflexivity.
  destruct (get_other_keeps (metadataCache w) t p q e Hq Hg) as (Hg1 & Hb1 & Hnone).
  destruct (get_params (metadataCache w) t q) as [Hm1 _].
  destruct (fst (get (metadataCache wt) (now wt) q)) as [cached|] eqn:G.
  - rewrite (getFileInfo_hit _ _ _ G). simpl. split; [exact Hg1|]. split; [exact Hb1 | exact Hm1].
  - rewrite (getFileInfo_miss _ _ G). cbv zeta.
    specialize (Hnone G).
    destruct (fsStat (fs h) q) as [stats|cause]; simpl.
    + match goal with
      | |- context [set ?c ?n q ?i] =>
          destruct (set_other_keeps c n p q i e Hq Hg1) as [Hg2 Hb2];
            [rewrite Hm1; lia|];
            pose proof (step_maxSize c (OpSet q i n)) as Hm2
      end.
      simpl in Hm2. split; [exact Hg2|]. split; [lia | congruence].
    + split; [exact Hg1|]. split; [lia | exact Hm1].
Qed.

(** Calls of [getFileInfo] for other paths, fewer than the room left after
    the entry of [p], keep that entry. *)
Lemma visits_keep (p : string) (e : CacheEntry FileInfo)
    (others : list (string * number)) (w : World) :
  Forall (fun call => fst call <> p) others ->
  mapGet p (cache (metadataCache w)) = Some e ->
  (Z.of_nat (behind p (cache (metadataCache w)) + List.length others)
   < maxSize (metadataCache w))%Z ->
  mapGet p (cache (metadataCache (fold_left (visit h) others w))) = Some e.
Proof.
  revert w. induction others as [|call rest IH]; intros w Hall Hg Hroom; simpl;
    [exact Hg|].
  inversion Hall as [|? ? Hcall Hrest]; subst. simpl List.length in Hroom.
  destruct (visit_keeps p e call w Hcall Hg) as (Hg' & Hb' & Hm'); [lia|].
  apply IH; [exact Hrest | exact Hg' |]. rewrite Hm'. lia.
Qed.

(** X5: once [getFileInfo] has asked the filesystem about a path, a later
    call for that path, made within the time-to-live, returns the same
    record without touching the filesystem, whatever calls of [getFileInfo]
    were made for other paths in between, at whatever times, as long as they
    are fewer than the [maxSize] of the cache. *)
Theorem getFileInfo_cached_after_stat (p : string) (w w1 : World) (info : FileInfo)
    (others : list (string * number)) (later : number) :
  Metadata.getFileInfo h p w = (Ok info, w1) ->
  trace w1 <> trace w ->
  Forall (fun call => fst call <> p) others ->
  (Z.of_nat (List.length others) < maxSize (metadataCache w))%Z ->
  (later <= now w + ttl (metadataCache w))%Z ->
  let w2 := atTime later (fold_left (visit h) others w1) in
  fst (Metadata.getFileInfo h p w2) = Ok info
  /\ trace (snd (Metadata.getFileInfo h p w2)) = trace w2.
Proof.
  intros Hcall Hstat Hothers Hroom Hlater w2.
  destruct (fst (get (metadataCache w) (now w) p)) as [cached|] eqn:G.
  - rewrite (getFileInfo_hit _ _ _ G) in Hcall. injection Hcall as _ <-.
    now contradiction Hstat.
  - rewrite (getFileInfo_miss _ _ G) in Hcall. cbv zeta in Hcall.
    destruct (fsStat (fs h) p) as [stats|e]; [|discriminate].
    injection Hcall as Hinfo Hw1.
    destruct (get_params (metadataCache w) (now w) p) as [Hm Ht].
    set (c0 := snd (get (metadataCache w) (now w) p)) in *.
    assert (Hc1 : metadataCache w1 = set c0 (now w) p info).
    { subst w1. cbn [metadataCache now withCache emit]. now rewrite Hinfo. }
    assert (Hg : mapGet p (cache (metadataCache w1))
                 = Some {| value := info; expires := (now w + ttl (metadataCache w))%Z |}).
    { rewrite Hc1, mapGet_after_set by (rewrite Hm; lia). now rewrite Ht. }
    assert (Hm1 : maxSize (metadataCache w1) = maxSize (metadataCache w)).
    { rewrite Hc1. pose proof (step_maxSize c0 (OpSet p info (now w))) as S1.
      simpl in S1. congruence. }
    assert (Hkeep := visits_keep p _ others w1 Hothers Hg).
    rewrite Hc1, behind_after_set, <- Hc1, Hm1 in Hkeep. specialize (Hkeep Hroom).
    assert (Hget : fst (get (metadataCache w2) (now w2) p) = Some info).
    { subst w2. cbn [metadataCache now atTime]. unfold get at 1. rewrite Hkeep.
      cbn [expires value].
      destruct (Z.gtb_spec later (now w + ttl (metadataCache w))); [lia | reflexivity]. }
    rewrite (getFileInfo_hit _ _ _ Hget). now split.
Qed.

(** X6: a failure of [getFileInfo] is the failure of [fs.stat], wrapped
    with the path; it is not cached, so that a later call asks the
    filesystem again. *)
Theorem getFileInfo_failure_not_cached (p : string) (w w1 : World) (e : Error) :
  Metadata.getFileInfo h p w = (Throw e, w1) ->
  (exists cause, fsStat (fs h) p = Throw cause
                 /\ e = "Failed to get info for '" +++ p +++ "': " +++ cause)
  /\ trace w1 = trace w ++ [EvStat p]
  /\ forall t, fst (get (metadataCache w1) t p) = None.
Proof.
  intros Hcall.
  destruct (fst (get (metadataCache w) (now w) p)) as [cached|] eqn:G.
  - rewrite (getFileInfo_hit _ _ _ G) in Hcall. discriminate.
  - rewrite (getFileInfo_miss _ _ G) in Hcall. cbv zeta in Hcall.
    destruct (fsStat (fs h) p) as [stats|cause]; [discriminate|].
    injection Hcall as <- <-. split; [now exists cause|]. split; [reflexivity|].
    intros t. pose proof (get_none_absent _ _ _ G) as Ha.
    unfold get at 1. cbn [metadataCache emit withCache]. now rewrite Ha.
Qed.

End MetadataFurther.

(** X5 on the example tree: after two calls for other paths, the second
    call for the path, 30 seconds after the first, is served from the
    cache. *)
Lemma getFileInfo_cached_after_stat_witness :
  let h := Demo.host Demo.tree in
  let r := Metadata.getFileInfo h "/r/a.txt" Demo.start in
  let others := [("/r/data.json", 10%Z); ("/r/none", 20%Z)] in
  let w2 := MetadataHistory.atTime 30000
              (fold_left (MetadataHistory.visit h) others (snd r)) in
  trace w2 = [EvStat "/r/a.txt"; EvStat "/r/data.json"; EvStat "/r/none"]
  /\ exists info, fst r = Ok info
     /\ fst (Metadata.getFileInfo h "/r/a.txt" w2) = Ok info
     /\ trace (snd (Metadata.getFileInfo h "/r/a.txt" w2)) = trace w2.
Proof.
  intros h r others w2. split; [reflexivity|].
  destruct r as [[info|e] w1] eqn:Hr; [|discriminate].
  exists info. split; [reflexivity|].
  assert (Htrace : trace w1 <> trace Demo.start)
    by (injection Hr as _ <-; discriminate).
  assert (Hothers : Forall (fun call => fst call <> "/r/a.txt") others)
    by (repeat constructor; discriminate).
  assert (Hroom : (Z.of_nat (List.length others)
                   < Cache.maxSize (metadataCache Demo.start))%Z) by (simpl; lia).
  assert (Hlater : (30000 <= now Demo.start + Cache.ttl (metadataCache Demo.start))%Z)
    by (simpl; lia).
  exact (getFileInfo_cached_after_stat h "/r/a.txt" Demo.start w1 info others 30000
           Hr Htrace Hothers Hroom Hlater).
Defined.

(** X6 on the example tree: a path that does not exist. *)
Lemma getFileInfo_failure_not_cached_witness :
  let h := Demo.host Demo.tree in
  let r := Metadata.getFileInfo h "/r/none" Demo.start in
  fst r = Throw ("Failed to get info for '/r/none': " +++ Demo.ENOENT "/r/none")
  /\ trace (snd r) = trace Demo.start ++ [EvStat "/r/none"]
  /\ forall t, fst (Cache.get (metadataCache (snd r)) t "/r/none") = None.
Proof.
  intros h r.
  assert (Hr : r = (Throw ("Failed to get info for '/r/none': " +++ Demo.ENOENT "/r/none"),
                    snd r)) by reflexivity.
  split; [reflexivity|].
  exact (proj2 (getFileInfo_failure_not_cached h "/r/none" Demo.start (snd r) _ Hr)).
Defined.

(** ** The flat listing, further: depth, hidden entries, name pattern, and
    the filesystem calls of a walk *)

Lemma getFileInfo_trace (h : Host) (p : string) (w : World) :
  trace (snd (Metadata.getFileInfo h p w)) = trace w
  \/ trace (snd (Metadata.getFileInfo h p w)) = trace w ++ [EvStat p].
Proof.
  destruct (fst (Cache.get (metadataCache w) (now w) p)) as [cached|] eqn:G.
  - left. now rewrite (getFileInfo_hit h _ _ _ G).
  - right. rewrite (getFileInfo_miss h _ _ G). cbv zeta.
    now destruct (fsStat (fs h) p).
Qed.

Section WalkerListing.
Import Walker JsString Path Listing.
Variable h : Host.
Variable ig : Ignore.
Variable bs : list string.
Hypothesis fs_ok : fsNamesOk h.
Hypothesis bs_ok : Forall (fun s => segOk s = true) bs.
Variables (maxDepth : number) (recursive includeHidden : bool).
Variable pattern : option string.
Variable t0 : list Event.

#[local] Abbreviation good :=
  (listGood h maxDepth recursive includeHidden pattern bs t0).
#[local] Abbreviation segsOk := (Forall (fun s => segOk s = true)).
#[local] Abbreviation noDot := (Forall (fun s => startsWith s "." = false)).

Lemma good_later (results : list FileInfo) (w w' : World) (t' : list Event) :
  good results w -> cacheSound w' -> trace w' = trace w ++ t' ->
  Forall (confined bs) t' -> good results w'.
Proof.
  intros (Hrs & _ & t & Ht & Hconf) Hw' Ht' Hconf'.
  split; [exact Hrs|]. split; [exact Hw'|].
  exists (t ++ t'). split.
  - now rewrite Ht', Ht, app_assoc.
  - apply Forall_app. now split.
Qed.

Lemma good_push (results : list FileInfo) (w : World) (info : FileInfo) :
  good results w -> listed h maxDepth recursive includeHidden pattern bs info ->
  good (results ++ [info]) w.
Proof.
  intros (Hrs & Hw & Ht) Hinfo. split; [|now split].
  apply Forall_app. split; [assumption | now constructor].
Qed.

Lemma walkEntries_listed
    (walk : string -> list FileInfo -> number -> World -> list FileInfo * World)
    (ds : list string) :
  segsOk ds ->
  (Z.of_nat (List.length ds) <= maxDepth)%Z ->
  (recursive = false -> ds = []) ->
  (includeHidden = false -> noDot ds) ->
  (forall ds' rs w,
      segsOk ds' -> (includeHidden = false -> noDot ds') -> recursive = true ->
      good rs w ->
      good (fst (walk (canon (bs ++ ds')) rs (Z.of_nat (List.length ds')) w))
           (snd (walk (canon (bs ++ ds')) rs (Z.of_nat (List.length ds')) w))) ->
  forall entries, segsOk entries ->
  forall results w, good results w ->
    let out := walkEntries h recursive includeHidden pattern ig (canon bs) walk
                           (canon (bs ++ ds)) (Z.of_nat (List.length ds))
                           entries results w in
    good (snd (fst out)) (snd out).
Proof.
  intros Hds Hdepth Hflat Hdots Hwalk.
  induction entries as [|entry rest IH]; intros Hentries results w Hgood; simpl.
  - exact Hgood.
  - inversion Hentries as [|? ? He Hrest]; subst. specialize (IH Hrest).
    destruct (negb includeHidden && startsWith entry ".") eqn:Hhid; [now apply IH|].
    destruct (entry_paths h bs bs_ok ds entry Hds He) as [Efull Erel].
    rewrite Efull, Erel.
    destruct (ignores h ig (join "/" (ds ++ [entry]))); [now apply IH|].
    assert (Hds' : segsOk (ds ++ [entry])).
    { apply Forall_app. split; [assumption | now constructor]. }
    assert (Hdots' : includeHidden = false -> noDot (ds ++ [entry])).
    { intros ->. apply Forall_app. split; [now apply Hdots|].
      constructor; [exact Hhid | constructor]. }
    assert (Hlen : List.length (ds ++ [entry]) = S (List.length ds)).
    { rewrite length_app. simpl. lia. }
    pose proof Hgood as (Hrs & Hw & Ht).
    destruct (getFileInfo_sound h (canon (bs ++ (ds ++ [entry]))) w Hw)
      as [Hw' Hpath].
    assert (Hgood' : good results
                          (snd (Metadata.getFileInfo h (canon (bs ++ (ds ++ [entry]))) w))).
    { destruct (getFileInfo_trace h (canon (bs ++ (ds ++ [entry]))) w) as [E|E].
      - apply (good_later results w _ []); auto. now rewrite app_nil_r.
      - apply (good_later results w _ [EvStat (canon (bs ++ (ds ++ [entry])))]); auto.
        constructor; [|constructor]. now exists (ds ++ [entry]). }
    destruct (Metadata.getFileInfo h _ w) as [[info|e] w']; simpl in Hw', Hpath, Hgood';
      [|exact Hgood'].
    assert (Hinfo : (isDirectory info = false ->
                     filteredOut h pattern (name info) = Ok false) ->
                    listed h maxDepth recursive includeHidden pattern bs info).
    { intros Hpat. exists (ds ++ [entry]).
      split; [now destruct ds|]. split; [exact Hds'|].
      split; [now apply Hpath|]. split; [rewrite Hlen; lia|].
      split; [|split; assumption].
      intros Hr. rewrite Hlen, (Hflat Hr). reflexivity. }
    destruct (isDirectory info) eqn:Hdir.
    + assert (Hpush : good (results ++ [info]) w').
      { apply good_push; [exact Hgood'|]. apply Hinfo. discriminate. }
      destruct recursive eqn:Hrec.
      * replace (Z.of_nat (List.length ds) + 1)%Z
          with (Z.of_nat (List.length (ds ++ [entry]))) by (rewrite Hlen; lia).
        specialize (Hwalk (ds ++ [entry]) (results ++ [info]) w' Hds' Hdots'
                          eq_refl Hpush).
        destruct (walk _ _ _ w') as [rs w'']. simpl in Hwalk. now apply IH.
      * now apply IH.
    + destruct (filteredOut h pattern (name info)) as [[|]|e] eqn:Hpat.
      * now apply IH.
      * apply IH. apply good_push; [exact Hgood'|]. now apply Hinfo.
      * exact Hgood'.
Qed.

Lemma walkDirectory_listed (fuel : nat) :
  forall ds results w,
    segsOk ds ->
    (recursive = false -> ds = []) ->
    (includeHidden = false -> noDot ds) ->
    good results w ->
    let out := walkDirectory h maxDepth recursive includeHidden pattern ig (canon bs)
                             fuel (canon (bs ++ ds)) results
                             (Z.of_nat (List.length ds)) w in
    good (fst out) (snd out).
Proof.
  induction fuel as [|fuel IH]; intros ds results w Hds Hflat Hdots Hgood; simpl.
  - now destruct (Z.of_nat (List.length ds) >? maxDepth)%Z.
  - destruct (Z.gtb_spec (Z.of_nat (List.length ds)) maxDepth) as [|Hdepth];
      [exact Hgood|].
    pose proof Hgood as (_ & Hw & _).
    assert (Hgood1 : good results (emit (EvReaddir (canon (bs ++ ds))) w)).
    { apply (good_later results w _ [EvReaddir (canon (bs ++ ds))]); auto.
      constructor; [|constructor]. now exists ds. }
    unfold readdir. destruct (fsReaddir (fs h) (canon (bs ++ ds))) as [entries|e] eqn:E.
    + pose proof (walkEntries_listed
                    (walkDirectory h maxDepth recursive includeHidden pattern ig
                                   (canon bs) fuel)
                    ds Hds Hdepth Hflat Hdots
                    (fun ds' rs w0 H1 H2 H3 H4 =>
                       IH ds' rs w0 H1 (fun Hr => ltac:(congruence)) H2 H4)
                    entries (fs_ok _ _ E) results _ Hgood1)
        as Hloop.
      destruct (walkEntries _ _ _ _ _ _ _ _ _ _ _ _) as [[[u|e] rs] w2];
        simpl in Hloop |- *; [exact Hloop|].
      apply (good_later rs w2 _ [walkFailed (canon (bs ++ ds)) e]);
        [exact Hloop | apply Hloop | reflexivity | now repeat constructor].
    + apply (good_later results (emit (EvReaddir (canon (bs ++ ds))) w) _
                        [walkFailed (canon (bs ++ ds)) e]);
        [exact Hgood1 | exact Hw | reflexivity | now repeat constructor].
Qed.

End WalkerListing.

Section ListingFurther.
Import Walker JsString Path Listing.
Variable h : Host.
Variable bs : list string.
Hypothesis fs_ok : fsNamesOk h.
Hypothesis bs_ok : Forall (fun s => segOk s = true) bs.

(** A flat listing never fails; each of its entries is one that the
    options let through, and the calls made for it stay at or below the
    root. *)
Lemma listFiles_listed (options : ListFilesOptions) (w : World) :
  cacheSound w ->
  exists listing,
    fst (listFiles h (canon bs) options w) = Ok listing
    /\ Forall (listed h (orDefault (maxDepth options) 10%Z)
                        (orDefault (recursive options) true)
                        (orDefault (includeHidden options) false)
                        (pattern options) bs) listing
    /\ exists t, trace (snd (listFiles h (canon bs) options w)) = trace w ++ t
                 /\ Forall (confined bs) t.
Proof.
  intros Hw. unfold listFiles, bind.
  pose proof (loadIgnoreMatcher_cache h (canon bs) w Hw) as Hw1.
  assert (Ht1 : trace (snd (loadIgnoreMatcher h (canon bs) w))
                = trace w ++ [EvReadFile (canon (bs ++ [".gitignore"]))]).
  { unfold loadIgnoreMatcher, tryCatch, bind, readFile, ignoreFile.
    destruct (entry_paths h bs bs_ok [] ".gitignore" (Forall_nil _) eq_refl)
      as [Efull _].
    rewrite app_nil_r in Efull. simpl app in Efull. rewrite Efull.
    now destruct (fsReadFile (fs h) _ "utf-8"). }
  pose proof (loadIgnoreMatcher_result h (canon bs) w) as Hig.
  destruct (loadIgnoreMatcher h (canon bs) w) as [[ig|e] w1]; simpl in Hig, Hw1, Ht1;
    [|discriminate].
  pose proof (walkDirectory_listed h ig bs fs_ok bs_ok
                (orDefault (maxDepth options) 10%Z)
                (orDefault (recursive options) true)
                (orDefault (includeHidden options) false) (pattern options)
                (trace w)
                (walkFuel (orDefault (maxDepth options) 10%Z))
                [] [] w1 (Forall_nil _) (fun _ => eq_refl) (fun _ => Forall_nil _))
    as Hwalk.
  rewrite app_nil_r in Hwalk. simpl List.length in Hwalk. simpl Z.of_nat in Hwalk.
  destruct (walkDirectory _ _ _ _ _ _ _ _ _ _ _ w1) as [rs w2]. simpl in Hwalk |- *.
  destruct Hwalk as (Hrs & _ & Ht).
  { split; [constructor|]. split; [exact Hw1|].
    exists [EvReadFile (canon (bs ++ [".gitignore"]))]. split; [exact Ht1|].
    constructor; [|constructor]. exists [".gitignore"]. now repeat constructor. }
  exists (sortBy (compareEntries h) rs). split; [reflexivity|]. split; [|exact Ht].
  apply Forall_forall. intros x Hx. apply In_sortBy in Hx.
  rewrite Forall_forall in Hrs. now apply Hrs.
Qed.

(** X7: every entry of a flat listing lies below the root, at most
    [maxDepth + 1] levels down (10 + 1 by default), and exactly one level
    down when [recursive] is false. *)
Theorem listFiles_depth_bound (options : ListFilesOptions) (w : World)
    (listing : list FileInfo) (info : FileInfo) :
  cacheSound w ->
  fst (listFiles h (canon bs) options w) = Ok listing ->
  In info listing ->
  exists rel,
    path info = canon (bs ++ rel)
    /\ Forall (fun s => segOk s = true) rel
    /\ (1 <= Z.of_nat (List.length rel) <= orDefault (maxDepth options) 10 + 1)%Z
    /\ (recursive options = Some false -> List.length rel = 1).
Proof.
  intros Hw Hlist Hin.
  destruct (listFiles_listed options w Hw) as (listing' & E & Hall & _).
  rewrite E in Hlist. injection Hlist as ->.
  rewrite Forall_forall in Hall.
  destruct (Hall info Hin) as (rel & Hne & Hrel & Hpath & Hdepth & Hflat & _).
  exists rel. split; [exact Hpath|]. split; [exact Hrel|]. split.
  - destruct rel; [contradiction | simpl List.length in *; lia].
  - intros Hr. apply Hflat. now rewrite Hr.
Qed.

(** X8: unless [includeHidden] is true, no entry of a flat listing has a
    name that starts with a dot, nor lies under a directory of the root
    that has one. *)
Theorem listFiles_skips_hidden (options : ListFilesOptions) (w : World)
    (listing : list FileInfo) (info : FileInfo) :
  cacheSound w ->
  includeHidden options <> Some true ->
  fst (listFiles h (canon bs) options w) = Ok listing ->
  In info listing ->
  exists rel,
    path info = canon (bs ++ rel)
    /\ Forall (fun s => segOk s = true) rel
    /\ Forall (fun s => startsWith s "." = false) rel.
Proof.
  intros Hw Hhid Hlist Hin.
  destruct (listFiles_listed options w Hw) as (listing' & E & Hall & _).
  rewrite E in Hlist. injection Hlist as ->.
  rewrite Forall_forall in Hall.
  destruct (Hall info Hin) as (rel & _ & Hrel & Hpath & _ & _ & Hdots & _).
  exists rel. split; [exact Hpath|]. split; [exact Hrel|].
  apply Hdots. destruct (includeHidden options) as [[|]|]; [congruence | | ]; reflexivity.
Qed.


(** X10: a flat listing reads directories, metadata and the ignore file at
    the root or below it only: no call of the filesystem leaves the root. *)
Theorem listFiles_stays_below_root (options : ListFilesOptions) (w : World) :
  cacheSound w ->
  exists t, trace (snd (listFiles h (canon bs) options w)) = trace w ++ t
            /\ Forall (confined bs) t.
Proof.
  intros Hw. destruct (listFiles_listed options w Hw) as (_ & _ & _ & Ht). exact Ht.
Qed.

End ListingFurther.

(** X7 on the example tree, listed without recursion. *)
Lemma listFiles_depth_bound_witness :
  let h := Demo.host Demo.tree in
  let options := {| Walker.pattern := None; Walker.recursive := Some false;
                    Walker.maxDepth := None; Walker.includeHidden := None |} in
  Walker.fsNamesOk h
  /\ Forall (fun s => Path.segOk s = true) ["r"]
  /\ Walker.cacheSound Demo.start
  /\ forall listing info,
       fst (Walker.listFiles h "/r" options Demo.start) = Ok listing ->
       In info listing ->
       exists rel,
         path info = Path.canon (["r"] ++ rel)
         /\ Forall (fun s => Path.segOk s = true) rel
         /\ (1 <= Z.of_nat (List.length rel) <= 10 + 1)%Z
         /\ (Some false = Some false -> List.length rel = 1).
Proof.
  intros h options.
  assert (H1 : Walker.fsNamesOk h) by (apply tableFs_namesOk; reflexivity).
  assert (H2 : Forall (fun s => Path.segOk s = true) ["r"])
    by (repeat constructor).
  assert (H3 : Walker.cacheSound Demo.start) by (intros k e []).
  repeat (split; [assumption|]).
  intros listing info.
  exact (listFiles_depth_bound h ["r"] H1 H2 options Demo.start listing info H3).
Defined.

(** X8 on the example tree, whose root holds an ignore file. *)
Lemma listFiles_skips_hidden_witness :
  let h := Demo.host Demo.tree in
  Walker.fsNamesOk h
  /\ Forall (fun s => Path.segOk s = true) ["r"]
  /\ Walker.cacheSound Demo.start
  /\ Walker.includeHidden Walker.noOptions <> Some true
  /\ forall listing info,
       fst (Walker.listFiles h "/r" Walker.noOptions Demo.start) = Ok listing ->
       In info listing ->
       exists rel,
         path info = Path.canon (["r"] ++ rel)
         /\ Forall (fun s => Path.segOk s = true) rel
         /\ Forall (fun s => JsString.startsWith s "." = false) rel.
Proof.
  intros h.
  assert (H1 : Walker.fsNamesOk h) by (apply tableFs_namesOk; reflexivity).
  assert (H2 : Forall (fun s => Path.segOk s = true) ["r"])
    by (repeat constructor).
  assert (H3 : Walker.cacheSound Demo.start) by (intros k e []).
  assert (H4 : Walker.includeHidden Walker.noOptions <> Some true) by discriminate.
  repeat (split; [assumption|]).
  intros listing info.
  exact (listFiles_skips_hidden h ["r"] H1 H2 Walker.noOptions Demo.start listing info
           H3 H4).
Defined.


(** X10 on the example tree. *)
Lemma listFiles_stays_below_root_witness :
  let h := Demo.host Demo.tree in
  Walker.fsNamesOk h
  /\ Forall (fun s => Path.segOk s = true) ["r"]
  /\ Walker.cacheSound Demo.start
  /\ exists t,
       trace (snd (Walker.listFiles h "/r" Walker.noOptions Demo.start))
       = trace Demo.start ++ t
       /\ Forall (Listing.confined ["r"]) t.
Proof.
  intros h.
  assert (H1 : Walker.fsNamesOk h) by (apply tableFs_namesOk; reflexivity).
  assert (H2 : Forall (fun s => Path.segOk s = true) ["r"])
    by (repeat constructor).
  assert (H3 : Walker.cacheSound Demo.start) by (intros k e []).
  repeat (split; [assumption|]).
  exact (listFiles_stays_below_root h ["r"] H1 H2 Walker.noOptions Demo.start H3).
Defined.

(** ** The order of a listing *)

Section SortOrder.
Import Walker.
Context {A : Type}.
Variable cmp : A -> A -> number.

#[local] Abbreviation le := (fun a b => (cmp a b <= 0)%Z).

Hypothesis cmp_total : forall a b, (0 < cmp a b)%Z -> (cmp b a <= 0)%Z.
Hypothesis cmp_trans : forall a b c, (cmp a b <= 0)%Z -> (cmp b c <= 0)%Z -> (cmp a c <= 0)%Z.

Lemma insertBy_sorted (x : A) (l : list A) :
  StronglySorted le l -> StronglySorted le (insertBy cmp x l).
Proof.
  induction 1 as [|y r Hr IH Hy]; simpl.
  - constructor; constructor.
  - destruct (Z.leb_spec (cmp x y) 0) as [Hxy|Hxy].
    + constructor; [now constructor|]. constructor; [exact Hxy|].
      eapply Forall_impl; [|exact Hy]. intros z Hz. now apply (cmp_trans x y z).
    + constructor; [exact IH|]. apply Forall_forall. intros z Hz.
      apply In_insertBy in Hz as [->|Hz]; [now apply cmp_total|].
      rewrite Forall_forall in Hy. now apply Hy.
Qed.

(** With a comparator that is a total preorder, the sort yields a sorted
    list. *)
Lemma sortBy_sorted (l : list A) : StronglySorted le (sortBy cmp l).
Proof.
  induction l as [|x l IH]; simpl; [constructor | now apply insertBy_sorted].
Qed.

End SortOrder.

Section EntryOrder.
Import Walker.
Variable h : Host.
Context {A : Type}.
Variable f : A -> FileInfo.

(** No file before a directory. *)
#[local] Abbreviation kindOrder :=
  (fun a b : A => isDirectory (f b) = true -> isDirectory (f a) = true).
#[local] Abbreviation cmp := (fun a b : A => compareEntries h (f a) (f b)).

Lemma insertBy_kindOrder (x : A) (l : list A) :
  StronglySorted kindOrder l -> StronglySorted kindOrder (insertBy cmp x l).
Proof.
  induction 1 as [|y r Hr IH Hy]; simpl.
  - constructor; constructor.
  - assert (Hyr : StronglySorted kindOrder (y :: r)) by now constructor.
    unfold compareEntries at 1.
    destruct (isDirectory (f x)) eqn:Hx; case_eq (isDirectory (f y)); intros Hyd; simpl.
    + destruct (localeCompare h (name (f x)) (name (f y)) <=? 0)%Z.
      * constructor; [exact Hyr|]. apply Forall_forall. now intros z _ _.
      * constructor; [exact IH|]. apply Forall_forall. now intros z _ _.
    + constructor; [exact Hyr|]. apply Forall_forall. now intros z _ _.
    + constructor; [exact IH|]. apply Forall_forall. now intros z _ _.
    + assert (Hfiles : Forall (fun z => isDirectory (f z) = false) r).
      { eapply Forall_impl; [|exact Hy]. intros z Hz. simpl in Hz.
        destruct (isDirectory (f z)); [|reflexivity]. specialize (Hz eq_refl).
        congruence. }
      destruct (localeCompare h (name (f x)) (name (f y)) <=? 0)%Z.
      * constructor; [exact Hyr|]. constructor; [congruence|].
        eapply Forall_impl; [|exact Hfiles]. intros z Hz. simpl in Hz. congruence.
      * constructor; [exact IH|]. apply Forall_forall. intros z Hz.
        apply In_insertBy in Hz as [->|Hz]; [congruence|].
        rewrite Forall_forall in Hfiles. specialize (Hfiles z Hz). congruence.
Qed.

(** Whatever [localeCompare] answers, the sort puts the directories
    first. *)
Lemma sortBy_kindOrder (l : list A) : StronglySorted kindOrder (sortBy cmp l).
Proof.
  induction l as [|x l IH]; simpl; [constructor | now apply insertBy_kindOrder].
Qed.

End EntryOrder.

Section EntryPreorder.
Import Walker.
Variable h : Host.

Lemma compareEntries_total :
  (forall a b, (0 < localeCompare h a b)%Z -> (localeCompare h b a <= 0)%Z) ->
  forall a b, (0 < compareEntries h a b)%Z -> (compareEntries h b a <= 0)%Z.
Proof.
  intros Htot a b. unfold compareEntries.
  destruct (isDirectory a), (isDirectory b); simpl; try lia; apply Htot.
Qed.

Lemma compareEntries_trans :
  (forall a b c, (localeCompare h a b <= 0)%Z -> (localeCompare h b c <= 0)%Z ->
                 (localeCompare h a c <= 0)%Z) ->
  forall a b c, (compareEntries h a b <= 0)%Z -> (compareEntries h b c <= 0)%Z ->
                (compareEntries h a c <= 0)%Z.
Proof.
  intros Htrans a b c. unfold compareEntries.
  destruct (isDirectory a), (isDirectory b), (isDirectory c); simpl; try lia;
    apply Htrans.
Qed.

End EntryPreorder.

Section ListingOrder.
Import Walker.
Variable h : Host.

Lemma listFiles_sortBy (rootPath : string) (options : ListFilesOptions) (w : World)
    (listing : list FileInfo) :
  fst (listFiles h rootPath options w) = Ok listing ->
  exists results, listing = sortBy (compareEntries h) results.
Proof.
  unfold listFiles, bind.
  destruct (loadIgnoreMatcher h rootPath w) as [[ig|e] w1]; [|discriminate].
  destruct (walkDirectory _ _ _ _ _ _ _ _ _ _ _ w1) as [rs w2]. simpl.
  intros [= <-]. now exists rs.
Qed.

(** In a flat listing no file comes before a directory, whatever the
    names are and however [localeCompare] orders them. *)
Lemma listFiles_directories_first (rootPath : string) (options : ListFilesOptions)
    (w : World) (listing : list FileInfo) :
  fst (listFiles h rootPath options w) = Ok listing ->
  StronglySorted (fun a b => isDirectory b = true -> isDirectory a = true) listing.
Proof.
  intros Hlist. apply listFiles_sortBy in Hlist as [rs ->].
  exact (sortBy_kindOrder h (fun info => info) rs).
Qed.

(** X12: when [localeCompare] is a total preorder on names, a flat listing
    is sorted by the comparator of the code: each entry is followed only by
    entries that it does not come after, so that directories, and then
    files, are in the order of their names. *)
Theorem listFiles_sorted (rootPath : string) (options : ListFilesOptions)
    (w : World) (listing : list FileInfo) :
  (forall a b, (0 < localeCompare h a b)%Z -> (localeCompare h b a <= 0)%Z) ->
  (forall a b c, (localeCompare h a b <= 0)%Z -> (localeCompare h b c <= 0)%Z ->
                 (localeCompare h a c <= 0)%Z) ->
  fst (listFiles h rootPath options w) = Ok listing ->
  StronglySorted (fun a b => (compareEntries h a b <= 0)%Z) listing.
Proof.
  intros Htot Htrans Hlist. apply listFiles_sortBy in Hlist as [rs ->].
  apply sortBy_sorted.
  - now apply compareEntries_total.
  - now apply compareEntries_trans.
Qed.

End ListingOrder.

(** Code-unit order is a total preorder. *)
Lemma byteCompare_total (a b : string) :
  (0 < Demo.byteCompare a b)%Z -> (Demo.byteCompare b a <= 0)%Z.
Proof.
  unfold Demo.byteCompare. rewrite (String.compare_antisym a b).
  destruct (String.compare b a); simpl; lia.
Qed.

Lemma byteCompare_trans (a b c : string) :
  (Demo.byteCompare a b <= 0)%Z -> (Demo.byteCompare b c <= 0)%Z ->
  (Demo.byteCompare a c <= 0)%Z.
Proof.
  unfold Demo.byteCompare.
  destruct (String.compare a b) eqn:Eab; [| |lia];
    destruct (String.compare b c) eqn:Ebc; try lia; intros _ _.
  - apply String.compare_eq_iff in Eab, Ebc. subst.
    assert (E : String.compare c c = Eq) by now apply OrderedTypeEx.String_as_OT.cmp_eq.
    rewrite E. lia.
  - apply String.compare_eq_iff in Eab. subst. rewrite Ebc. lia.
  - apply String.compare_eq_iff in Ebc. subst. rewrite Eab. lia.
  - assert (E : String.compare a c = Lt).
    { apply OrderedTypeEx.String_as_OT.cmp_lt.
      apply (OrderedTypeEx.String_as_OT.lt_trans a b c);
        now apply OrderedTypeEx.String_as_OT.cmp_lt. }
    rewrite E. lia.
Qed.

(** On the example tree. *)
Lemma listFiles_directories_first_witness :
  let h := Demo.host Demo.tree in
  exists listing,
    fst (Walker.listFiles h "/r" Walker.noOptions Demo.start) = Ok listing
    /\ StronglySorted (fun a b => isDirectory b = true -> isDirectory a = true) listing.
Proof.
  intros h.
  destruct (fst (Walker.listFiles h "/r" Walker.noOptions Demo.start))
    as [listing|e] eqn:E; [|discriminate].
  exists listing. split; [reflexivity|].
  exact (listFiles_directories_first h "/r" Walker.noOptions Demo.start listing E).
Defined.

(** X12 on the example tree, names in code-unit order. *)
Lemma listFiles_sorted_witness :
  let h := Demo.host Demo.tree in
  (forall a b, (0 < localeCompare h a b)%Z -> (localeCompare h b a <= 0)%Z)
  /\ (forall a b c, (localeCompare h a b <= 0)%Z -> (localeCompare h b c <= 0)%Z ->
                    (localeCompare h a c <= 0)%Z)
  /\ exists listing,
       fst (Walker.listFiles h "/r" Walker.noOptions Demo.start) = Ok listing
       /\ StronglySorted (fun a b => (Walker.compareEntries h a b <= 0)%Z) listing.
Proof.
  intros h.
  split; [exact byteCompare_total|]. split; [exact byteCompare_trans|].
  destruct (fst (Walker.listFiles h "/r" Walker.noOptions Demo.start))
    as [listing|e] eqn:E; [|discriminate].
  exists listing. split; [reflexivity|].
  exact (listFiles_sorted h "/r" Walker.noOptions Demo.start listing
           byteCompare_total byteCompare_trans E).
Defined.

(** ** The depth limit ends the recursion *)

Section WalkFuel.
Import Walker.
Variable h : Host.
Variables (maxDepth : number) (recursive includeHidden : bool).
Variable pattern : option string.
Variable ig : Ignore.
Variable basePath : string.

Lemma walkEntries_ext
    (walk1 walk2 : string -> list FileInfo -> number -> World -> list FileInfo * World)
    (dirPath : string) (currentDepth : number) :
  (forall p rs w, walk1 p rs (currentDepth + 1)%Z w = walk2 p rs (currentDepth + 1)%Z w) ->
  forall entries results w,
    walkEntries h recursive includeHidden pattern ig basePath walk1 dirPath
                currentDepth entries results w
    = walkEntries h recursive includeHidden pattern ig basePath walk2 dirPath
                  currentDepth entries results w.
Proof.
  intros Hwalk. induction entries as [|entry rest IH]; intros results w; simpl;
    [reflexivity|].
  destruct (negb includeHidden && JsString.startsWith entry "."); [apply IH|].
  destruct (ignores h ig _); [apply IH|].
  destruct (Metadata.getFileInfo h _ w) as [[info|e] w']; [|reflexivity].
  destruct (isDirectory info).
  - destruct recursive; [|apply IH].
    rewrite Hwalk. destruct (walk2 _ _ _ w') as [rs w'']. apply IH.
  - destruct (filteredOut h pattern (name info)) as [[|]|e]; [apply IH | apply IH |].
    reflexivity.
Qed.

(** A walk started at depth [d] nests at most [maxDepth - d + 1]
    calls of [walkDirectory]: any two bounds on the nesting that are at
    least that large give the same results and the same final state, so
    that the depth limit alone ends the recursion. *)
Lemma walkDirectory_depth_suffices (fuel1 fuel2 : nat) :
  forall (dirPath : string) (results : list FileInfo) (currentDepth : number)
         (w : World),
    Z.to_nat (maxDepth - currentDepth + 1) <= fuel1 ->
    Z.to_nat (maxDepth - currentDepth + 1) <= fuel2 ->
    walkDirectory h maxDepth recursive includeHidden pattern ig basePath
                  fuel1 dirPath results currentDepth w
    = walkDirectory h maxDepth recursive includeHidden pattern ig basePath
                    fuel2 dirPath results currentDepth w.
Proof.
  revert fuel2. induction fuel1 as [|fuel1 IH]; intros fuel2 dirPath results d w H1 H2.
  - destruct fuel2; simpl; [reflexivity|].
    destruct (Z.gtb_spec d maxDepth); [reflexivity | lia].
  - destruct fuel2 as [|fuel2]; simpl.
    + destruct (Z.gtb_spec d maxDepth); [reflexivity | lia].
    + destruct (Z.gtb_spec d maxDepth); [reflexivity|].
      unfold readdir. destruct (fsReaddir (fs h) dirPath) as [entries|e]; [|reflexivity].
      rewrite (walkEntries_ext
                 (walkDirectory h maxDepth recursive includeHidden pattern ig basePath fuel1)
                 (walkDirectory h maxDepth recursive includeHidden pattern ig basePath fuel2)
                 dirPath d); [reflexivity|].
      intros p rs w0. apply IH; lia.
Qed.

End WalkFuel.

Section TreeFuel.
Import Walker.
Variable h : Host.
Variables (maxDepth : number) (includeHidden : bool).
Variable basePath : string.

Lemma treeChildren_ext (subtree1 subtree2 : string -> M DirTreeNode) (ig : Ignore)
    (rootPath : string) :
  (forall p w, subtree1 p w = subtree2 p w) ->
  forall entries children w,
    treeChildren h includeHidden basePath subtree1 ig rootPath entries children w
    = treeChildren h includeHidden basePath subtree2 ig rootPath entries children w.
Proof.
  intros Hsub. induction entries as [|entry rest IH]; intros children w; simpl;
    [reflexivity|].
  destruct (negb includeHidden && JsString.startsWith entry "."); [apply IH|].
  destruct (ignores h ig _); [apply IH|].
  unfold bind. rewrite Hsub.
  destruct (subtree2 _ w) as [[child|e] w']; [apply IH | reflexivity].
Qed.

(** [getDirectoryTree], one call unfolded. *)
Lemma getDirectoryTree_eq (fuel : nat) (rootPath : string) (currentDepth : number)
    (matcher : option Ignore) (w : World) :
  getDirectoryTree h maxDepth includeHidden basePath fuel rootPath currentDepth
                   matcher w
  = match match matcher with
          | Some ig => (Ok ig, w)
          | None => loadIgnoreMatcher h basePath w
          end with
    | (Throw e, w0) => (Throw e, w0)
    | (Ok ig, w0) =>
        match Metadata.getFileInfo h rootPath w0 with
        | (Throw e, w1) => (Throw e, w1)
        | (Ok info, w1) =>
            if negb (isDirectory info) || (currentDepth >=? maxDepth)%Z
            then (Ok (TreeNode info None), w1)
            else
              match fuel with
              | O => (Ok (TreeNode info None), w1)
              | S fuel' =>
                  let failed e := "Failed to read directory '" +++ rootPath +++ "': " +++ e in
                  match fsReaddir (fs h) rootPath with
                  | Throw e => (Throw (failed e), emit (EvReaddir rootPath) w1)
                  | Ok entries =>
                      match treeChildren h includeHidden basePath
                              (fun fullPath =>
                                 getDirectoryTree h maxDepth includeHidden basePath
                                                  fuel' fullPath (currentDepth + 1)%Z
                                                  (Some ig))
                              ig rootPath entries [] (emit (EvReaddir rootPath) w1) with
                      | (Ok children, w2) =>
                          (Ok (TreeNode info (Some (sortBy (compareNodes h) children))), w2)
                      | (Throw e, w2) => (Throw (failed e), w2)
                      end
                  end
              end
        end
    end.
Proof.
  destruct fuel as [|fuel]; cbn [getDirectoryTree]; unfold bind at 1 2.
  - destruct matcher as [ig0|]; unfold ret at 1.
    + destruct (Metadata.getFileInfo h rootPath w) as [[info|e] w1]; [|reflexivity].
      now destruct (negb (isDirectory info) || (currentDepth >=? maxDepth)%Z).
    + destruct (loadIgnoreMatcher h basePath w) as [[ig|e] w0]; [|reflexivity].
      destruct (Metadata.getFileInfo h rootPath w0) as [[info|e] w1]; [|reflexivity].
      now destruct (negb (isDirectory info) || (currentDepth >=? maxDepth)%Z).
  - assert (Hbody : forall ig info w1,
      tryCatch
        (entries <- readdir h rootPath ;;
         children <- treeChildren h includeHidden basePath
                       (fun fullPath =>
                          getDirectoryTree h maxDepth includeHidden basePath fuel
                                           fullPath (currentDepth + 1)%Z (Some ig))
                       ig rootPath entries [] ;;
         ret (TreeNode info (Some (sortBy (compareNodes h) children))))
        (fun e => throw ("Failed to read directory '" +++ rootPath +++ "': " +++ e)) w1
      = match fsReaddir (fs h) rootPath with
        | Throw e => (Throw ("Failed to read directory '" +++ rootPath +++ "': " +++ e),
                      emit (EvReaddir rootPath) w1)
        | Ok entries =>
            match treeChildren h includeHidden basePath
                    (fun fullPath =>
                       getDirectoryTree h maxDepth includeHidden basePath
                                        fuel fullPath (currentDepth + 1)%Z (Some ig))
                    ig rootPath entries [] (emit (EvReaddir rootPath) w1) with
            | (Ok children, w2) =>
                (Ok (TreeNode info (Some (sortBy (compareNodes h) children))), w2)
            | (Throw e, w2) =>
                (Throw ("Failed to read directory '" +++ rootPath +++ "': " +++ e), w2)
            end
        end).
    { intros ig info w1. unfold tryCatch, bind, readdir, ret, throw.
      destruct (fsReaddir (fs h) rootPath) as [entries|e]; [|reflexivity].
      now destruct (treeChildren _ _ _ _ _ _ _ _ _) as [[children|e] w2]. }
    destruct matcher as [ig0|]; unfold ret at 1.
    + destruct (Metadata.getFileInfo h rootPath w) as [[info|e] w1]; [|reflexivity].
      destruct (negb (isDirectory info) || (currentDepth >=? maxDepth)%Z);
        [reflexivity | apply Hbody].
    + destruct (loadIgnoreMatcher h basePath w) as [[ig|e] w0]; [|reflexivity].
      destruct (Metadata.getFileInfo h rootPath w0) as [[info|e] w1]; [|reflexivity].
      destruct (negb (isDirectory info) || (currentDepth >=? maxDepth)%Z);
        [reflexivity | apply Hbody].
Qed.

(** A tree built from depth [d] nests at most [maxDepth - d] calls of
    [getDirectoryTree] below the first: any two bounds on the nesting that
    are at least that large give the same tree, the same error and the same
    final state. *)
Lemma getDirectoryTree_depth_suffices (fuel1 fuel2 : nat) :
  forall (rootPath : string) (currentDepth : number) (matcher : option Ignore)
         (w : World),
    Z.to_nat (maxDepth - currentDepth) <= fuel1 ->
    Z.to_nat (maxDepth - currentDepth) <= fuel2 ->
    getDirectoryTree h maxDepth includeHidden basePath fuel1 rootPath currentDepth
                     matcher w
    = getDirectoryTree h maxDepth includeHidden basePath fuel2 rootPath currentDepth
                       matcher w.
Proof.
  revert fuel2.
  induction fuel1 as [|fuel1 IH]; intros fuel2 rootPath d matcher w H1 H2;
    rewrite (getDirectoryTree_eq _ rootPath), (getDirectoryTree_eq fuel2 rootPath);
    destruct (match matcher with Some ig => (Ok ig, w) | None => _ end)
      as [[ig|e] w0]; try reflexivity;
    destruct (Metadata.getFileInfo h rootPath w0) as [[info|e] w1]; try reflexivity;
    destruct (negb (isDirectory info)); simpl orb; cbv iota; try reflexivity;
    destruct (Z.geb_spec d maxDepth); try reflexivity;
    destruct fuel2 as [|fuel2]; try reflexivity; try lia.
  cbv zeta. destruct (fsReaddir (fs h) rootPath) as [entries|e]; [|reflexivity].
  rewrite (treeChildren_ext
             (fun fullPath => getDirectoryTree h maxDepth includeHidden basePath fuel1
                                               fullPath (d + 1)%Z (Some ig))
             (fun fullPath => getDirectoryTree h maxDepth includeHidden basePath fuel2
                                               fullPath (d + 1)%Z (Some ig)));
    [reflexivity|].
  intros p w'. apply IH; lia.
Qed.

End TreeFuel.

(** On the example tree: the bound that [listFiles] gets by with, and
    a larger one. *)
Lemma walkDirectory_depth_suffices_witness :
  let h := Demo.host Demo.tree in
  let walk fuel :=
    Walker.walkDirectory h 10 true false None (Walker.rootMatcher h "/r") "/r"
                         fuel "/r" [] 0%Z Demo.start in
  Z.to_nat (10 - 0 + 1) <= Walker.walkFuel 10
  /\ Z.to_nat (10 - 0 + 1) <= 50
  /\ walk (Walker.walkFuel 10) = walk 50.
Proof.
  intros h walk.
  assert (H1 : Z.to_nat (10 - 0 + 1) <= Walker.walkFuel 10) by (vm_compute; lia).
  assert (H2 : Z.to_nat (10 - 0 + 1) <= 50) by (vm_compute; lia).
  split; [exact H1|]. split; [exact H2|].
  exact (walkDirectory_depth_suffices h 10 true false None (Walker.rootMatcher h "/r")
           "/r" (Walker.walkFuel 10) 50 "/r" [] 0%Z Demo.start H1 H2).
Defined.

(** On the example tree, cut at depth 1. *)
Lemma getDirectoryTree_depth_suffices_witness :
  let h := Demo.host Demo.tree in
  let build fuel :=
    Walker.getDirectoryTree h 1 false "/r" fuel "/r" 0%Z None Demo.start in
  Z.to_nat (1 - 0) <= Walker.treeFuel 1
  /\ Z.to_nat (1 - 0) <= 7
  /\ build (Walker.treeFuel 1) = build 7.
Proof.
  intros h build.
  assert (H1 : Z.to_nat (1 - 0) <= Walker.treeFuel 1) by (vm_compute; lia).
  assert (H2 : Z.to_nat (1 - 0) <= 7) by (vm_compute; lia).
  split; [exact H1|]. split; [exact H2|].
  exact (getDirectoryTree_depth_suffices h 1 false "/r" (Walker.treeFuel 1) 7 "/r"
           0%Z None Demo.start H1 H2).
Defined.

(** ** The nested tree, further: depth, shape, hidden entries, and the
    filesystem calls *)

Section TreePlacing.
Import Walker JsString Path Listing.
Variable h : Host.
Variable bs : list string.
Hypothesis fs_ok : fsNamesOk h.
Hypothesis bs_ok : Forall (fun s => segOk s = true) bs.
Variables (maxDepth : number) (includeHidden : bool).
Variable t0 : list Event.

#[local] Abbreviation segsOk := (Forall (fun s => segOk s = true)).
#[local] Abbreviation noDot := (Forall (fun s => startsWith s "." = false)).
#[local] Abbreviation built := (treeBuilt maxDepth includeHidden bs t0).
#[local] Abbreviation allPlaced :=
  (Forall (fun c => Forall (placed maxDepth includeHidden bs) (subtrees c))).

Lemma calm_later (w w' : World) (t' : list Event) :
  calm bs t0 w -> cacheSound w' -> trace w' = trace w ++ t' ->
  Forall (confined bs) t' -> calm bs t0 w'.
Proof.
  intros (_ & t & Ht & Hconf) Hw' Ht' Hconf'. split; [exact Hw'|].
  exists (t ++ t'). split.
  - now rewrite Ht', Ht, app_assoc.
  - apply Forall_app. now split.
Qed.

Lemma getFileInfo_calm (rel : list string) (w : World) :
  segsOk rel -> calm bs t0 w ->
  calm bs t0 (snd (Metadata.getFileInfo h (canon (bs ++ rel)) w)).
Proof.
  intros Hrel Hw. pose proof Hw as [Hsound _].
  destruct (getFileInfo_sound h (canon (bs ++ rel)) w Hsound) as [Hsound' _].
  destruct (getFileInfo_trace h (canon (bs ++ rel)) w) as [E|E].
  - apply (calm_later w _ []); auto. now rewrite app_nil_r.
  - apply (calm_later w _ [EvStat (canon (bs ++ rel))]); auto.
    constructor; [|constructor]. now exists rel.
Qed.

Lemma loadIgnoreMatcher_calm (w : World) :
  calm bs t0 w -> calm bs t0 (snd (loadIgnoreMatcher h (canon bs) w)).
Proof.
  intros Hw. pose proof Hw as [Hsound _].
  apply (calm_later w _ [EvReadFile (canon (bs ++ [".gitignore"]))]).
  - exact Hw.
  - now apply loadIgnoreMatcher_cache.
  - unfold loadIgnoreMatcher, tryCatch, bind, readFile, ignoreFile.
    destruct (entry_paths h bs bs_ok [] ".gitignore" (Forall_nil _) eq_refl)
      as [Efull _].
    rewrite app_nil_r in Efull. simpl app in Efull. rewrite Efull.
    now destruct (fsReadFile (fs h) _ "utf-8").
  - constructor; [|constructor]. exists [".gitignore"]. now repeat constructor.
Qed.

Lemma treeChildren_placed (subtree : string -> M DirTreeNode) (ig : Ignore)
    (ds : list string) :
  segsOk ds ->
  (forall entry w,
      segOk entry = true ->
      (includeHidden = false -> startsWith entry "." = false) ->
      calm bs t0 w ->
      built (subtree (canon (bs ++ (ds ++ [entry]))) w)) ->
  forall entries, segsOk entries ->
  forall children w,
    calm bs t0 w -> allPlaced children ->
    let out := treeChildren h includeHidden (canon bs) subtree ig (canon (bs ++ ds))
                            entries children w in
    calm bs t0 (snd out) /\ forall cs, fst out = Ok cs -> allPlaced cs.
Proof.
  intros Hds Hsub.
  induction entries as [|entry rest IH]; intros Hentries children w Hw Hchildren;
    simpl.
  - split; [exact Hw | now intros cs [= <-]].
  - inversion Hentries as [|? ? He Hrest]; subst. specialize (IH Hrest).
    destruct (negb includeHidden && startsWith entry ".") eqn:Hhid; [now apply IH|].
    destruct (entry_paths h bs bs_ok ds entry Hds He) as [Efull Erel].
    rewrite Efull, Erel.
    destruct (ignores h ig (join "/" (ds ++ [entry]))); [now apply IH|].
    assert (Hdot : includeHidden = false -> startsWith entry "." = false).
    { intros ->. exact Hhid. }
    destruct (Hsub entry w He Hdot Hw) as [Hw' Hchild].
    unfold bind.
    destruct (subtree (canon (bs ++ (ds ++ [entry]))) w) as [[child|e] w'];
      simpl in Hw', Hchild |- *.
    + apply IH; [exact Hw'|].
      apply Forall_app. split; [assumption|]. constructor; [|constructor].
      now apply Hchild.
    + split; [exact Hw' | discriminate].
Qed.

Lemma getDirectoryTree_placed (ig : Ignore) (fuel : nat) :
  forall ds w,
    segsOk ds ->
    (includeHidden = false -> noDot ds) ->
    (Z.of_nat (List.length ds) <= Z.max 0 maxDepth)%Z ->
    calm bs t0 w ->
    built (getDirectoryTree h maxDepth includeHidden (canon bs) fuel
                            (canon (bs ++ ds)) (Z.of_nat (List.length ds))
                            (Some ig) w).
Proof.
  induction fuel as [|fuel IH]; intros ds w Hds Hdots Hdepth Hw;
    rewrite getDirectoryTree_eq;
    pose proof (getFileInfo_calm ds w Hds Hw) as Hw1;
    pose proof (proj2 (getFileInfo_sound h (canon (bs ++ ds)) w (proj1 Hw))) as Hpath;
    destruct (Metadata.getFileInfo h (canon (bs ++ ds)) w) as [[info|e] w1];
    simpl in Hw1, Hpath; try (split; [exact Hw1 | discriminate]);
    specialize (Hpath info eq_refl);
    assert (Hleaf : built (Ok (TreeNode info None), w1))
      by (split; [exact Hw1|]; intros node [= <-]; simpl;
          constructor; [|constructor]; exists ds;
          split; [exact Hds|]; split; [exact Hpath|]; split; [exact Hdepth|];
          split; [exact Hdots | discriminate]);
    destruct (isDirectory info) eqn:Hdir; simpl negb; simpl orb; cbv iota;
      try exact Hleaf;
    destruct (Z.geb_spec (Z.of_nat (List.length ds)) maxDepth) as [|Hlt];
      try exact Hleaf.
  cbv zeta.
  assert (Hw2 : calm bs t0 (emit (EvReaddir (canon (bs ++ ds))) w1)).
  { apply (calm_later w1 _ [EvReaddir (canon (bs ++ ds))]);
      [exact Hw1 | exact (proj1 Hw1) | reflexivity |].
    constructor; [|constructor]. now exists ds. }
  destruct (fsReaddir (fs h) (canon (bs ++ ds))) as [entries|e] eqn:E;
    [|split; [exact Hw2 | discriminate]].
  assert (Hlen : forall entry, List.length (ds ++ [entry]) = S (List.length ds)).
  { intros entry. rewrite length_app. simpl. lia. }
  pose proof (treeChildren_placed
                (fun fullPath =>
                   getDirectoryTree h maxDepth includeHidden (canon bs) fuel fullPath
                                    (Z.of_nat (List.length ds) + 1)%Z (Some ig))
                ig ds Hds) as Hloop.
  destruct (Hloop
              ltac:(intros entry w0 He Hdot Hw0;
                    replace (Z.of_nat (List.length ds) + 1)%Z
                      with (Z.of_nat (List.length (ds ++ [entry])))
                      by (rewrite Hlen; lia);
                    apply IH;
                    [ apply Forall_app; split; [assumption | now constructor]
                    | intros Hh; apply Forall_app; split;
                      [now apply Hdots | constructor; [now apply Hdot | constructor]]
                    | rewrite Hlen; lia
                    | exact Hw0 ])
              entries (fs_ok _ _ E) [] _ Hw2 (Forall_nil _))
    as [Hw3 Hcs].
  destruct (treeChildren _ _ _ _ _ _ _ _ _) as [[children|e] w3];
    simpl in Hw3, Hcs |- *; (split; [exact Hw3|]); [|discriminate].
  intros node [= <-]. cbn [subtrees]. constructor.
  - exists ds. split; [exact Hds|]. split; [exact Hpath|]. split; [exact Hdepth|].
    split; [exact Hdots|]. intros cs _. split; [exact Hdir | lia].
  - apply Forall_flat_map. apply Forall_forall. intros c Hc.
    apply In_sortBy in Hc. specialize (Hcs children eq_refl).
    rewrite Forall_forall in Hcs. now apply Hcs.
Qed.

End TreePlacing.

Section TreeFurther.
Import Walker JsString Path Listing.
Variable h : Host.

(** The first call loads the matcher and goes on as the nested calls do. *)
Lemma getDirectoryTree_first (maxDepth : number) (includeHidden : bool)
    (basePath : string) (fuel : nat) (rootPath : string) (currentDepth : number)
    (w : World) :
  getDirectoryTree h maxDepth includeHidden basePath fuel rootPath currentDepth None w
  = match loadIgnoreMatcher h basePath w with
    | (Ok ig, w0) =>
        getDirectoryTree h maxDepth includeHidden basePath fuel rootPath currentDepth
                         (Some ig) w0
    | (Throw e, w0) => (Throw e, w0)
    end.
Proof.
  rewrite getDirectoryTree_eq.
  destruct (loadIgnoreMatcher h basePath w) as [[ig|e] w0]; [|reflexivity].
  now rewrite getDirectoryTree_eq.
Qed.

Lemma treeChildren_ordered (maxDepth : number) (includeHidden : bool)
    (basePath : string) (subtree : string -> M DirTreeNode) (ig : Ignore)
    (rootPath : string) :
  (forall p w c, fst (subtree p w) = Ok c -> Forall childrenOrdered (subtrees c)) ->
  forall entries children w cs,
    Forall (fun c => Forall childrenOrdered (subtrees c)) children ->
    fst (treeChildren h includeHidden basePath subtree ig rootPath entries children w)
    = Ok cs ->
    Forall (fun c => Forall childrenOrdered (subtrees c)) cs.
Proof.
  intros Hsub. induction entries as [|entry rest IH]; intros children w cs Hall; simpl.
  - now intros [= <-].
  - destruct (negb includeHidden && startsWith entry "."); [now apply IH|].
    destruct (ignores h ig _); [now apply IH|].
    unfold bind. specialize (Hsub (pathJoin [rootPath; entry]) w).
    destruct (subtree _ w) as [[child|e] w']; [|discriminate].
    apply IH. apply Forall_app. split; [assumption|].
    constructor; [|constructor]. now apply Hsub.
Qed.

Lemma getDirectoryTree_ordered (maxDepth : number) (includeHidden : bool)
    (basePath : string) (fuel : nat) :
  forall rootPath currentDepth matcher w node,
    fst (getDirectoryTree h maxDepth includeHidden basePath fuel rootPath currentDepth
                          matcher w) = Ok node ->
    Forall childrenOrdered (subtrees node).
Proof.
  assert (Hleaf : forall info, Forall childrenOrdered (subtrees (TreeNode info None))).
  { intros info. constructor; [|constructor]. intros cs. discriminate. }
  induction fuel as [|fuel IH]; intros rootPath d matcher w node;
    rewrite getDirectoryTree_eq;
    destruct (match matcher with Some ig => (Ok ig, w) | None => _ end)
      as [[ig|e] w0]; try discriminate;
    destruct (Metadata.getFileInfo h rootPath w0) as [[info|e] w1]; try discriminate;
    destruct (negb (isDirectory info) || (d >=? maxDepth)%Z);
    try (intros [= <-]; apply Hleaf).
  cbv zeta. destruct (fsReaddir (fs h) rootPath) as [entries|e]; [|discriminate].
  pose proof (treeChildren_ordered maxDepth includeHidden basePath
                (fun fullPath =>
                   getDirectoryTree h maxDepth includeHidden basePath fuel fullPath
                                    (d + 1)%Z (Some ig))
                ig rootPath
                (fun p w' c Hc => IH p _ _ w' c Hc)
                entries [] (emit (EvReaddir rootPath) w1)) as Hloop.
  destruct (treeChildren _ _ _ _ _ _ _ _ _) as [[children|e] w2]; [|discriminate].
  intros [= <-]. cbn [subtrees]. constructor.
  - intros cs [= <-]. exact (sortBy_kindOrder h nodeInfo children).
  - apply Forall_flat_map. apply Forall_forall. intros c Hc.
    apply In_sortBy in Hc. specialize (Hloop children (Forall_nil _) eq_refl).
    rewrite Forall_forall in Hloop. now apply Hloop.
Qed.

(** Under every node of a tree, no file comes before a directory
    among the children, whatever the names are and however [localeCompare]
    orders them. *)
Lemma directoryTree_directories_first (rootPath : string)
    (maxDepth : option number) (includeHidden : option bool) (w : World)
    (tree node : DirTreeNode) (children : list DirTreeNode) :
  fst (directoryTree h rootPath maxDepth includeHidden w) = Ok tree ->
  In node (subtrees tree) ->
  nodeChildren node = Some children ->
  StronglySorted (fun a b => isDirectory (nodeInfo b) = true ->
                             isDirectory (nodeInfo a) = true) children.
Proof.
  intros Htree Hin Hcs. apply getDirectoryTree_ordered in Htree.
  rewrite Forall_forall in Htree. now apply (Htree node Hin).
Qed.

Variable bs : list string.
Hypothesis fs_ok : fsNamesOk h.
Hypothesis bs_ok : Forall (fun s => segOk s = true) bs.

(** A tree built from the root: its nodes are placed, and the calls made
    for it stay at or below the root. *)
Lemma directoryTree_built (maxDepth : option number) (includeHidden : option bool)
    (w : World) :
  cacheSound w ->
  treeBuilt (orDefault maxDepth 10%Z) (orDefault includeHidden false) bs (trace w)
            (directoryTree h (canon bs) maxDepth includeHidden w).
Proof.
  intros Hw. unfold directoryTree. rewrite getDirectoryTree_first.
  assert (Hcalm : calm bs (trace w) w).
  { split; [exact Hw|]. exists []. split; [now rewrite app_nil_r | constructor]. }
  pose proof (loadIgnoreMatcher_calm h bs bs_ok (trace w) w Hcalm) as Hw0.
  destruct (loadIgnoreMatcher h (canon bs) w) as [[ig|e] w0]; simpl in Hw0;
    [|split; [exact Hw0 | discriminate]].
  pose proof (getDirectoryTree_placed h bs fs_ok bs_ok (orDefault maxDepth 10%Z)
                (orDefault includeHidden false) (trace w) ig
                (treeFuel (orDefault maxDepth 10%Z)) [] w0
                (Forall_nil _) (fun _ => Forall_nil _)) as Hbuilt.
  rewrite app_nil_r in Hbuilt. apply Hbuilt; [simpl; lia | exact Hw0].
Qed.


(** X15: unless [includeHidden] is true, no node of a tree below the root
    has a name starting with a dot, nor lies under a directory that has
    one. *)
Theorem directoryTree_skips_hidden (maxDepth : option number)
    (includeHidden : option bool) (w : World) (tree node : DirTreeNode) :
  cacheSound w ->
  includeHidden <> Some true ->
  fst (directoryTree h (canon bs) maxDepth includeHidden w) = Ok tree ->
  In node (subtrees tree) ->
  exists rel,
    path (nodeInfo node) = canon (bs ++ rel)
    /\ Forall (fun s => segOk s = true) rel
    /\ Forall (fun s => startsWith s "." = false) rel.
Proof.
  intros Hw Hhid Htree Hin.
  destruct (directoryTree_built maxDepth includeHidden w Hw) as [_ Hall].
  specialize (Hall tree Htree). rewrite Forall_forall in Hall.
  destruct (Hall node Hin) as (rel & Hrel & Hpath & _ & Hdots & _).
  exists rel. split; [exact Hpath|]. split; [exact Hrel|]. apply Hdots.
  destruct includeHidden as [[|]|]; [congruence | | ]; reflexivity.
Qed.

(** X16: building a tree reads directories, metadata and the ignore file
    at the root or below it only, also when it ends in an error. *)
Theorem directoryTree_stays_below_root (maxDepth : option number)
    (includeHidden : option bool) (w : World) :
  cacheSound w ->
  exists t,
    trace (snd (directoryTree h (canon bs) maxDepth includeHidden w)) = trace w ++ t
    /\ Forall (confined bs) t.
Proof.
  intros Hw.
  destruct (directoryTree_built maxDepth includeHidden w Hw) as [[_ Ht] _]. exact Ht.
Qed.

End TreeFurther.

(** On the example tree. *)
Lemma directoryTree_directories_first_witness :
  let h := Demo.host Demo.tree in
  exists tree children,
    fst (Walker.directoryTree h "/r" None None Demo.start) = Ok tree
    /\ In tree (Listing.subtrees tree)
    /\ Walker.nodeChildren tree = Some children
    /\ map (fun c => name (Walker.nodeInfo c)) children = ["sub"; "a.txt"; "data.json"]
    /\ StronglySorted (fun a b => isDirectory (Walker.nodeInfo b) = true ->
                                  isDirectory (Walker.nodeInfo a) = true) children.
Proof.
  intros h.
  destruct (fst (Walker.directoryTree h "/r" None None Demo.start))
    as [[info [children|]]|e] eqn:E; [| discriminate E | discriminate E].
  exists (Walker.TreeNode info (Some children)), children.
  assert (Hin : In (Walker.TreeNode info (Some children))
                   (Listing.subtrees (Walker.TreeNode info (Some children))))
    by now left.
  split; [reflexivity|]. split; [exact Hin|]. split; [reflexivity|].
  split; [now injection E as _ <-|].
  exact (directoryTree_directories_first h "/r" None None Demo.start _ _ children
           E Hin eq_refl).
Defined.


(** X15 on the example tree. *)
Lemma directoryTree_skips_hidden_witness :
  let h := Demo.host Demo.tree in
  Walker.fsNamesOk h
  /\ Forall (fun s => Path.segOk s = true) ["r"]
  /\ Walker.cacheSound Demo.start
  /\ @None bool <> Some true
  /\ forall tree node,
       fst (Walker.directoryTree h "/r" None None Demo.start) = Ok tree ->
       In node (Listing.subtrees tree) ->
       exists rel,
         path (Walker.nodeInfo node) = Path.canon (["r"] ++ rel)
         /\ Forall (fun s => Path.segOk s = true) rel
         /\ Forall (fun s => JsString.startsWith s "." = false) rel.
Proof.
  intros h.
  assert (H1 : Walker.fsNamesOk h) by (apply tableFs_namesOk; reflexivity).
  assert (H2 : Forall (fun s => Path.segOk s = true) ["r"])
    by (repeat constructor).
  assert (H3 : Walker.cacheSound Demo.start) by (intros k e []).
  assert (H4 : @None bool <> Some true) by discriminate.
  repeat (split; [assumption|]).
  intros tree node.
  exact (directoryTree_skips_hidden h ["r"] H1 H2 None None Demo.start tree node H3 H4).
Defined.

(** X16 on the example tree. *)
Lemma directoryTree_stays_below_root_witness :
  let h := Demo.host Demo.tree in
  Walker.fsNamesOk h
  /\ Forall (fun s => Path.segOk s = true) ["r"]
  /\ Walker.cacheSound Demo.start
  /\ exists t,
       trace (snd (Walker.directoryTree h "/r" None None Demo.start))
       = trace Demo.start ++ t
       /\ Forall (Listing.confined ["r"]) t.
Proof.
  intros h.
  assert (H1 : Walker.fsNamesOk h) by (apply tableFs_namesOk; reflexivity).
  assert (H2 : Forall (fun s => Path.segOk s = true) ["r"])
    by (repeat constructor).
  assert (H3 : Walker.cacheSound Demo.start) by (intros k e []).
  repeat (split; [assumption|]).
  exact (directoryTree_stays_below_root h ["r"] H1 H2 None None Demo.start H3).
Defined.

(** ** Search, further: the query is matched as it is written *)

Section SearchLiteral.
Import Search JsString Literal.

Lemma parseSource_plain (c : ascii) (r : string) :
  Ascii.eqb c "\" = false -> parseSource (String c r) = Chr c :: parseSource r.
Proof.
  destruct c as [[] [] [] [] [] [] [] []]; intros H; try discriminate H; reflexivity.
Qed.

Lemma parseSource_escaped (c : ascii) (r : string) :
  parseSource (String "\" (String c r))
  = (if Ascii.eqb c "b" then WordBoundary else Chr c) :: parseSource r.
Proof. reflexivity. Qed.

Lemma special_not_b (c : ascii) : isSpecial c = true -> Ascii.eqb c "b" = false.
Proof. destruct (Ascii.eqb_spec c "b"); [subst; discriminate | reflexivity]. Qed.

Lemma plain_not_backslash (c : ascii) : isSpecial c = false -> Ascii.eqb c "\" = false.
Proof. destruct (Ascii.eqb_spec c "\"); [subst; discriminate | reflexivity]. Qed.

(** An escaped query compiles to its own characters, whatever they are. *)
Lemma parse_escape_app (q t : string) :
  parseSource (escapeRegExp q +++ t)
  = map Chr (list_ascii_of_string q) ++ parseSource t.
Proof.
  induction q as [|c q IH]; [reflexivity|].
  cbn [escapeRegExp list_ascii_of_string map app].
  destruct (isSpecial c) eqn:Hc.
  - change (String "\" (String c (escapeRegExp q)) +++ t)
      with (String "\" (String c (escapeRegExp q +++ t))).
    rewrite parseSource_escaped, (special_not_b c Hc). now rewrite IH.
  - change (String c (escapeRegExp q) +++ t) with (String c (escapeRegExp q +++ t)).
    rewrite (parseSource_plain c _ (plain_not_backslash c Hc)). now rewrite IH.
Qed.

Lemma literalOf_chars (cs : list ascii) : literalOf (map Chr cs) = cs.
Proof. induction cs as [|c cs IH]; [reflexivity | simpl; now rewrite IH]. Qed.

(** The pattern of [searchInFile] consumes the query and nothing else. *)
Lemma literalOf_pattern (query : string) (wholeWord : bool) :
  literalOf (parseSource (if wholeWord then "\b" +++ escapeRegExp query +++ "\b"
                          else escapeRegExp query))
  = list_ascii_of_string query.
Proof.
  destruct wholeWord.
  - change ("\b" +++ escapeRegExp query +++ "\b")
      with (String "\" (String "b" (escapeRegExp query +++ "\b"))).
    rewrite parseSource_escaped, parse_escape_app. cbn [Ascii.eqb Bool.eqb].
    unfold literalOf. cbn [flat_map app]. rewrite flat_map_app.
    fold (literalOf (map Chr (list_ascii_of_string query))).
    rewrite literalOf_chars. simpl. apply app_nil_r.
  - rewrite <- (append_nil_r (escapeRegExp query)), parse_escape_app.
    simpl parseSource. rewrite app_nil_r. apply literalOf_chars.
Qed.

Lemma matchHere_literal (ic : bool) (toks : list Token) :
  forall prev rest n,
    matchHere ic toks prev rest = Some n ->
    exists mid post,
      rest = mid +++ post
      /\ Forall2 (fun a c => sameChar ic a c = true)
                 (list_ascii_of_string mid) (literalOf toks).
Proof.
  induction toks as [|[c|] toks IH]; intros prev rest n; simpl.
  - intros _. exists "", rest. split; [reflexivity | constructor].
  - destruct rest as [|a r]; [discriminate|].
    destruct (sameChar ic a c) eqn:Hac; [|discriminate].
    destruct (matchHere ic toks (Some a) r) as [k|] eqn:Hk; [|discriminate].
    intros _. destruct (IH _ _ _ Hk) as (mid & post & -> & Hmid).
    exists (String a mid), post. split; [reflexivity|]. now constructor.
  - destruct (xorb _ _); [apply IH | discriminate].
Qed.

Lemma searchFrom_match (ic : bool) (toks : list Token) (li : nat) :
  forall rest i prev x,
    searchFrom ic toks li i prev rest = Some x ->
    exists pre rest' prev' n,
      rest = pre +++ rest' /\ matchHere ic toks prev' rest' = Some n.
Proof.
  induction rest as [|a r IH]; intros i prev x; simpl.
  - destruct (li <=? i)%nat; [|discriminate].
    destruct (matchHere ic toks prev "") as [n|] eqn:Hn; [|discriminate].
    intros _. now exists "", "", prev, n.
  - destruct (if (li <=? i)%nat then matchHere ic toks prev (String a r) else None)
      as [n|] eqn:Hn.
    + intros _. destruct (li <=? i)%nat; [|discriminate].
      now exists "", (String a r), prev, n.
    + intros H. destruct (IH _ _ _ H) as (pre & rest' & prev' & n & -> & Hm).
      now exists (String a pre), rest', prev', n.
Qed.

(** A line that the pattern of [searchInFile] matches has the query in
    it. *)
Lemma lineMatches_contains (query : string) (caseSensitive wholeWord : bool)
    (text : string) :
  lineMatches query caseSensitive wholeWord text = true ->
  contains (negb caseSensitive) query text.
Proof.
  unfold lineMatches, test, newRegExp. cbn [tokens ignoreCase lastIndex].
  destruct (searchFrom _ _ 0 0 None text) as [[s e]|] eqn:E; [|discriminate].
  intros _. apply searchFrom_match in E as (pre & rest' & prev' & n & -> & Hm).
  apply matchHere_literal in Hm as (mid & post & -> & Hmid).
  rewrite literalOf_pattern in Hmid. now exists pre, mid, post.
Qed.

Lemma matchHere_chars (ic : bool) (cs : list ascii) :
  forall mid post prev,
    Forall2 (fun a c => sameChar ic a c = true) (list_ascii_of_string mid) cs ->
    matchHere ic (map Chr cs) prev (mid +++ post) <> None.
Proof.
  induction cs as [|c cs IH]; intros mid post prev Hmid; simpl; [discriminate|].
  destruct mid as [|a mid]; [inversion Hmid|].
  simpl in Hmid |- *. inversion Hmid as [|? ? ? ? Hac Hrest]; subst.
  rewrite Hac. specialize (IH mid post (Some a) Hrest).
  destruct (matchHere ic (map Chr cs) (Some a) (mid +++ post)); [discriminate|].
  contradiction.
Qed.

Lemma searchFrom_finds (ic : bool) (toks : list Token) (rest' : string) :
  (forall prev, matchHere ic toks prev rest' <> None) ->
  forall pre i prev, searchFrom ic toks 0 i prev (pre +++ rest') <> None.
Proof.
  intros Hm. induction pre as [|a pre IH]; intros i prev.
  - simpl append. specialize (Hm prev).
    destruct rest' as [|b r]; simpl;
      destruct (matchHere ic toks prev _); try discriminate; contradiction.
  - simpl. destruct (matchHere ic toks prev _); [discriminate | apply IH].
Qed.

(** The class of [escapeRegExp] is the set of the syntax characters of
    ECMAScript. *)
Lemma special_is_syntax (c : ascii) : isSpecial c = syntaxCharacter c.
Proof. destruct c as [[] [] [] [] [] [] [] []]; reflexivity. Qed.

Lemma option_map_app {A : Type} (x : A) (l : list A) (o : option (list A)) :
  option_map (cons x) (option_map (app l) o) = option_map (app (x :: l)) o.
Proof. now destruct o. Qed.

(** By the grammar, an escaped query reads as its own characters: each of
    its syntax characters has its backslash. *)
Lemma readPattern_escape_app (q t : string) :
  readPattern (escapeRegExp q +++ t)
  = option_map (app (map Chr (list_ascii_of_string q))) (readPattern t).
Proof.
  induction q as [|c q IH].
  { change (escapeRegExp "" +++ t) with t. simpl. now destruct (readPattern t). }
  cbn [escapeRegExp list_ascii_of_string map].
  destruct (isSpecial c) eqn:Hc.
  - change (String "\" (String c (escapeRegExp q)) +++ t)
      with (String "\" (String c (escapeRegExp q +++ t))).
    cbn [readPattern]. rewrite (Ascii.eqb_refl "\"), (special_not_b c Hc).
    rewrite <- special_is_syntax, Hc, IH. apply option_map_app.
  - change (String c (escapeRegExp q) +++ t) with (String c (escapeRegExp q +++ t)).
    cbn [readPattern]. rewrite (plain_not_backslash c Hc).
    rewrite <- special_is_syntax, Hc, IH. apply option_map_app.
Qed.

(** Where the grammar gives a pattern a reading in tokens, the tokens of
    the compiled expression are that reading. *)
Lemma readPattern_tokens (n : nat) :
  forall src toks,
    String.length src <= n -> readPattern src = Some toks -> parseSource src = toks.
Proof.
  induction n as [|n IH]; intros [|c r] toks Hlen; simpl in Hlen;
    try (intros [= <-]; reflexivity); try lia.
  cbn [readPattern]. destruct (Ascii.eqb_spec c "\") as [->|Hc].
  - destruct r as [|e r']; [discriminate|]. simpl in Hlen.
    rewrite parseSource_escaped.
    destruct (Ascii.eqb e "b").
    + destruct (readPattern r') as [ts|] eqn:R; [|discriminate].
      intros [= <-]. f_equal. apply IH; [lia | exact R].
    + destruct (syntaxCharacter e); [|discriminate].
      destruct (readPattern r') as [ts|] eqn:R; [|discriminate].
      intros [= <-]. f_equal. apply IH; [lia | exact R].
  - apply Ascii.eqb_neq in Hc. rewrite (parseSource_plain c r Hc).
    destruct (syntaxCharacter c); [discriminate|].
    destruct (readPattern r) as [ts|] eqn:R; [|discriminate].
    intros [= <-]. f_equal. apply IH; [lia | exact R].
Qed.

(** The pattern of [searchInFile] has a reading by the grammar: the
    characters of the query, between two word boundaries when whole words
    are asked for. *)
Lemma readPattern_pattern (query : string) (wholeWord : bool) :
  readPattern (if wholeWord then "\b" +++ escapeRegExp query +++ "\b"
               else escapeRegExp query)
  = Some (if wholeWord
          then WordBoundary :: map Chr (list_ascii_of_string query) ++ [WordBoundary]
          else map Chr (list_ascii_of_string query)).
Proof.
  destruct wholeWord.
  - change ("\b" +++ escapeRegExp query +++ "\b")
      with (String "\" (String "b" (escapeRegExp query +++ "\b"))).
    cbn [readPattern]. rewrite (Ascii.eqb_refl "\"), (Ascii.eqb_refl "b").
    rewrite readPattern_escape_app. reflexivity.
  - rewrite <- (append_nil_r (escapeRegExp query)), readPattern_escape_app.
    simpl. now rewrite app_nil_r.
Qed.

(** X18: [escapeRegExp] leaves no character of the query to act as
    regular-expression syntax.  Read by the grammar of ECMAScript, in which
    every unescaped syntax character is syntax, the pattern that
    [searchInFile] builds from a query is the characters of the query, one
    by one (between two word-boundary assertions when whole words are asked
    for), and these are the tokens of the compiled expression.  So, for
    ASCII texts, the pattern without the whole-word option matches a line
    exactly when the line has the query in it, character by character (up
    to letter case unless the search is case-sensitive). *)
Theorem escaped_query_is_literal (query : string) (caseSensitive wholeWord : bool)
    (text : string) :
  isAscii query = true ->
  isAscii text = true ->
  let pattern := if wholeWord then "\b" +++ escapeRegExp query +++ "\b"
                 else escapeRegExp query in
  let chars := map Chr (list_ascii_of_string query) in
  readPattern pattern
  = Some (if wholeWord then WordBoundary :: chars ++ [WordBoundary] else chars)
  /\ readPattern pattern = Some (tokens (newRegExp pattern (negb caseSensitive)))
  /\ (lineMatches query caseSensitive false text = true
      <-> contains (negb caseSensitive) query text).
Proof.
  intros _ _ pattern chars.
  pose proof (readPattern_pattern query wholeWord) as Hread. fold pattern chars in Hread.
  split; [exact Hread|]. split.
  - rewrite Hread. f_equal. symmetry.
    apply (readPattern_tokens (String.length pattern)); [lia | exact Hread].
  - split; [apply lineMatches_contains|].
    intros (pre & mid & post & -> & Hmid).
    unfold lineMatches, test, newRegExp. cbn [tokens ignoreCase lastIndex].
    rewrite <- (append_nil_r (escapeRegExp query)), parse_escape_app.
    simpl parseSource. rewrite app_nil_r.
    pose proof (searchFrom_finds (negb caseSensitive)
                  (map Chr (list_ascii_of_string query)) (mid +++ post)
                  (fun prev => matchHere_chars _ _ mid post prev Hmid) pre 0 None) as H.
    destruct (searchFrom _ _ 0 0 None (pre +++ mid +++ post)) as [[s e]|];
      [reflexivity | contradiction].
Qed.

(** X17: in an ASCII file searched for an ASCII query, every result
    carries a line that has the query in it, character by character (up to
    letter case unless the search is case-sensitive), whatever the other
    options are: the expression that the search compiles has, by the grammar
    of ECMAScript, no other reading than its tokens, which consume the query
    and nothing else. *)
Theorem search_results_contain_query (filePath content query : string)
    (caseSensitive wholeWord : bool) (contextLines : number) :
  isAscii query = true ->
  isAscii content = true ->
  let pattern := if wholeWord then "\b" +++ escapeRegExp query +++ "\b"
                 else escapeRegExp query in
  let regex := newRegExp pattern (negb caseSensitive) in
  readPattern pattern = Some (tokens regex)
  /\ literalOf (tokens regex) = list_ascii_of_string query
  /\ forall r,
       In r (searchInContent filePath content query caseSensitive wholeWord
                             contextLines []) ->
       contains (negb caseSensitive) query (Search.content r).
Proof.
  intros _ _ pattern regex.
  pose proof (readPattern_pattern query wholeWord) as Hread. fold pattern in Hread.
  split; [|split].
  - rewrite Hread. f_equal. symmetry.
    apply (readPattern_tokens (String.length pattern)); [lia | exact Hread].
  - apply literalOf_pattern.
  - intros r Hin.
    pose proof (searchInContent_sound filePath content query caseSensitive wholeWord
                  contextLines) as Hall.
    rewrite Forall_forall in Hall. destruct (Hall r Hin) as (_ & _ & _ & Hm).
    now apply lineMatches_contains in Hm.
Qed.

End SearchLiteral.

(** ** Search, further: which lines are reported, in which order, with
    which context *)

Lemma stronglySorted_snoc {A : Type} (lt : A -> A -> Prop) (l : list A) (k : A) :
  StronglySorted lt l -> Forall (fun a => lt a k) l -> StronglySorted lt (l ++ [k]).
Proof.
  intros Hs Hk. induction Hs as [|a l Hl IH Ha]; simpl.
  - constructor; constructor.
  - inversion Hk; subst. constructor; [now apply IH|].
    apply Forall_app. split; [assumption | now constructor].
Qed.

Section SearchResults.
Import Search JsString JsArray Literal.
Variables (filePath : string) (lines : list string) (ctx : number).


(** The results come in the order of the lines. *)
Lemma scanLines_ascending :
  forall todo i regex results,
    Forall (fun r => (line r <= Z.of_nat i)%Z) results ->
    StronglySorted Z.lt (map line results) ->
    StronglySorted Z.lt (map line (scanLines filePath lines ctx todo i regex results)).
Proof.
  induction todo as [|text rest IH]; intros i regex results Hbound Hsorted; simpl;
    [exact Hsorted|].
  destruct (test regex text) as [found regex'].
  assert (Hweaken : forall rs, Forall (fun r => (line r <= Z.of_nat i)%Z) rs ->
                               Forall (fun r => (line r <= Z.of_nat (S i))%Z) rs).
  { intros rs. apply Forall_impl. intros r Hr. simpl in Hr. lia. }
  destruct found; apply IH.
  - apply Forall_app. split; [now apply Hweaken|].
    constructor; [simpl; lia | constructor].
  - rewrite map_app. cbn [map line]. apply stronglySorted_snoc; [exact Hsorted|].
    rewrite Forall_forall in Hbound |- *. intros z Hz.
    apply in_map_iff in Hz as (r & <- & Hr). specialize (Hbound r Hr).
    simpl in Hbound |- *. lia.
  - now apply Hweaken.
  - exact Hsorted.
Qed.

(** When no two lines in a row match, the state that the expression keeps
    between lines hides nothing: the lines reported are the lines that
    match. *)
Lemma scanLines_exact (re0 : RegExp) :
  forall todo i regex results,
    fresh regex = fresh re0 ->
    (lastIndex regex = 0
     \/ match todo with
        | text :: _ => fst (test (fresh re0) text) = false
        | [] => True
        end) ->
    noAdjacentMatches (fun text => fst (test (fresh re0) text)) todo = true ->
    map line (scanLines filePath lines ctx todo i regex results)
    = map line results
      ++ map (fun p => Z.of_nat (fst p) + 1)%Z
             (filter (fun p => fst (test (fresh re0) (snd p)))
                     (combine (seq i (List.length todo)) todo)).
Proof.
  induction todo as [|text rest IH]; intros i regex results Hre Hstate Hadj; simpl.
  - now rewrite app_nil_r.
  - assert (Hfound : fst (test regex text) = fst (test (fresh re0) text)).
    { destruct Hstate as [H0|Hno].
      - replace regex with (fresh regex); [now rewrite Hre|].
        destruct regex as [toks ic li]. simpl in H0. now subst li.
      - rewrite Hno. destruct (fst (test regex text)) eqn:E; [|reflexivity].
        apply test_true_fresh in E. congruence. }
    pose proof (test_fresh regex text) as Hnext.
    pose proof (test_false_resets regex text) as Hreset.
    simpl in Hadj. apply andb_true_iff in Hadj as [Hhead Hadj].
    destruct (test regex text) as [found regex']. simpl in Hfound, Hnext, Hreset.
    rewrite <- Hfound.
    assert (Hstate' : lastIndex regex' = 0
                      \/ match rest with
                         | text' :: _ => fst (test (fresh re0) text') = false
                         | [] => True
                         end).
    { destruct found.
      - right. destruct rest as [|text' rest']; [exact I|].
        rewrite <- Hfound in Hhead. simpl in Hhead.
        now apply negb_true_iff in Hhead.
      - left. now rewrite (Hreset eq_refl). }
    rewrite (IH (S i) regex' _ (eq_trans Hnext Hre) Hstate' Hadj).
    destruct found; [|reflexivity].
    rewrite map_app. simpl. now rewrite <- app_assoc.
Qed.

End SearchResults.

Section SearchFurther.
Import Search JsString JsArray Literal.



(** X19: when no two lines in a row match, a search reports exactly the
    lines that match, each once and in order. *)
Theorem search_exact_without_adjacent_matches (filePath content query : string)
    (caseSensitive wholeWord : bool) (contextLines : number) :
  noAdjacentMatches (lineMatches query caseSensitive wholeWord)
                    (split RangeReader.LF content) = true ->
  map line (searchInContent filePath content query caseSensitive wholeWord
                            contextLines [])
  = matchingLines query caseSensitive wholeWord content.
Proof.
  intros Hadj. unfold searchInContent, matchingLines.
  set (pattern := if wholeWord then "\b" +++ escapeRegExp query +++ "\b"
                  else escapeRegExp query).
  exact (scanLines_exact filePath (split RangeReader.LF content) contextLines
           (newRegExp pattern (negb caseSensitive))
           (split RangeReader.LF content) 0 (newRegExp pattern (negb caseSensitive)) []
           eq_refl (or_introl eq_refl) Hadj).
Qed.


(** X21: the results of one file come in the order of its lines, each
    line at most once. *)
Theorem search_results_ascending (filePath content query : string)
    (caseSensitive wholeWord : bool) (contextLines : number) :
  StronglySorted Z.lt
    (map line (searchInContent filePath content query caseSensitive wholeWord
                               contextLines [])).
Proof.
  unfold searchInContent. apply scanLines_ascending; constructor.
Qed.

End SearchFurther.

(** X17 on the file of the example tree. *)
Lemma search_results_contain_query_witness :
  let content := "x" +++ Demo.nl +++ "a Foo b" +++ Demo.nl +++ "y" in
  let r := {| Search.file := "/r/a.txt"; Search.line := 2; Search.content := "a Foo b";
              Search.contextBefore := ["x"]; Search.contextAfter := ["y"] |} in
  Literal.isAscii "foo" = true
  /\ Literal.isAscii content = true
  /\ In r (Search.searchInContent "/r/a.txt" content "foo" false true 1 [])
  /\ Literal.contains true "foo" "a Foo b".
Proof.
  intros content r.
  assert (Hq : Literal.isAscii "foo" = true) by reflexivity.
  assert (Hc : Literal.isAscii content = true) by reflexivity.
  assert (Hin : In r (Search.searchInContent "/r/a.txt" content "foo" false true 1 []))
    by (left; reflexivity).
  split; [exact Hq|]. split; [exact Hc|]. split; [exact Hin|].
  exact (proj2 (proj2 (search_results_contain_query "/r/a.txt" content "foo" false true 1
                         Hq Hc)) r Hin).
Defined.

(** X18 on a query with a dot in it: the dot is escaped and matches a dot
    only. *)
Lemma escaped_query_is_literal_witness :
  Literal.isAscii "a.b" = true
  /\ Literal.isAscii "xA.By" = true
  /\ Search.escapeRegExp "a.b" = "a\.b"
  /\ Literal.readPattern "a\.b" = Some [Search.Chr "a"; Search.Chr "."; Search.Chr "b"]
  /\ (Search.lineMatches "a.b" false false "xA.By" = true
      <-> Literal.contains true "a.b" "xA.By").
Proof.
  assert (Hq : Literal.isAscii "a.b" = true) by reflexivity.
  assert (Ht : Literal.isAscii "xA.By" = true) by reflexivity.
  split; [exact Hq|]. split; [exact Ht|]. split; [reflexivity|].
  pose proof (escaped_query_is_literal "a.b" false false "xA.By" Hq Ht) as H.
  split; [exact (proj1 H) | exact (proj2 (proj2 H))].
Defined.

(** An unescaped dot is syntax: the pattern ['a.b'] has no reading in
    tokens, and the line ['axb'] does not have the query ['a.b'] in it. *)
Example unescaped_dot_is_syntax :
  Literal.readPattern "a.b" = None
  /\ Search.lineMatches "a.b" true false "axb" = false.
Proof. split; reflexivity. Qed.

(** X19 on a file in which the matching lines are apart. *)
Lemma search_exact_without_adjacent_matches_witness :
  let content := "foo" +++ Demo.nl +++ "x" +++ Demo.nl +++ "a foo" +++ Demo.nl +++ "y" in
  Literal.noAdjacentMatches (Search.lineMatches "foo" false false)
                            (JsString.split RangeReader.LF content) = true
  /\ map Search.line (Search.searchInContent "/f" content "foo" false false 2 [])
     = [1%Z; 3%Z]
  /\ map Search.line (Search.searchInContent "/f" content "foo" false false 2 [])
     = Search.matchingLines "foo" false false content.
Proof.
  intros content.
  assert (H : Literal.noAdjacentMatches (Search.lineMatches "foo" false false)
                (JsString.split RangeReader.LF content) = true) by reflexivity.
  split; [exact H|]. split; [reflexivity|].
  exact (search_exact_without_adjacent_matches "/f" content "foo" false false 2 H).
Defined.


(** ** Search over the roots *)

Section SearchScopeProofs.
Import Search JsString Path Walker Listing SearchScope.
Variable h : Host.
Hypothesis fs_ok : fsNamesOk h.

Lemma listFiles_cache (bs : list string) (options : ListFilesOptions) (w : World) :
  Forall (fun s => segOk s = true) bs ->
  cacheSound w -> cacheSound (snd (listFiles h (canon bs) options w)).
Proof.
  intros bs_ok Hw. unfold listFiles, bind.
  pose proof (loadIgnoreMatcher_cache h (canon bs) w Hw) as Hw1.
  destruct (loadIgnoreMatcher h (canon bs) w) as [[ig|e] w1]; simpl in Hw1;
    [|exact Hw1].
  pose proof (walkDirectory_visited h ig bs fs_ok bs_ok
                (orDefault (maxDepth options) 10%Z)
                (orDefault (recursive options) true)
                (orDefault (includeHidden options) false) (pattern options)
                (walkFuel (orDefault (maxDepth options) 10%Z))
                [] [] 0%Z w1 (Forall_nil _) eq_refl (conj (Forall_nil _) Hw1))
    as Hwalk.
  rewrite app_nil_r in Hwalk.
  destruct (walkDirectory _ _ _ _ _ _ _ _ _ _ _ w1) as [rs w2]. simpl in *.
  apply Hwalk.
Qed.

(** The entries of the listing that a search walks are in its scope. *)
Lemma listFiles_searchable (bs : list string) (filePattern : option string)
    (depth : option number) (w : World) (listing : list FileInfo) (info : FileInfo) :
  Forall (fun s => segOk s = true) bs ->
  cacheSound w ->
  fst (listFiles h (canon bs)
         {| pattern := filePattern; recursive := None; maxDepth := depth;
            includeHidden := None |} w) = Ok listing ->
  In info listing ->
  searchable h depth bs (path info).
Proof.
  intros bs_ok Hw Hlist Hin.
  pose proof (listFiles_visited h bs fs_ok bs_ok _ w listing Hw Hlist) as Hvis.
  destruct (listFiles_listed h bs fs_ok bs_ok
              {| pattern := filePattern; recursive := None; maxDepth := depth;
                 includeHidden := None |} w Hw) as (listing' & E & Hall & _).
  rewrite E in Hlist. injection Hlist as ->.
  rewrite Forall_forall in Hvis, Hall.
  destruct (Hvis info Hin) as (rel & Hne & Hrel & Hpath & Hclear).
  destruct (Hall info Hin) as (rel' & _ & Hrel' & Hpath' & Hdepth & _ & Hdots & _).
  assert (rel' = rel) as ->.
  { apply (app_inv_head bs). apply canon_inj.
    - apply Forall_app. now split.
    - apply Forall_app. now split.
    - congruence. }
  exists rel. repeat (split; [assumption|]). split; [now apply Hdots | exact Hclear].
Qed.

Lemma searchInFile_outcome (filePath query : string) (caseSensitive wholeWord : bool)
    (ctx : number) (results : list SearchResult) (w : World) :
  let out := searchInFile h filePath query caseSensitive wholeWord ctx results w in
  metadataCache (snd out) = metadataCache w
  /\ forall rs r, fst out = Ok rs -> In r rs -> In r results \/ file r = filePath.
Proof.
  unfold searchInFile, bind, readFile, ret.
  destruct (fsReadFile (fs h) filePath "utf-8") as [content|e]; simpl;
    (split; [reflexivity|]); [|discriminate].
  intros rs r [= <-]. revert r. apply Forall_forall. unfold searchInContent.
  apply (scanLines_sound filePath _ ctx
           (newRegExp (if wholeWord then "\b" +++ escapeRegExp query +++ "\b"
                       else escapeRegExp query) (negb caseSensitive))).
  - intros i text before after _ _. now right.
  - reflexivity.
  - reflexivity.
  - apply Forall_forall. intros r Hr. now left.
Qed.

(** The loop over the listed files never fails, and adds results of
    listed files only. *)
Lemma searchFiles_outcome (query : string) (caseSensitive wholeWord : bool)
    (ctx : number) :
  forall files results w,
    cacheSound w ->
    let out := searchFiles h files query caseSensitive wholeWord ctx results w in
    cacheSound (snd out)
    /\ exists rs,
         fst out = Ok rs
         /\ forall r, In r rs ->
                      In r results
                      \/ exists f, In f files /\ file r = path f.
Proof.
  induction files as [|f rest IH]; intros results w Hw; simpl.
  - split; [exact Hw|]. exists results. split; [reflexivity | now left].
  - destruct (isDirectory f).
    + destruct (IH results w Hw) as (Hw' & rs & E & Hrs).
      split; [exact Hw'|]. exists rs. split; [exact E|].
      intros r Hr. destruct (Hrs r Hr) as [H|(f' & Hf' & Hfile)]; [now left|].
      right. exists f'. split; [now right | exact Hfile].
    + unfold bind, tryCatch.
      destruct (searchInFile_outcome (path f) query caseSensitive wholeWord ctx
                  results w) as [Hcache Hfile].
      destruct (searchInFile h (path f) query caseSensitive wholeWord ctx results w)
        as [[found|e] w1]; simpl in Hcache, Hfile.
      * assert (Hw1 : cacheSound w1) by (unfold cacheSound; now rewrite Hcache).
        destruct (IH found w1 Hw1) as (Hw' & rs & E & Hrs).
        split; [exact Hw'|]. exists rs. split; [exact E|].
        intros r Hr. destruct (Hrs r Hr) as [H|(f' & Hf' & Hpath)].
        -- destruct (Hfile found r eq_refl H) as [H'|H']; [now left|].
           right. exists f. split; [now left | exact H'].
        -- right. exists f'. split; [now right | exact Hpath].
      * unfold warn, ret. simpl.
        assert (Hw1 : cacheSound (emit (EvWarn ("Failed to search in file '"
                                                 +++ path f +++ "': " +++ e)) w1))
          by (unfold cacheSound; simpl; now rewrite Hcache).
        destruct (IH results _ Hw1) as (Hw' & rs & E & Hrs).
        split; [exact Hw'|]. exists rs. split; [exact E|].
        intros r Hr. destruct (Hrs r Hr) as [H|(f' & Hf' & Hpath)]; [now left|].
        right. exists f'. split; [now right | exact Hpath].
Qed.

Lemma searchInDirectory_outcome (bs : list string) (query : string)
    (caseSensitive wholeWord : bool) (ctx : number) (filePattern : option string)
    (depth : option number) (results : list SearchResult) (w : World) :
  Forall (fun s => segOk s = true) bs ->
  cacheSound w ->
  let out := searchInDirectory h (canon bs) query caseSensitive wholeWord ctx
                               filePattern depth results w in
  cacheSound (snd out)
  /\ exists rs,
       fst out = Ok rs
       /\ forall r, In r rs -> In r results \/ searchable h depth bs (file r).
Proof.
  intros bs_ok Hw. unfold searchInDirectory, tryCatch, bind.
  pose proof (listFiles_cache bs {| pattern := filePattern; recursive := None;
                                    maxDepth := depth; includeHidden := None |}
                w bs_ok Hw) as Hw1.
  pose proof (fun listing info =>
                listFiles_searchable bs filePattern depth w listing info bs_ok Hw)
    as Hscope.
  destruct (listFiles h (canon bs) _ w) as [[files|e] w1]; simpl in Hw1, Hscope.
  - destruct (searchFiles_outcome query caseSensitive wholeWord ctx files results w1 Hw1)
      as (Hw2 & rs & E & Hrs).
    destruct (searchFiles h files query caseSensitive wholeWord ctx results w1)
      as [[rs'|e] w2]; simpl in Hw2, E; [|discriminate].
    injection E as ->. split; [exact Hw2|]. exists rs. split; [reflexivity|].
    intros r Hr. destruct (Hrs r Hr) as [H|(f & Hf & Hfile)]; [now left|].
    right. rewrite Hfile. now apply (Hscope files f).
  - unfold warn, ret. simpl. split; [exact Hw1|]. exists results.
    split; [reflexivity | now left].
Qed.

Lemma searchRoots_outcome (o : SearchFilesOptions) :
  forall roots results w,
    Forall canonical roots ->
    cacheSound w ->
    exists rs,
      fst (searchRoots h roots o results w) = Ok rs
      /\ forall r, In r rs -> In r results \/ inScope h (Search.maxDepth o) roots r.
Proof.
  induction roots as [|root rest IH]; intros results w Hroots Hw; simpl.
  - exists results. split; [reflexivity | now left].
  - inversion Hroots as [|? ? (bs & Hbs & ->) Hrest]; subst.
    unfold bind.
    destruct (searchInDirectory_outcome bs (query o) (orDefault (caseSensitive o) false)
                (orDefault (wholeWord o) false) (orDefault (contextLines o) 2%Z)
                (filePattern o) (Search.maxDepth o) results w Hbs Hw)
      as (Hw1 & rs1 & E1 & Hrs1).
    destruct (searchInDirectory h (canon bs) _ _ _ _ _ _ results w) as [[rs1'|e] w1];
      simpl in Hw1, E1; [|discriminate].
    injection E1 as ->.
    destruct (IH rs1 w1 Hrest Hw1) as (rs & E & Hrs).
    exists rs. split; [exact E|]. intros r Hr.
    destruct (Hrs r Hr) as [H|(bs' & Hin & Hbs' & Hscope)].
    + destruct (Hrs1 r H) as [H'|H']; [now left|].
      right. exists bs. split; [now left | now split].
    + right. exists bs'. split; [now right | now split].
Qed.

(** X22: a search over the roots never fails, whatever cannot be read,
    and every result is of a path below one of the roots, within the depth
    limit, under no name that starts with a dot, and cut off by no ignore
    rule of that root. *)
Theorem searchInFiles_scope (roots : list string) (options : SearchFilesOptions)
    (w : World) :
  Forall canonical roots ->
  cacheSound w ->
  exists results,
    fst (searchInFiles h roots options w) = Ok results
    /\ Forall (inScope h (Search.maxDepth options) roots) results.
Proof.
  intros Hroots Hw. unfold searchInFiles.
  destruct (searchRoots_outcome options roots [] w Hroots Hw) as (rs & E & Hrs).
  exists rs. split; [exact E|]. apply Forall_forall. intros r Hr.
  destruct (Hrs r Hr) as [[]|H]. exact H.
Qed.

End SearchScopeProofs.

(** X22 on the example tree. *)
Lemma searchInFiles_scope_witness :
  let h := Demo.host Demo.tree in
  let options := {| Search.query := "foo"; Search.filePattern := None;
                    Search.caseSensitive := None; Search.wholeWord := None;
                    Search.contextLines := None; Search.maxDepth := None |} in
  Walker.fsNamesOk h
  /\ Forall SearchScope.canonical ["/r"]
  /\ Walker.cacheSound Demo.start
  /\ exists results,
       fst (Search.searchInFiles h ["/r"] options Demo.start) = Ok results
       /\ Forall (SearchScope.inScope h None ["/r"]) results.
Proof.
  intros h options.
  assert (H1 : Walker.fsNamesOk h) by (apply tableFs_namesOk; reflexivity).
  assert (H2 : Forall SearchScope.canonical ["/r"]).
  { constructor; [|constructor]. exists ["r"]. split; [repeat constructor | reflexivity]. }
  assert (H3 : Walker.cacheSound Demo.start) by (intros k e []).
  repeat (split; [assumption|]).
  exact (searchInFiles_scope h H1 ["/r"] options Demo.start H2 H3).
Defined.

(** ** Ranged reads, further *)

Section RangesFurther.
Import JsString JsArray RangeReader.

Lemma join_app (sep : string) (l1 l2 : list string) :
  l1 <> [] -> l2 <> [] ->
  join sep (l1 ++ l2) = join sep l1 +++ sep +++ join sep l2.
Proof.
  intros H1 H2. induction l1 as [|x [|y r] IH]; [congruence | |].
  - destruct l2 as [|z t]; [congruence | reflexivity].
  - change (join sep ((x :: y :: r) ++ l2))
      with (x +++ sep +++ join sep ((y :: r) ++ l2)).
    rewrite IH by discriminate.
    change (join sep (x :: y :: r)) with (x +++ sep +++ join sep (y :: r)).
    now rewrite !append_assoc.
Qed.

Lemma firstn_add {A : Type} (n1 n2 : nat) (l : list A) :
  firstn (n1 + n2) l = firstn n1 l ++ firstn n2 (skipn n1 l).
Proof.
  revert l. induction n1 as [|n1 IH]; intros l; [reflexivity|].
  destruct l as [|x l]; simpl; [now rewrite firstn_nil | now rewrite IH].
Qed.

(** The lines of a range, as the slice cuts them. *)
Lemma selectLines_range (content : string) (startLine : number)
    (endLine : option number) :
  (1 <= startLine)%Z ->
  (forall e, endLine = Some e -> (0 <= e)%Z) ->
  let lines := split LF content in
  let stop := Nat.min (List.length lines)
                      (match endLine with
                       | Some e => Z.to_nat e
                       | None => List.length lines
                       end) in
  selectLines content (Some startLine) endLine
  = join (chr LF) (firstn (stop - Z.to_nat (startLine - 1))
                          (skipn (Z.to_nat (startLine - 1)) lines)).
Proof.
  intros Hs He lines stop. unfold selectLines. fold lines.
  rewrite slice_between by (destruct endLine as [e|]; [specialize (He e eq_refl)|]; lia).
  rewrite between_firstn_skipn, Nat.max_0_r, Nat.sub_0_r.
  f_equal. f_equal; [|f_equal; lia].
  subst stop. destruct endLine as [e|]; [specialize (He e eq_refl)|]; lia.
Qed.

Lemma readFileContent_ok (h : Host) (filePath encoding content : string)
    (startLine endLine : option number) (w : World) :
  fsReadFile (fs h) filePath encoding = Ok content ->
  fst (readFileContent h filePath startLine endLine encoding w)
  = Ok (selectLines content startLine endLine).
Proof.
  intros Hread. unfold readFileContent, tryCatch, bind, readFile, ret.
  now rewrite Hread.
Qed.

(** X23: two ranges that follow one another compose: the lines [a..k]
    and the lines [k+1..b] of a file, glued by a line separator, are its
    lines [a..b], for [1 <= a <= k], [k] less than the number of lines and
    less than [b]. *)
Theorem readFileContent_ranges_compose (h : Host) (filePath encoding content : string)
    (a k : number) (b : option number) (w1 w2 w3 : World) :
  fsReadFile (fs h) filePath encoding = Ok content ->
  (1 <= a <= k)%Z ->
  (k < Z.of_nat (List.length (split LF content)))%Z ->
  (forall e, b = Some e -> (k < e)%Z) ->
  exists x y,
    fst (readFileContent h filePath (Some a) (Some k) encoding w1) = Ok x
    /\ fst (readFileContent h filePath (Some (k + 1)%Z) b encoding w2) = Ok y
    /\ fst (readFileContent h filePath (Some a) b encoding w3)
       = Ok (x +++ chr LF +++ y).
Proof.
  intros Hread Ha Hk Hb.
  rewrite !(readFileContent_ok h filePath encoding content) by exact Hread.
  eexists. eexists. split; [reflexivity|]. split; [reflexivity|]. f_equal.
  assert (Hb0 : forall e, b = Some e -> (0 <= e)%Z).
  { intros e He. specialize (Hb e He). lia. }
  rewrite (selectLines_range content a b) by (assumption || lia).
  rewrite (selectLines_range content a (Some k)) by (try lia; intros e [= <-]; lia).
  pose proof (selectLines_range content (k + 1) b ltac:(lia) Hb0) as Hsecond.
  cbv zeta in Hsecond. change (@Some number) with (@Some Z) in Hsecond.
  rewrite Hsecond. clear Hsecond.
  set (lines := split LF content) in *.
  set (len := List.length lines) in *.
  set (stop := Nat.min len (match b with Some e => Z.to_nat e | None => len end)).
  set (a' := Z.to_nat (a - 1)).
  replace (Z.to_nat (k + 1 - 1)) with (Z.to_nat k) by lia.
  replace (Nat.min len (Z.to_nat k)) with (Z.to_nat k) by lia.
  assert (Hstop : Z.to_nat k < stop).
  { subst stop. destruct b as [e|]; [specialize (Hb e eq_refl)|]; lia. }
  replace (stop - a') with ((Z.to_nat k - a') + (stop - Z.to_nat k)) by lia.
  rewrite firstn_add, skipn_skipn.
  replace (Z.to_nat k - a' + a') with (Z.to_nat k) by lia.
  replace (Z.to_nat k - a' + (stop - Z.to_nat k) - (Z.to_nat k - a'))
    with (stop - Z.to_nat k) by lia.
  apply join_app.
  - intros E. apply (f_equal (@List.length _)) in E.
    rewrite length_firstn, length_skipn in E. fold len in E. simpl in E. lia.
  - intros E. apply (f_equal (@List.length _)) in E.
    rewrite length_firstn, length_skipn in E. fold len in E. simpl in E. lia.
Qed.

Lemma slice_all {A : Type} (l : list A) (start stop : number) :
  (start <= 0)%Z -> (Z.of_nat (List.length l) <= stop)%Z ->
  slice l (Z.max 0 start) (Z.min (Z.of_nat (List.length l)) stop) = l.
Proof.
  intros Hs He. unfold slice, relativeIndex.
  rewrite (Z.max_l 0 start), (Z.min_l _ stop) by lia.
  destruct (Z.ltb_spec 0 0); [lia|].
  destruct (Z.ltb_spec (Z.of_nat (List.length l)) 0); [lia|].
  rewrite Z.min_id, (Z.min_l 0) by lia.
  rewrite Z.sub_0_r, Nat2Z.id. simpl skipn. apply firstn_all.
Qed.

(** X24: a range that covers the file returns the file as it is: a start
    line of 1 or less, or none, and an end line at or past the last line,
    or none. *)
Theorem readFileContent_covering_range (h : Host) (filePath encoding content : string)
    (startLine endLine : option number) (w : World) :
  fsReadFile (fs h) filePath encoding = Ok content ->
  (forall s, startLine = Some s -> (s <= 1)%Z) ->
  (forall e, endLine = Some e ->
             (Z.of_nat (List.length (split LF content)) <= e)%Z) ->
  fst (readFileContent h filePath startLine endLine encoding w) = Ok content.
Proof.
  intros Hread Hs He.
  rewrite (readFileContent_ok h filePath encoding content) by exact Hread.
  f_equal. unfold selectLines.
  destruct startLine as [s|], endLine as [e|]; try reflexivity;
    try specialize (Hs s eq_refl); try specialize (He e eq_refl);
    rewrite slice_all by lia; apply join_split.
Qed.

End RangesFurther.

(** X23 on a file of four lines. *)
Lemma readFileContent_ranges_compose_witness :
  let h := Demo.host [("/f", Demo.file ("a" +++ Demo.nl +++ "b" +++ Demo.nl +++ "c"
                                        +++ Demo.nl +++ "d"))] in
  exists content,
    fsReadFile (fs h) "/f" "utf-8" = Ok content
    /\ (1 <= 2 <= 3)%Z
    /\ (3 < Z.of_nat (List.length (JsString.split RangeReader.LF content)))%Z
    /\ exists x y,
         fst (RangeReader.readFileContent h "/f" (Some 2%Z) (Some 3%Z) "utf-8" Demo.start)
         = Ok x
         /\ fst (RangeReader.readFileContent h "/f" (Some (3 + 1)%Z) None "utf-8" Demo.start)
            = Ok y
         /\ fst (RangeReader.readFileContent h "/f" (Some 2%Z) None "utf-8" Demo.start)
            = Ok (x +++ JsString.chr RangeReader.LF +++ y).
Proof.
  intros h. eexists.
  assert (H1 : fsReadFile (fs h) "/f" "utf-8"
               = Ok ("a" +++ Demo.nl +++ "b" +++ Demo.nl +++ "c" +++ Demo.nl +++ "d"))
    by reflexivity.
  assert (H2 : (1 <= 2 <= 3)%Z) by lia.
  assert (H3 : (3 < Z.of_nat (List.length
                   (JsString.split RangeReader.LF
                      ("a" +++ Demo.nl +++ "b" +++ Demo.nl +++ "c" +++ Demo.nl +++ "d"))))%Z)
    by (vm_compute; reflexivity).
  split; [exact H1|]. split; [exact H2|]. split; [exact H3|].
  exact (readFileContent_ranges_compose h "/f" "utf-8" _ 2 3 None
           Demo.start Demo.start Demo.start H1 H2 H3
           (fun e (E : None = Some e) => ltac:(discriminate E))).
Defined.

(** X24 on the example tree: lines 0 to 99 of a file of three lines. *)
Lemma readFileContent_covering_range_witness :
  let h := Demo.host Demo.tree in
  let content := "x" +++ Demo.nl +++ "foo" +++ Demo.nl +++ "y" in
  fsReadFile (fs h) "/r/a.txt" "utf-8" = Ok content
  /\ (0 <= 1)%Z
  /\ (Z.of_nat (List.length (JsString.split RangeReader.LF content)) <= 99)%Z
  /\ fst (RangeReader.readFileContent h "/r/a.txt" (Some 0%Z) (Some 99%Z) "utf-8"
            Demo.start) = Ok content.
Proof.
  intros h content.
  assert (H1 : fsReadFile (fs h) "/r/a.txt" "utf-8" = Ok content) by reflexivity.
  assert (H2 : (0 <= 1)%Z) by lia.
  assert (H3 : (Z.of_nat (List.length (JsString.split RangeReader.LF content)) <= 99)%Z)
    by (vm_compute; discriminate).
  split; [exact H1|]. split; [exact H2|]. split; [exact H3|].
  exact (readFileContent_covering_range h "/r/a.txt" "utf-8" content (Some 0%Z)
           (Some 99%Z) Demo.start H1
           (fun s (E : Some 0%Z = Some s) => ltac:(injection E as <-; exact H2))
           (fun e (E : Some 99%Z = Some e) => ltac:(injection E as <-; exact H3))).
Defined.

(** ** [read_files] stays inside the sandbox *)

Section Traces.
Import ReadScope.
Variable P : Event -> Prop.

Lemma tracedBy_refl (w : World) : tracedBy P w w.
Proof. exists []. split; [now rewrite app_nil_r | constructor]. Qed.

Lemma tracedBy_trans (w1 w2 w3 : World) :
  tracedBy P w1 w2 -> tracedBy P w2 w3 -> tracedBy P w1 w3.
Proof.
  intros (t1 & E1 & H1) (t2 & E2 & H2). exists (t1 ++ t2). split.
  - now rewrite E2, E1, app_assoc.
  - apply Forall_app. now split.
Qed.

Lemma tracedBy_emit (ev : Event) (w : World) : P ev -> tracedBy P w (emit ev w).
Proof. intros Hev. exists [ev]. split; [reflexivity | now constructor]. Qed.

End Traces.

Section ReadSandbox.
Import JsString Path Sandbox Metadata ReadFiles ReadScope.
Variable h : Host.
Hypothesis cwd_abs : isAbsolute (cwd h) = true.

Lemma validated_inside (p v : string) (roots : list string) :
  validatePathAccess (cwd h) p roots = Ok v -> insideSandbox (cwd h) v roots = true.
Proof.
  unfold validatePathAccess. fold (absoluteForm (cwd h) p). intros H.
  apply validateLoop_sound in H as [-> Hex].
  unfold insideSandbox. apply existsb_exists in Hex as (root & Hin & Hadm).
  apply existsb_exists. exists root. split; [assumption|].
  rewrite (absoluteForm_idem (cwd h) cwd_abs). now apply rootAdmits_sound.
Qed.

Lemma insideSandbox_incl (p : string) (roots allRoots : list string) :
  incl roots allRoots ->
  insideSandbox (cwd h) p roots = true -> insideSandbox (cwd h) p allRoots = true.
Proof.
  intros Hincl H. unfold insideSandbox in *.
  apply existsb_exists in H as (root & Hin & Hroot).
  apply existsb_exists. exists root. split; [now apply Hincl | exact Hroot].
Qed.

#[local] Abbreviation quiet roots := (tracedBy (sandboxed (cwd h) roots)).

Lemma pathExists_quiet (roots : list string) (p : string) (w : World) :
  insideSandbox (cwd h) p roots = true ->
  quiet roots w (snd (pathExists h p w)).
Proof.
  intros Hp. unfold pathExists, tryCatch, bind, access, ret.
  destruct (fsAccess (fs h) p); simpl; now apply tracedBy_emit.
Qed.

Lemma getFileInfo_quiet (roots : list string) (p : string) (w : World) :
  insideSandbox (cwd h) p roots = true ->
  quiet roots w (snd (getFileInfo h p w)).
Proof.
  intros Hp. destruct (getFileInfo_trace h p w) as [E|E].
  - exists []. split; [now rewrite app_nil_r | constructor].
  - exists [EvStat p]. split; [exact E | now constructor].
Qed.

Lemma readFileContent_quiet (roots : list string) (p : string)
    (startLine endLine : option number) (encoding : string) (w : World) :
  insideSandbox (cwd h) p roots = true ->
  quiet roots w (snd (RangeReader.readFileContent h p startLine endLine encoding w)).
Proof.
  intros Hp. unfold RangeReader.readFileContent, tryCatch, bind, readFile, ret, throw.
  destruct (fsReadFile (fs h) p encoding); simpl; now apply tracedBy_emit.
Qed.

Lemma resolveAgainst_quiet (filePath : string) (allRoots : list string) :
  forall roots w,
    incl roots allRoots ->
    let out := resolveAgainst h filePath allRoots roots w in
    quiet allRoots w (snd out)
    /\ forall v, fst out = Ok v -> insideSandbox (cwd h) v allRoots = true.
Proof.
  induction roots as [|root rest IH]; intros w Hincl; simpl.
  - split; [apply tracedBy_refl | discriminate].
  - assert (Hrest : incl rest allRoots).
    { intros x Hx. apply Hincl. now right. }
    destruct (validatePathAccess (cwd h) _ [root]) as [withinRoot|e] eqn:Hv;
      [|now apply IH].
    assert (Hin : insideSandbox (cwd h) withinRoot allRoots = true).
    { apply (insideSandbox_incl withinRoot [root]).
      - intros x [<-|[]]. apply Hincl. now left.
      - now apply validated_inside in Hv. }
    unfold bind. pose proof (pathExists_quiet allRoots withinRoot w Hin) as Hex.
    destruct (pathExists h withinRoot w) as [[found|e] w']; simpl in Hex.
    + destruct found.
      * split; [exact Hex|]. now intros v [= <-].
      * destruct (IH w' Hrest) as [Hq Hv']. split; [|exact Hv'].
        now apply (tracedBy_trans _ w w').
    + split; [exact Hex | discriminate].
Qed.

Lemma resolveFilePath_quiet (filePath : string) (roots : list string) (w : World) :
  let out := resolveFilePath h filePath roots w in
  quiet roots w (snd out)
  /\ forall v, fst out = Ok v -> insideSandbox (cwd h) v roots = true.
Proof.
  unfold resolveFilePath. destruct (isAbsolute filePath).
  - unfold liftResult. simpl. split; [apply tracedBy_refl|].
    intros v. apply validated_inside.
  - apply resolveAgainst_quiet. apply incl_refl.
Qed.

Lemma readSingleFile_quiet (filePath : string) (params : ReadFilesInput)
    (roots : list string) (w : World) :
  quiet roots w (snd (readSingleFile h filePath params roots w)).
Proof.
  unfold readSingleFile, bind.
  destruct (resolveFilePath_quiet filePath roots w) as [Hq1 Hv].
  destruct (resolveFilePath h filePath roots w) as [[v|e] w1]; simpl in Hq1, Hv;
    [|exact Hq1].
  specialize (Hv v eq_refl).
  pose proof (getFileInfo_quiet roots v w1 Hv) as Hq2.
  destruct (getFileInfo h v w1) as [[info|e] w2]; simpl in Hq2;
    [|now apply (tracedBy_trans _ w w1)].
  assert (Hq : quiet roots w w2) by now apply (tracedBy_trans _ w w1).
  destruct (isDirectory info); [exact Hq|].
  destruct (size info >? maxFileSize params)%Z; [exact Hq|].
  pose proof (readFileContent_quiet roots v (startLine params) (endLine params)
                (encoding params) w2 Hv) as Hq3.
  destruct (RangeReader.readFileContent h v _ _ _ w2) as [[content|e] w3];
    simpl in Hq3 |- *; now apply (tracedBy_trans _ w w2).
Qed.

Lemma readAll_quiet (params : ReadFilesInput) (roots : list string) :
  forall todo results w,
    quiet roots w (snd (readAll h params roots todo results w)).
Proof.
  induction todo as [|filePath rest IH]; intros results w; simpl.
  - apply tracedBy_refl.
  - unfold bind. rewrite readEntry_outcome.
    pose proof (readSingleFile_quiet filePath params roots w) as Hq.
    destruct (readSingleFile h filePath params roots w) as [[r|e] w1]; simpl in Hq;
      apply (tracedBy_trans _ w w1); auto.
Qed.

(** X25: whatever its input, [read_files] tests, stats and reads only
    paths inside the sandbox, and makes no other call of the filesystem:
    every path that reaches the filesystem has passed the validation. *)
Theorem readFiles_stays_in_sandbox (input : JsValue) (roots : list string) (w : World) :
  tracedBy (sandboxed (cwd h) roots) w (snd (handler h input roots w)).
Proof.
  unfold handler, bind, liftResult.
  destruct (parseInput input) as [params|e]; simpl; [|apply tracedBy_refl].
  destruct (rangeInverted params); [apply tracedBy_refl | apply readAll_quiet].
Qed.

End ReadSandbox.

(** X25 on the example tree: a relative path, a path outside the root and
    a path that climbs out of it. *)
Lemma readFiles_stays_in_sandbox_witness :
  let h := Demo.host Demo.tree in
  let input := JsObj [("paths", JsArr [JsStr "a.txt"; JsStr "/etc/passwd";
                                       JsStr "../r/sub/twice.txt"; JsStr "../x"])] in
  Path.isAbsolute (cwd h) = true
  /\ trace (snd (ReadFiles.handler h input ["/r"] Demo.start))
     = [EvAccess "/r/a.txt"; EvStat "/r/a.txt"; EvReadFile "/r/a.txt";
        EvAccess "/r/sub/twice.txt"; EvStat "/r/sub/twice.txt";
        EvReadFile "/r/sub/twice.txt"]
  /\ ReadScope.tracedBy (ReadScope.sandboxed (cwd h) ["/r"]) Demo.start
       (snd (ReadFiles.handler h input ["/r"] Demo.start)).
Proof.
  intros h input.
  assert (H : Path.isAbsolute (cwd h) = true) by reflexivity.
  split; [exact H|]. split; [vm_compute; reflexivity|].
  exact (readFiles_stays_in_sandbox h H input ["/r"] Demo.start).
Defined.

Section ReadRange.
Import ReadFiles.



End ReadRange.


(** ** Line numbers of a ranged read *)

Section LineNumbers.
Import JsString JsArray RangeReader ReadFiles.






Lemma mapi_nth {A B : Type} (f : A -> nat -> B) (l : list A) :
  forall i k, nth_error (mapi f i l) k
              = option_map (fun x => f x (i + k)) (nth_error l k).
Proof.
  induction l as [|x l IH]; intros i [|k]; simpl; try reflexivity.
  - now rewrite Nat.add_0_r.
  - rewrite IH. now replace (S i + k) with (i + S k) by lia.
Qed.





End LineNumbers.


(** ** The call handler of the server: [dir_tree] first *)

Section ServerGate.
Import Server.
Context {R : Type}.
Variable tools : list (ToolSpec R).
Variable roots : list string.

Lemma callTool_closed (toolName : string) (args : JsValue) (w : World) :
  (toolName =? "dir_tree")%string = false ->
  callTool tools roots toolName args {| dirTreeRan := false; world := w |}
  = (Throw GateClosed, {| dirTreeRan := false; world := w |}).
Proof. intros Hname. unfold callTool. now rewrite Hname. Qed.

Lemma callTool_keeps_flag (toolName : string) (args : JsValue) (st : ServerState) :
  dirTreeRan st = true ->
  dirTreeRan (snd (callTool tools roots toolName args st)) = true.
Proof.
  intros Hran. unfold callTool. rewrite Hran, andb_false_r.
  destruct (find _ tools) as [tool|]; [|exact Hran].
  destruct (handler tool (orEmpty args) roots (world st)) as [[result|e] w];
    simpl; [|reflexivity].
  now destruct (toolName =? "dir_tree")%string.
Qed.

(** Once set, the flag stays set. *)
Lemma serve_keeps_flag (requests : list (string * JsValue)) :
  forall st, dirTreeRan st = true ->
             dirTreeRan (snd (serve tools roots requests st)) = true.
Proof.
  induction requests as [|[toolName args] rest IH]; intros st Hran; simpl;
    [exact Hran|].
  pose proof (callTool_keeps_flag toolName args st Hran) as H1.
  destruct (callTool tools roots toolName args st) as [response st1].
  specialize (IH st1 H1).
  now destruct (serve tools roots rest st1) as [responses st2].
Qed.

(** X28: the server opens the other tools only after [dir_tree] has
    answered: the flag is set exactly when some request for [dir_tree]
    succeeded; and as long as none has, every request for another tool is
    refused with the same message and changes nothing, so that the process
    state is the one that the requests for [dir_tree] alone would have
    left. *)
Theorem other_tools_wait_for_dir_tree (requests : list (string * JsValue)) (w : World) :
  let closed := {| dirTreeRan := false; world := w |} in
  let out := serve tools roots requests closed in
  dirTreeRan (snd out)
  = existsb (fun p => forDirTree (fst p) && succeeded (snd p))
            (combine requests (fst out))
  /\ (dirTreeRan (snd out) = false ->
      Forall2 (fun request response =>
                 forDirTree request = false -> response = Throw GateClosed)
              requests (fst out)
      /\ world (snd out)
         = world (snd (serve tools roots (filter forDirTree requests) closed))).
Proof.
  revert w. induction requests as [|[toolName args] rest IH]; intros w; simpl.
  - split; [reflexivity|]. intros _. split; [constructor | reflexivity].
  - unfold forDirTree at 1 3. simpl fst.
    destruct (toolName =? "dir_tree")%string eqn:Hname.
    + (* a request for [dir_tree] *)
      simpl serve. unfold callTool. rewrite Hname. simpl.
      destruct (find _ tools) as [tool|].
      * destruct (handler tool (orEmpty args) roots w) as [[result|e] w1].
        -- pose proof (serve_keeps_flag rest
                         {| dirTreeRan := true; world := w1 |} eq_refl) as Hset.
           destruct (serve tools roots rest {| dirTreeRan := true; world := w1 |})
             as [responses st2]. simpl in Hset |- *.
           unfold forDirTree at 1. simpl. rewrite Hname. simpl.
           split; [exact Hset | congruence].
        -- specialize (IH (emit (EvWarn ("[ERROR] Tool '" +++ toolName
                                         +++ "' failed: " +++ e)) w1)).
           simpl in IH.
           destruct (serve tools roots rest _) as [responses st2].
           destruct (serve tools roots (filter forDirTree rest) _) as [responses' st2'].
           simpl in IH |- *. unfold forDirTree at 1. simpl. rewrite Hname. simpl.
           destruct IH as [Hflag Hclosed]. split; [exact Hflag|].
           intros Hno. destruct (Hclosed Hno) as [Hall Hworld].
           split; [|exact Hworld]. constructor; [|exact Hall].
           unfold forDirTree. simpl. congruence.
      * specialize (IH w). simpl in IH.
        destruct (serve tools roots rest _) as [responses st2].
        destruct (serve tools roots (filter forDirTree rest) _) as [responses' st2'].
        simpl in IH |- *. unfold forDirTree at 1. simpl. rewrite Hname. simpl.
        destruct IH as [Hflag Hclosed]. split; [exact Hflag|].
        intros Hno. destruct (Hclosed Hno) as [Hall Hworld].
        split; [|exact Hworld]. constructor; [|exact Hall].
        unfold forDirTree. simpl. congruence.
    + (* a request for another tool *)
      rewrite (callTool_closed toolName args w Hname).
      specialize (IH w). simpl in IH.
      destruct (serve tools roots rest _) as [responses st2].
      simpl in IH |- *. unfold forDirTree at 1. simpl. rewrite Hname. simpl.
      destruct IH as [Hflag Hclosed]. split; [exact Hflag|].
      intros Hno. destruct (Hclosed Hno) as [Hall Hworld].
      split; [|exact Hworld]. constructor; [|exact Hall]. reflexivity.
Qed.

End ServerGate.

(** ** Start-up: the roots of the command line *)

Section Startup.
Import JsString Path Metadata Cli SearchScope.
Variable h : Host.
Variable homedir : string.

Lemma resolve_canonical (p : string) :
  isAbsolute (cwd h) = true -> canonical (resolve (cwd h) [p]).
Proof.
  intros Habs. exists (resolvedSegments (cwd h) [p]).
  split; [apply resolvedSegments_ok | now apply resolve_canon].
Qed.

Lemma canonical_absolute (root : string) : canonical root -> isAbsolute root = true.
Proof. now intros (bs & _ & ->). Qed.

Lemma parseArgs_canonical (n : nat) :
  isAbsolute (cwd h) = true ->
  forall argv roots rs,
    List.length argv <= n ->
    Forall canonical roots ->
    parseArgs (cwd h) homedir argv roots = Ok rs ->
    Forall canonical rs.
Proof.
  intros Habs. induction n as [|n IH]; intros argv roots rs Hlen Hroots.
  - destruct argv; [|simpl in Hlen; lia]. now intros [= <-].
  - destruct argv as [|arg rest]; [now intros [= <-]|]. simpl in Hlen |- *.
    destruct ((arg =? "--root")%string || (arg =? "-r")%string).
    + destruct rest as [|rootPath rest']; [discriminate|].
      destruct ((rootPath =? "")%string || startsWith rootPath "-"); [discriminate|].
      apply IH; [simpl in Hlen; lia|].
      apply Forall_app. split; [assumption|]. constructor; [|constructor].
      now apply resolve_canonical.
    + apply IH; [lia | assumption].
Qed.

Lemma pathExists_accessible (root : string) (w : World) :
  fst (pathExists h root w) = Ok (accessible h root).
Proof.
  unfold pathExists, tryCatch, bind, access, ret, accessible.
  now destruct (fsAccess (fs h) root).
Qed.

(** The loop keeps the roots that exist, in their order. *)
Lemma checkRoots_filter :
  forall roots validRoots w,
    fst (checkRoots h roots validRoots w)
    = Ok (validRoots ++ filter (accessible h) roots).
Proof.
  induction roots as [|root rest IH]; intros validRoots w; simpl.
  - now rewrite app_nil_r.
  - unfold bind. pose proof (pathExists_accessible root w) as Hex.
    destruct (pathExists h root w) as [[found|e] w1]; simpl in Hex; [|discriminate].
    injection Hex as ->. destruct (accessible h root); unfold consoleError; simpl.
    + rewrite IH. now rewrite <- app_assoc.
    + apply IH.
Qed.

Lemma parseArgs_no_flags (argv roots : list string) :
  Forall (fun arg => (arg =? "--root")%string || (arg =? "-r")%string = false) argv ->
  parseArgs (cwd h) homedir argv roots = Ok roots.
Proof.
  induction 1 as [|arg rest Harg _ IH]; simpl; [reflexivity|]. now rewrite Harg.
Qed.

(** X29: the roots that the server starts with: when the command line
    parses and the validation passes, the roots are those that the command
    line gave and that exist, in their order, there is one at least, and
    each is an absolute, normalized path; a command line without a root
    flag gives the working directory. *)
Theorem startup_roots (argv rs validRoots : list string) (w : World) :
  canonical (cwd h) ->
  parseCliArgs (cwd h) homedir argv = Ok rs ->
  fst (validateRoots h rs w) = Ok validRoots ->
  validRoots = filter (accessible h) rs
  /\ validRoots <> []
  /\ Forall canonical validRoots
  /\ (Forall (fun arg => (arg =? "--root")%string || (arg =? "-r")%string = false) argv ->
      rs = [cwd h]).
Proof.
  intros Hcwd Hparse Hvalid.
  assert (Hrs : Forall canonical rs).
  { unfold parseCliArgs in Hparse.
    destruct (parseArgs (cwd h) homedir argv []) as [roots|e] eqn:E; [|discriminate].
    destruct (List.length roots =? 0)%nat.
    - injection Hparse as <-. now constructor.
    - injection Hparse as <-.
      apply (parseArgs_canonical (List.length argv) (canonical_absolute _ Hcwd)
               argv [] roots (le_n _) (Forall_nil _) E). }
  assert (Hplain : Forall (fun arg => (arg =? "--root")%string || (arg =? "-r")%string
                                      = false) argv -> rs = [cwd h]).
  { intros Hargv. unfold parseCliArgs in Hparse.
    rewrite (parseArgs_no_flags argv [] Hargv) in Hparse. simpl in Hparse.
    now injection Hparse. }
  unfold validateRoots, bind in Hvalid.
  pose proof (checkRoots_filter rs [] w) as Hloop.
  destruct (checkRoots h rs [] w) as [[valid|e] w1]; simpl in Hloop; [|discriminate].
  injection Hloop as ->. simpl in Hvalid.
  destruct (filter (accessible h) rs) as [|r valid] eqn:E; [discriminate|].
  simpl in Hvalid. injection Hvalid as <-. split; [reflexivity|].
  split; [discriminate|]. split; [|exact Hplain].
  rewrite <- E. apply Forall_forall. intros x Hx. apply filter_In in Hx as [Hx _].
  rewrite Forall_forall in Hrs. now apply Hrs.
Qed.

End Startup.

(** X29 on the example tree: two roots are named, one exists. *)
Lemma startup_roots_witness :
  let h := Demo.host Demo.tree in
  let argv := ["--root"; "/r/sub/../sub"; "-v"; "-r"; "/missing"] in
  SearchScope.canonical (cwd h)
  /\ Cli.parseCliArgs (cwd h) "/home/u" argv = Ok ["/r/sub"; "/missing"]
  /\ fst (Cli.validateRoots h ["/r/sub"; "/missing"] Demo.start) = Ok ["/r/sub"]
  /\ ["/r/sub"] = filter (Cli.accessible h) ["/r/sub"; "/missing"]
  /\ ["/r/sub"] <> []
  /\ Forall SearchScope.canonical ["/r/sub"]
  /\ (Forall (fun arg => (arg =? "--root")%string || (arg =? "-r")%string = false) argv ->
      ["/r/sub"; "/missing"] = [cwd h]).
Proof.
  intros h argv.
  assert (H1 : SearchScope.canonical (cwd h)).
  { exists []. split; [constructor | reflexivity]. }
  assert (H2 : Cli.parseCliArgs (cwd h) "/home/u" argv = Ok ["/r/sub"; "/missing"])
    by reflexivity.
  assert (H3 : fst (Cli.validateRoots h ["/r/sub"; "/missing"] Demo.start)
               = Ok ["/r/sub"]) by reflexivity.
  split; [exact H1|]. split; [exact H2|]. split; [exact H3|].
  exact (startup_roots h "/home/u" argv ["/r/sub"; "/missing"] ["/r/sub"] Demo.start
           H1 H2 H3).
Defined.

(** ** The tools stay inside the sandbox *)

Lemma tracedBy_impl (P Q : Event -> Prop) (w w' : World) :
  (forall ev, P ev -> Q ev) -> ReadScope.tracedBy P w w' -> ReadScope.tracedBy Q w w'.
Proof.
  intros HPQ (t & E & Ht). exists t. split; [exact E|].
  eapply Forall_impl; [exact HPQ | exact Ht].
Qed.

Section ToolSandbox.
Import JsString Path Sandbox Metadata Walker Listing ReadScope SearchScope ToolScope
       ToolPaths.
Variable h : Host.
Hypothesis cwd_abs : isAbsolute (cwd h) = true.
Hypothesis fs_ok : fsNamesOk h.
Variable roots : list string.

#[local] Abbreviation segsOk := (Forall (fun s => segOk s = true)).
#[local] Abbreviation quiet := (tracedBy (inside (cwd h) roots)).

Lemma absoluteForm_canon (bs : list string) :
  segsOk bs -> absoluteForm (cwd h) (canon bs) = canon bs.
Proof.
  intros Hbs. unfold absoluteForm. rewrite resolve_canon_id by assumption.
  now apply normalize_canon.
Qed.

Lemma properPrefix_self_app (rs rest : list string) :
  properPrefix rs (rs ++ rest) = match rest with [] => false | _ :: _ => true end.
Proof.
  induction rs as [|x rs IH]; simpl; [now destruct rest|].
  now rewrite String.eqb_refl.
Qed.

Lemma insideRoot_below (rs bs rel : list string) :
  segsOk rs -> segsOk bs -> segsOk rel ->
  insideRoot (canon rs) (canon bs) = true ->
  insideRoot (canon rs) (canon (bs ++ rel)) = true.
Proof.
  intros Hrs Hbs Hrel. unfold insideRoot, descendantOf.
  assert (Hall : segsOk (bs ++ rel)) by (apply Forall_app; now split).
  rewrite !segmentsOf_canon by assumption.
  intros H. apply orb_true_iff in H as [E|Hpre].
  - apply String.eqb_eq, canon_inj in E; [|assumption..]. subst rs.
    rewrite properPrefix_self_app. destruct rel as [|x rel]; [|apply orb_true_r].
    now rewrite app_nil_r, String.eqb_refl.
  - destruct (properPrefix_decompose rs bs Hpre) as [rest ->].
    rewrite properPrefix_self_app in Hpre.
    rewrite <- app_assoc, properPrefix_self_app.
    destruct rest; [discriminate|]. apply orb_true_r.
Qed.

(** What lies at or below a target lies inside the sandbox. *)
Lemma below_inside (bs : list string) (p : string) :
  segsOk bs ->
  insideSandbox (cwd h) (canon bs) roots = true ->
  below bs p ->
  insideSandbox (cwd h) p roots = true.
Proof.
  intros Hbs Hin (rel & Hrel & ->). unfold insideSandbox in *.
  apply existsb_exists in Hin as (root & Hroot & Hin).
  apply existsb_exists. exists root. split; [exact Hroot|].
  assert (Hall : segsOk (bs ++ rel)) by (apply Forall_app; now split).
  rewrite absoluteForm_canon in Hin |- * by assumption.
  unfold absoluteForm in *. rewrite absolute_resolve in Hin |- * by assumption.
  apply insideRoot_below; auto. apply resolvedSegments_ok.
Qed.

Lemma confined_quiet (bs : list string) (w w' : World) :
  segsOk bs ->
  insideSandbox (cwd h) (canon bs) roots = true ->
  tracedBy (confined bs) w w' -> quiet w w'.
Proof.
  intros Hbs Hin. apply tracedBy_impl. intros [p|p|p|p|msg]; simpl; auto;
    now apply below_inside.
Qed.

Lemma validated_target (p v : string) (allowed : list string) :
  incl allowed roots ->
  validatePathAccess (cwd h) p allowed = Ok v -> target (cwd h) roots v.
Proof.
  intros Hincl Hv. pose proof (validated_inside h cwd_abs p v allowed Hv) as Hin.
  unfold validatePathAccess in Hv. fold (absoluteForm (cwd h) p) in Hv.
  apply validateLoop_sound in Hv as [-> _].
  exists (resolvedSegments (cwd h) [p]). split; [apply resolvedSegments_ok|].
  split; [now apply absolute_resolve|].
  now apply (insideSandbox_incl h _ allowed).
Qed.

Lemma root_target (root : string) :
  In root roots -> canonical root -> target (cwd h) roots root.
Proof.
  intros Hin (bs & Hbs & ->). exists bs. split; [exact Hbs|]. split; [reflexivity|].
  unfold insideSandbox. apply existsb_exists. exists (canon bs).
  split; [exact Hin|]. unfold insideRoot. now rewrite String.eqb_refl.
Qed.

Lemma pathExists_step (p : string) (w : World) :
  insideSandbox (cwd h) p roots = true ->
  quiet w (snd (pathExists h p w))
  /\ metadataCache (snd (pathExists h p w)) = metadataCache w
  /\ exists found, fst (pathExists h p w) = Ok found.
Proof.
  intros Hp. unfold pathExists, tryCatch, bind, access, ret.
  destruct (fsAccess (fs h) p); simpl;
    (split; [now apply tracedBy_emit|]); (split; [reflexivity|]); eauto.
Qed.

Lemma candidatesLoop_targets (path : string) :
  forall todo candidates w,
    incl todo roots ->
    Forall (target (cwd h) roots) candidates ->
    let out := candidatesLoop h path todo candidates w in
    quiet w (snd out)
    /\ metadataCache (snd out) = metadataCache w
    /\ forall cs, fst out = Ok cs -> Forall (target (cwd h) roots) cs.
Proof.
  induction todo as [|root rest IH]; intros candidates w Hincl Hcs; simpl.
  - split; [apply tracedBy_refl|]. split; [reflexivity|]. now intros cs [= <-].
  - assert (Hrest : incl rest roots) by (intros x Hx; apply Hincl; now right).
    unfold bind at 1. unfold tryCatch, bind, liftResult.
    destruct (validatePathAccess (cwd h) _ [root]) as [withinRoot|e] eqn:Hv;
      [|now apply IH].
    assert (Ht : target (cwd h) roots withinRoot).
    { apply (validated_target (normalize (resolve (cwd h) [root; path])) _ [root]);
        [|exact Hv].
      intros x [<-|[]]. apply Hincl. now left. }
    pose proof Ht as (bs & _ & _ & Hin).
    destruct (pathExists_step withinRoot w Hin) as (Hq & Hc & found & Hfound).
    destruct (pathExists h withinRoot w) as [[found'|e] w1];
      simpl in Hq, Hc, Hfound; [|discriminate].
    unfold ret. cbv beta iota.
    destruct (IH (if found' then candidates ++ [withinRoot] else candidates) w1 Hrest)
      as (Hq' & Hc' & Hcs').
    { destruct found'; [|exact Hcs]. apply Forall_app. split; [exact Hcs|].
      now constructor. }
    split; [now apply (tracedBy_trans _ w w1)|]. split; [congruence | exact Hcs'].
Qed.

Lemma pathsToList_targets (path : option string) (w : World) :
  Forall canonical roots ->
  let out := pathsToList h path roots w in
  quiet w (snd out)
  /\ metadataCache (snd out) = metadataCache w
  /\ forall ts, fst out = Ok ts -> Forall (target (cwd h) roots) ts.
Proof.
  intros Hroots.
  assert (Hown : quiet w w /\ metadataCache w = metadataCache w
                 /\ forall ts, Ok roots = Ok ts -> Forall (target (cwd h) roots) ts).
  { split; [apply tracedBy_refl|]. split; [reflexivity|]. intros ts [= <-].
    apply Forall_forall. intros root Hin. apply root_target; [exact Hin|].
    rewrite Forall_forall in Hroots. now apply Hroots. }
  unfold pathsToList. destruct path as [p|]; [|exact Hown].
  destruct (p =? "")%string; [exact Hown|].
  destruct (isAbsolute p).
  - unfold bind, liftResult, ret.
    destruct (validatePathAccess (cwd h) p roots) as [v|e] eqn:Hv; simpl;
      (split; [apply tracedBy_refl|]); (split; [reflexivity|]); [|discriminate].
    intros ts [= <-]. constructor; [|constructor].
    now apply (validated_target p v roots (incl_refl _)).
  - unfold bind.
    destruct (candidatesLoop_targets p roots [] w (incl_refl _) (Forall_nil _))
      as (Hq & Hc & Hcs).
    destruct (candidatesLoop h p roots [] w) as [[cs|e] w1]; simpl in Hq, Hc, Hcs;
      [|split; [exact Hq|]; split; [exact Hc | discriminate]].
    destruct (List.length cs =? 0)%nat; simpl;
      (split; [exact Hq|]); (split; [exact Hc|]); [discriminate|].
    intros ts [= <-]. now apply Hcs.
Qed.

Lemma listAll_quiet (params : ListFilesTool.ListFilesInput) :
  forall todo results w,
    Forall (target (cwd h) roots) todo ->
    cacheSound w ->
    quiet w (snd (ListFilesTool.listAll h params todo results w)).
Proof.
  induction todo as [|rootPath rest IH]; intros results w Htodo Hw; simpl.
  - apply tracedBy_refl.
  - inversion Htodo as [|? ? (bs & Hbs & -> & Hin) Hrest]; subst.
    unfold bind, tryCatch.
    set (options := {| pattern := ListFilesTool.pattern params;
                       recursive := Some (ListFilesTool.recursive params);
                       maxDepth := Some (ListFilesTool.maxDepth params);
                       includeHidden := Some (ListFilesTool.includeHidden params) |}).
    destruct (listFiles_listed h bs fs_ok Hbs options w Hw) as (listing & E & _ & Ht).
    pose proof (listFiles_cache h fs_ok bs options w Hbs Hw) as Hw1.
    destruct (listFiles h (canon bs) options w) as [[files|e] w1];
      simpl in E, Ht, Hw1; [|discriminate].
    simpl. apply (tracedBy_trans _ w w1).
    + now apply (confined_quiet bs).
    + now apply IH.
Qed.

Lemma treeAll_quiet (params : DirTreeTool.DirTreeInput) :
  forall todo results w,
    Forall (target (cwd h) roots) todo ->
    cacheSound w ->
    quiet w (snd (DirTreeTool.treeAll h params todo results w)).
Proof.
  induction todo as [|rootPath rest IH]; intros results w Htodo Hw; simpl.
  - apply tracedBy_refl.
  - inversion Htodo as [|? ? (bs & Hbs & -> & Hin) Hrest]; subst.
    unfold bind, tryCatch.
    destruct (directoryTree_built h bs fs_ok Hbs
                (Some (DirTreeTool.maxDepth params))
                (Some (DirTreeTool.includeHidden params)) w Hw) as [[Hw1 Ht] _].
    destruct (directoryTree h (canon bs) _ _ w) as [[tree|e] w1]; simpl in Hw1, Ht |- *;
      (apply (tracedBy_trans _ w w1); [now apply (confined_quiet bs) | now apply IH]).
Qed.

Lemma searchFiles_confined (bs : list string) (query : string)
    (caseSensitive wholeWord : bool) (ctx : number) :
  forall files results w,
    Forall (fun f => below bs (path f)) files ->
    tracedBy (confined bs) w
             (snd (Search.searchFiles h files query caseSensitive wholeWord ctx
                                      results w)).
Proof.
  induction files as [|f rest IH]; intros results w Hfiles; simpl.
  - apply tracedBy_refl.
  - inversion Hfiles as [|? ? Hf Hrest]; subst.
    destruct (isDirectory f); [now apply IH|].
    unfold bind, tryCatch, Search.searchInFile, readFile, ret, warn.
    destruct (fsReadFile (fs h) (path f) "utf-8") as [content|e]; simpl.
    + apply (tracedBy_trans _ w (emit (EvReadFile (path f)) w));
        [now apply tracedBy_emit | now apply IH].
    + apply (tracedBy_trans _ w (emit (EvReadFile (path f)) w));
        [now apply tracedBy_emit|].
      eapply tracedBy_trans; [|now apply IH]. apply tracedBy_emit. exact I.
Qed.

Lemma searchInDirectory_confined (bs : list string) (query : string)
    (caseSensitive wholeWord : bool) (ctx : number) (filePattern : option string)
    (depth : option number) (results : list Search.SearchResult) (w : World) :
  segsOk bs -> cacheSound w ->
  tracedBy (confined bs) w
           (snd (Search.searchInDirectory h (canon bs) query caseSensitive wholeWord
                                          ctx filePattern depth results w)).
Proof.
  intros Hbs Hw. unfold Search.searchInDirectory, tryCatch, bind.
  set (options := {| pattern := filePattern; recursive := None; maxDepth := depth;
                     includeHidden := None |}).
  destruct (listFiles_listed h bs fs_ok Hbs options w Hw) as (listing & E & Hall & Ht).
  destruct (listFiles h (canon bs) options w) as [[files|e] w1]; simpl in E, Ht;
    [|discriminate].
  injection E as ->.
  assert (Hbelow : Forall (fun f => below bs (path f)) listing).
  { eapply Forall_impl; [|exact Hall].
    intros f (rel & _ & Hrel & Hpath & _). now exists rel. }
  pose proof (searchFiles_confined bs query caseSensitive wholeWord ctx listing
                results w1 Hbelow) as Hs.
  destruct (Search.searchFiles h listing query caseSensitive wholeWord ctx results w1)
    as [[rs|e] w2]; simpl in Hs |- *.
  - now apply (tracedBy_trans _ w w1).
  - unfold warn. simpl. apply (tracedBy_trans _ w w1); [exact Ht|].
    eapply tracedBy_trans; [exact Hs | apply tracedBy_emit; exact I].
Qed.

Lemma searchRoots_quiet (o : Search.SearchFilesOptions) :
  forall todo results w,
    incl todo roots -> Forall canonical todo -> cacheSound w ->
    quiet w (snd (Search.searchRoots h todo o results w)).
Proof.
  induction todo as [|root rest IH]; intros results w Hincl Htodo Hw; simpl.
  - apply tracedBy_refl.
  - inversion Htodo as [|? ? Hroot Hrest]; subst.
    assert (Hin : In root roots) by (apply Hincl; now left).
    destruct (root_target root Hin Hroot) as (bs & Hbs & -> & Hinside).
    unfold bind.
    pose proof (searchInDirectory_confined bs (Search.query o)
                  (orDefault (Search.caseSensitive o) false)
                  (orDefault (Search.wholeWord o) false)
                  (orDefault (Search.contextLines o) 2%Z)
                  (Search.filePattern o) (Search.maxDepth o) results w Hbs Hw) as Hq.
    destruct (searchInDirectory_outcome h fs_ok bs (Search.query o)
                (orDefault (Search.caseSensitive o) false)
                (orDefault (Search.wholeWord o) false)
                (orDefault (Search.contextLines o) 2%Z)
                (Search.filePattern o) (Search.maxDepth o) results w Hbs Hw)
      as (Hw1 & rs & E & _).
    destruct (Search.searchInDirectory h (canon bs) _ _ _ _ _ _ results w)
      as [[rs'|e] w1]; simpl in Hq, Hw1, E; [|discriminate].
    apply (tracedBy_trans _ w w1).
    + now apply (confined_quiet bs).
    + apply IH; [|assumption..]. intros x Hx. apply Hincl. now right.
Qed.

(** X30: whatever their input, [list_files], [dir_tree] and the search
    over the roots call the filesystem on paths inside the sandbox only,
    for roots that are absolute and normalized: a path given by the caller
    is walked only after it has passed the validation, and a walk never
    leaves its starting point. *)
Theorem tools_stay_in_sandbox (listInput treeInput : JsValue)
    (options : Search.SearchFilesOptions) (w : World) :
  Forall canonical roots ->
  cacheSound w ->
  tracedBy (inside (cwd h) roots) w (snd (ListFilesTool.handler h listInput roots w))
  /\ tracedBy (inside (cwd h) roots) w (snd (DirTreeTool.handler h treeInput roots w))
  /\ tracedBy (inside (cwd h) roots) w (snd (Search.searchInFiles h roots options w)).
Proof.
  intros Hroots Hw. split; [|split].
  - unfold ListFilesTool.handler, bind, liftResult.
    destruct (ListFilesTool.parseInput listInput) as [params|e]; simpl;
      [|apply tracedBy_refl].
    destruct (pathsToList_targets (ListFilesTool.path params) w Hroots)
      as (Hq & Hc & Hts).
    destruct (pathsToList h (ListFilesTool.path params) roots w) as [[ts|e] w1];
      simpl in Hq, Hc, Hts; [|exact Hq].
    apply (tracedBy_trans _ w w1); [exact Hq|].
    apply listAll_quiet; [now apply Hts|]. unfold cacheSound. now rewrite Hc.
  - unfold DirTreeTool.handler, bind, liftResult.
    destruct (DirTreeTool.parseInput treeInput) as [params|e]; simpl;
      [|apply tracedBy_refl].
    destruct (pathsToList_targets (DirTreeTool.path params) w Hroots)
      as (Hq & Hc & Hts).
    destruct (pathsToList h (DirTreeTool.path params) roots w) as [[ts|e] w1];
      simpl in Hq, Hc, Hts; [|exact Hq].
    apply (tracedBy_trans _ w w1); [exact Hq|].
    apply treeAll_quiet; [now apply Hts|]. unfold cacheSound. now rewrite Hc.
  - unfold Search.searchInFiles.
    apply searchRoots_quiet; [apply incl_refl | exact Hroots | exact Hw].
Qed.

End ToolSandbox.

(** X30 on the example tree: a relative path for [list_files], an absolute
    one for [dir_tree], and a search of the root. *)
Lemma tools_stay_in_sandbox_witness :
  let h := Demo.host Demo.tree in
  let listInput := JsObj [("path", JsStr "sub"); ("maxDepth", JsNumber 1)] in
  let treeInput := JsObj [("path", JsStr "/r/skip")] in
  let options := {| Search.query := "foo"; Search.filePattern := None;
                    Search.caseSensitive := None; Search.wholeWord := None;
                    Search.contextLines := None; Search.maxDepth := None |} in
  Path.isAbsolute (cwd h) = true
  /\ Walker.fsNamesOk h
  /\ Forall SearchScope.canonical ["/r"]
  /\ Walker.cacheSound Demo.start
  /\ trace (snd (ListFilesTool.handler h listInput ["/r"] Demo.start))
     = [EvAccess "/r/sub"; EvReadFile "/r/sub/.gitignore"; EvReaddir "/r/sub";
        EvStat "/r/sub/twice.txt"; EvStat "/r/sub/large.bin"]
  /\ ReadScope.tracedBy (ToolScope.inside (cwd h) ["/r"]) Demo.start
       (snd (ListFilesTool.handler h listInput ["/r"] Demo.start))
  /\ ReadScope.tracedBy (ToolScope.inside (cwd h) ["/r"]) Demo.start
       (snd (DirTreeTool.handler h treeInput ["/r"] Demo.start))
  /\ ReadScope.tracedBy (ToolScope.inside (cwd h) ["/r"]) Demo.start
       (snd (Search.searchInFiles h ["/r"] options Demo.start)).
Proof.
  intros h listInput treeInput options.
  assert (H0 : Path.isAbsolute (cwd h) = true) by reflexivity.
  assert (H1 : Walker.fsNamesOk h) by (apply tableFs_namesOk; reflexivity).
  assert (H2 : Forall SearchScope.canonical ["/r"]).
  { constructor; [|constructor]. exists ["r"]. split; [repeat constructor | reflexivity]. }
  assert (H3 : Walker.cacheSound Demo.start) by (intros k e []).
  repeat (split; [assumption|]). split; [vm_compute; reflexivity|].
  exact (tools_stay_in_sandbox h H0 H1 ["/r"] listInput treeInput options Demo.start
           H2 H3).
Defined.

(** The gate on the example tree: a read before any tree is refused; after
    a tree of a path outside the sandbox has failed it is refused still;
    after a tree has been built it is served. *)
Example gate_example :
  let h := Demo.host Demo.tree in
  let read := ("read_files", JsObj [("path", JsStr "/r/a.txt")]) in
  let out := Server.serve (DemoServer.tools h) ["/r"]
               [read; ("dir_tree", JsObj [("path", JsStr "/etc")]); read;
                ("dir_tree", JsUndefined); read]
               {| Server.dirTreeRan := false; Server.world := Demo.start |} in
  map Server.succeeded (fst out) = [false; false; false; true; true]
  /\ nth_error (fst out) 0 = Some (Throw Server.GateClosed)
  /\ nth_error (fst out) 1
     = Some (Throw ("Tool execution failed: " +++ Sandbox.OutsideSandbox "/etc"))
  /\ nth_error (fst out) 2 = Some (Throw Server.GateClosed)
  /\ Server.dirTreeRan (snd out) = true.
Proof. vm_compute. repeat split; reflexivity. Qed.

(** ** Both walkers *)

(** X11: both walkers put the directories first: in a flat listing, and
    among the children of every node of a tree, no file comes before a
    directory, whatever the names are and however [localeCompare] orders
    them. *)
Theorem walks_put_directories_first (h : Host) :
  (forall rootPath options w listing,
      fst (Walker.listFiles h rootPath options w) = Ok listing ->
      StronglySorted (fun a b => isDirectory b = true -> isDirectory a = true) listing)
  /\ (forall rootPath maxDepth includeHidden w tree node children,
        fst (Walker.directoryTree h rootPath maxDepth includeHidden w) = Ok tree ->
        In node (Listing.subtrees tree) ->
        Walker.nodeChildren node = Some children ->
        StronglySorted (fun a b => isDirectory (Walker.nodeInfo b) = true ->
                                   isDirectory (Walker.nodeInfo a) = true) children).
Proof.
  split.
  - intros rootPath options w listing. apply listFiles_directories_first.
  - intros rootPath maxDepth includeHidden w tree node children.
    apply directoryTree_directories_first.
Qed.

